(** * PancakePainter: the paper.js utility helpers, embedded and verified

    Shallow embedding of the helper module for paper (offsetPath,
    paths2string, destroyThinFeatures, recursiveLengthCull, snapColorSetup,
    getDuplicationLayout, rgbToHSL, rgbToYUV, rgbToHex, colorStringToArray,
    renderColorData, snapColor, fitScale, autoColor) together with the
    properties the design document states about them and further properties
    read off the code.

    Numbers.  A JavaScript number is modelled as a rational or one of the
    three non-finite values, and the sign of zero is not modelled (every zero
    behaves as +0).  Where the answer of the code depends on the rounding of
    binary64 arithmetic the operations are the rounded ones ([Binary64]): the
    products and sums of [rgbToYUV], the conversions of [Number] and the two
    aspect quotients that [getDuplicationLayout] compares.  Sizes, positions
    and scales are kept as exact values. *)

From Stdlib Require Import QArith Qcanon Qround Qpower ZArith Lia Lqa Ascii String.
From stdpp Require Import base numbers list strings pretty gmap.

Local Open Scope Z_scope.

(** ** JavaScript numbers *)
Module JS.

Inductive jsnum : Type :=
  | Fin (q : Qc)
  | PInf
  | NInf
  | NaN.

Definition num (z : Z) : jsnum := Fin (Qc_of_Z z).
Definition dec (n : Z) (d : positive) : jsnum := Fin (Q2Qc (n # d)).

Definition qsign (q : Qc) : comparison := (q ?= 0)%Qc.

(** [!x] on a number: zero and NaN are falsy. *)
Definition truthy (a : jsnum) : bool :=
  match a with
  | Fin q => negb (bool_decide (q = 0%Qc))
  | PInf | NInf => true
  | NaN => false
  end.

Definition isNaN (a : jsnum) : bool :=
  match a with NaN => true | _ => false end.

Global Instance jsnum_eq_dec : EqDecision jsnum.
Proof. solve_decision. Defined.

Definition isFinite (a : jsnum) : bool :=
  match a with Fin _ => true | _ => false end.

Definition jneg (a : jsnum) : jsnum :=
  match a with
  | Fin q => Fin (- q)%Qc
  | PInf => NInf
  | NInf => PInf
  | NaN => NaN
  end.

Definition jadd (a b : jsnum) : jsnum :=
  match a, b with
  | NaN, _ | _, NaN => NaN
  | Fin x, Fin y => Fin (x + y)%Qc
  | PInf, NInf | NInf, PInf => NaN
  | PInf, _ | _, PInf => PInf
  | NInf, _ | _, NInf => NInf
  end.

Definition jsub (a b : jsnum) : jsnum := jadd a (jneg b).

(** An infinity scaled by a finite factor: the sign follows the factor and a
    zero factor gives NaN. *)
Definition inf_times (pos : bool) (q : Qc) : jsnum :=
  match qsign q with
  | Gt => if pos then PInf else NInf
  | Lt => if pos then NInf else PInf
  | Eq => NaN
  end.

Definition jmul (a b : jsnum) : jsnum :=
  match a, b with
  | NaN, _ | _, NaN => NaN
  | Fin x, Fin y => Fin (x * y)%Qc
  | Fin x, PInf | PInf, Fin x => inf_times true x
  | Fin x, NInf | NInf, Fin x => inf_times false x
  | PInf, PInf | NInf, NInf => PInf
  | PInf, NInf | NInf, PInf => NInf
  end.

(** [a / b].  A finite value over zero is an infinity of the sign of the
    dividend, [0 / 0] is NaN, anything finite over an infinity is zero. *)
Definition jdiv (a b : jsnum) : jsnum :=
  match a, b with
  | NaN, _ | _, NaN => NaN
  | Fin x, Fin y =>
      if bool_decide (y = 0%Qc) then
        match qsign x with Gt => PInf | Lt => NInf | Eq => NaN end
      else Fin (x / y)%Qc
  | Fin _, (PInf | NInf) => Fin 0%Qc
  | PInf, Fin y => match qsign y with Lt => NInf | _ => PInf end
  | NInf, Fin y => match qsign y with Lt => PInf | _ => NInf end
  | (PInf | NInf), (PInf | NInf) => NaN
  end.

(** [a < b]; false as soon as one side is NaN. *)
Definition jlt (a b : jsnum) : bool :=
  match a, b with
  | NaN, _ | _, NaN => false
  | Fin x, Fin y => bool_decide (x < y)%Qc
  | NInf, NInf | PInf, _ => false
  | NInf, _ => true
  | Fin _, PInf => true
  | Fin _, NInf => false
  end.

(** [Math.floor]. *)
Definition floor (a : jsnum) : jsnum :=
  match a with
  | Fin q => Fin (Qc_of_Z (Qfloor q))
  | other => other
  end.

(** [Math.min] of two numbers: NaN as soon as one of them is. *)
Definition min (a b : jsnum) : jsnum :=
  match a, b with
  | NaN, _ | _, NaN => NaN
  | _, _ => if jlt b a then b else a
  end.

End JS.

Export JS.

Declare Scope js_scope.
Delimit Scope js_scope with js.
Bind Scope js_scope with jsnum.
Infix "+" := jadd : js_scope.
Infix "-" := jsub : js_scope.
Infix "*" := jmul : js_scope.
Infix "/" := jdiv : js_scope.
Infix "<?" := jlt : js_scope.

(** ** Rounding to binary64

    [nearest q] is the binary64 number nearest to the rational [q], ties
    going to the even significand, before the test for overflow: the unit in
    the last place of [q] is [2 ^ ulpExp q], 52 places below the leading bit
    and never below the subnormal step [2 ^ -1074].  [round64] adds the
    overflow to an infinity. *)
Module Binary64.

Local Open Scope Q_scope.

Definition exp2 (e : Z) : Q := Qpower 2 e.

(** The integer nearest to [q], ties to even. *)
Definition rne (q : Q) : Z :=
  let f := Qfloor q in
  match (q - inject_Z f ?= 1 # 2)%Q with
  | Lt => f
  | Gt => (f + 1)%Z
  | Eq => if Z.even f then f else (f + 1)%Z
  end.

(** The exponent of the leading bit of a positive [q]. *)
Definition ilog2 (q : Q) : Z :=
  let l := (Z.log2 (Qnum q) - Z.log2 (Zpos (Qden q)))%Z in
  if Qle_bool (exp2 l) q then l else (l - 1)%Z.

Definition ulpExp (q : Q) : Z := Z.max (ilog2 q - 52) (-1074).

Definition nearestPos (q : Q) : Q :=
  inject_Z (rne (q / exp2 (ulpExp q))) * exp2 (ulpExp q).

Definition nearest (q : Q) : Q :=
  match (q ?= 0)%Q with
  | Gt => nearestPos q
  | Lt => - nearestPos (- q)
  | Eq => 0
  end.

Definition round64 (q : Qc) : jsnum :=
  let r := nearest q in
  if Qle_bool (exp2 1024) r then PInf
  else if Qle_bool r (- exp2 1024) then NInf
  else Fin (Q2Qc r).

(** The result of an operation, as the code gets it. *)
Definition rounded (a : jsnum) : jsnum :=
  match a with
  | Fin q => round64 q
  | other => other
  end.

Definition radd (a b : jsnum) : jsnum := rounded (jadd a b).
Definition rmul (a b : jsnum) : jsnum := rounded (jmul a b).
Definition rdiv (a b : jsnum) : jsnum := rounded (jdiv a b).

(** A decimal literal of the source text. *)
Definition lit (n : Z) (d : positive) : jsnum := round64 (Q2Qc (n # d)).

(** A finite number between two bounds. *)
Definition within (lo hi : Q) (x : jsnum) : Prop :=
  exists q : Qc, x = Fin q /\ lo <= q <= hi.

(** Both bounds round to binary64 numbers in range. *)
Definition finite64 (lo hi : Q) : bool :=
  negb (Qle_bool (nearest lo) (- exp2 1024))
  && negb (Qle_bool (exp2 1024) (nearest hi)).

End Binary64.

Export Binary64.

Infix "+!" := radd (at level 50, left associativity) : js_scope.
Infix "*!" := rmul (at level 40, left associativity) : js_scope.
Infix "/!" := rdiv (at level 40, left associativity) : js_scope.


(** Two canonical rationals with the same value are equal: closes goals
    between evaluated numbers. *)
Ltac qc_eq := apply Qc_is_canon; vm_compute; reflexivity.
Ltac js_eq := vm_compute; repeat (f_equal; try qc_eq); try reflexivity.

(** ** DuplicationLayout: [getDuplicationLayout] *)
Module Layout.

Local Open Scope js_scope.

Record Bounds : Type := mkBounds { width : jsnum; height : jsnum }.

Definition Position : Type := (jsnum * jsnum)%type.

Record LayoutResult : Type :=
  mkLayout { scale : jsnum; positions : list Position }.

(** Every division the function performs is recorded, dividend first, so
    that "no division happened" is a statement about a run. *)
Definition Division : Type := (jsnum * jsnum)%type.
Definition Run (A : Type) : Type := (A * list Division)%type.

Definition ret {A} (a : A) : Run A := (a, []).
Definition bind {A B} (m : Run A) (k : A -> Run B) : Run B :=
  let '(a, l1) := m in let '(b, l2) := k a in (b, l1 ++ l2).
Definition divide (a b : jsnum) : Run jsnum := (a / b, [(a, b)]).

(** A division whose quotient is compared with another one: the quotient is
    the rounded one. *)
Definition divideRounded (a b : jsnum) : Run jsnum := (a /! b, [(a, b)]).

Notation "'let*' x ':=' m 'in' k" := (bind m (fun x => k))
  (at level 10, x name, m at level 100, k at level 200).
Notation "a '//' b" := (divide a b) (at level 40).
Notation "a '//!' b" := (divideRounded a b) (at level 40).

(** [undefined] in arithmetic position is NaN. *)
Definition toNumber (v : option jsnum) : jsnum :=
  match v with Some n => n | None => NaN end.

Definition getDuplicationLayoutRun
    (count : Z) (traceBounds griddleBounds : Bounds) : Run LayoutResult :=
  let out := mkLayout (num 1) [] in
  if negb (truthy (width traceBounds)) then ret out else
  let* griddleAspect := height griddleBounds //! width griddleBounds in
  let* traceAspect := height traceBounds //! width traceBounds in
  let landscape := traceAspect <? griddleAspect in
  let* qw := width griddleBounds // num 4 in
  let* qh := height griddleBounds // num 4 in
  let* fp_pos :=
    match count with
    | 1%Z => ret (Some (num 80), [(qw * num 2, qh * num 2)])
    | 2%Z =>
        ret (Some (num 50),
             if landscape then
               [ (qw * num 2, qh);
                 (qw * num 2, qh * num 3) ]
             else
               [ (qw, qh * num 2);
                 (qw * num 3, qh * num 2) ])
    | 4%Z =>
        ret (Some (num 35),
             [ (qw, qh);
               (qw * num 3, qh);
               (qw, qh * num 3);
               (qw * num 3, qh * num 3) ])
    | 8%Z =>
        let* ew := qw // num 2 in
        let* eh := qh // num 2 in
        ret (Some (num 25),
             if landscape then
               [ (qw, eh);
                 (qw * num 3, eh);
                 (qw, eh * num 3);
                 (qw * num 3, eh * num 3);
                 (qw, eh * num 5);
                 (qw * num 3, eh * num 5);
                 (qw, eh * num 7);
                 (qw * num 3, eh * num 7) ]
             else
               [ (ew, qh);
                 (ew * num 3, qh);
                 (ew * num 5, qh);
                 (ew * num 7, qh);
                 (ew, qh * num 3);
                 (ew * num 3, qh * num 3);
                 (ew * num 5, qh * num 3);
                 (ew * num 7, qh * num 3) ])
    | _ => ret (None, [])
    end in
  let* fillPercent := toNumber (fst fp_pos) // num 100 in
  let* sx := (width griddleBounds * fillPercent) // width traceBounds in
  let* sy := (height griddleBounds * fillPercent) // height traceBounds in
  ret (mkLayout (if sx <? sy then sx else sy) (snd fp_pos)).

Definition getDuplicationLayout
    (count : Z) (traceBounds griddleBounds : Bounds) : LayoutResult :=
  fst (getDuplicationLayoutRun count traceBounds griddleBounds).

(** The divisions performed by a call. *)
Definition divisions (count : Z) (traceBounds griddleBounds : Bounds)
  : list Division :=
  snd (getDuplicationLayoutRun count traceBounds griddleBounds).

(** The orientation test of the function, on its own. *)
Definition landscape (traceBounds griddleBounds : Bounds) : bool :=
  (height traceBounds /! width traceBounds)
    <? (height griddleBounds /! width griddleBounds).

(** The fill fraction the design document gives per count. *)
Definition specFillPercent (count : Z) : jsnum :=
  match count with
  | 1%Z => dec 8 10
  | 2%Z => dec 5 10
  | 4%Z => dec 35 100
  | 8%Z => dec 25 100
  | _ => NaN
  end.

(** The scale as the design document words it. *)
Definition specScale (count : Z) (traceBounds areaBounds : Bounds) : jsnum :=
  JS.min (width areaBounds * specFillPercent count / width traceBounds)
         (height areaBounds * specFillPercent count / height traceBounds).

Definition rect (w h : Z) : Bounds := mkBounds (num w) (num h).

(** Two copies next to each other: one ordinate, two abscissas. *)
Definition sideBySide (ps : list Position) : Prop :=
  exists x1 x2 y, ps = [(x1, y); (x2, y)] /\ x1 <> x2.

(** Two copies one above the other: one abscissa, two ordinates. *)
Definition stacked (ps : list Position) : Prop :=
  exists x y1 y2, ps = [(x, y1); (x, y2)] /\ y1 <> y2.

Definition finiteBounds (b : Bounds) : Prop :=
  isFinite (width b) = true /\ isFinite (height b) = true.

End Layout.


(** ** JavaScript strings

    Strings are sequences of one-byte characters (the ASCII range); the
    operations follow [String.prototype.indexOf], [slice] and [split]. *)
Module Str.

Definition chars (s : string) : list ascii := list_ascii_of_string s.
Definition ofChars (l : list ascii) : string := string_of_list_ascii l.

(** A relative index of [slice]: negative counts from the end, then clamped. *)
Definition clampIndex (len i : Z) : Z :=
  if (i <? 0)%Z then Z.max (len + i) 0 else Z.min i len.

Definition sliceList {A} (l : list A) (b e : Z) : list A :=
  let len := Z.of_nat (length l) in
  let from := clampIndex len b in
  let to := clampIndex len e in
  take (Z.to_nat (to - from)) (drop (Z.to_nat from) l).

Definition slice (s : string) (b e : Z) : string :=
  ofChars (sliceList (chars s) b e).

Fixpoint startsWith (p s : list ascii) : bool :=
  match p, s with
  | [], _ => true
  | _ :: _, [] => false
  | a :: p', b :: s' => bool_decide (a = b) && startsWith p' s'
  end.

Fixpoint includesList (needle s : list ascii) : bool :=
  startsWith needle s ||
  match s with
  | [] => false
  | _ :: s' => includesList needle s'
  end.

(** [s.indexOf(needle) !== -1] *)
Definition includes (s needle : string) : bool :=
  includesList (chars needle) (chars s).

Fixpoint splitList (sep : ascii) (s : list ascii) : list (list ascii) :=
  match s with
  | [] => [[]]
  | c :: s' =>
      if bool_decide (c = sep) then [] :: splitList sep s'
      else match splitList sep s' with
           | h :: t => (c :: h) :: t
           | [] => [[c]]
           end
  end.

(** [s.split(sep)] for a one-character separator. *)
Definition split (s : string) (sep : ascii) : list string :=
  map ofChars (splitList sep (chars s)).

Definition digitVal (c : ascii) : option Z :=
  let n := Z.of_nat (nat_of_ascii c) in
  if (48 <=? n)%Z && (n <=? 57)%Z then Some (n - 48)%Z else None.

(** A hexadecimal digit, either case: the class [[a-f\d]] under the [i] flag. *)
Definition hexVal (c : ascii) : option Z :=
  let n := Z.of_nat (nat_of_ascii c) in
  if (48 <=? n)%Z && (n <=? 57)%Z then Some (n - 48)%Z
  else if (97 <=? n)%Z && (n <=? 102)%Z then Some (n - 87)%Z
  else if (65 <=? n)%Z && (n <=? 70)%Z then Some (n - 55)%Z
  else None.

Definition isHex (c : ascii) : bool :=
  match hexVal c with Some _ => true | None => false end.

Definition isWhite (c : ascii) : bool :=
  let n := nat_of_ascii c in
  bool_decide (n = 9 \/ n = 10 \/ n = 11 \/ n = 12 \/ n = 13 \/ n = 32)%nat.

Fixpoint trimStart (s : list ascii) : list ascii :=
  match s with
  | c :: s' => if isWhite c then trimStart s' else s
  | [] => []
  end.

Definition trim (s : list ascii) : list ascii :=
  reverse (trimStart (reverse (trimStart s))).

Fixpoint spanDigits (s : list ascii) : list Z * list ascii :=
  match s with
  | c :: s' =>
      match digitVal c with
      | Some d => let '(ds, r) := spanDigits s' in (d :: ds, r)
      | None => ([], s)
      end
  | [] => ([], [])
  end.

Definition digitsValue (base : Z) (ds : list Z) : Z :=
  foldl (fun acc d => base * acc + d)%Z 0%Z ds.

Definition pow10 (e : Z) : Qc :=
  if (0 <=? e)%Z then Qc_of_Z (10 ^ e) else (/ Qc_of_Z (10 ^ (- e)))%Qc.

(** The rest of a decimal literal after its mantissa: nothing, or an
    exponent part that reaches the end of the text. *)
Definition parseExponent (s : list ascii) : option Z :=
  match s with
  | [] => Some 0%Z
  | e :: r =>
      if bool_decide (e = "e"%char \/ e = "E"%char) then
        let '(sgn, r') :=
          match r with
          | "+"%char :: r' => (1%Z, r')
          | "-"%char :: r' => ((-1)%Z, r')
          | _ => (1%Z, r)
          end in
        match spanDigits r' with
        | (d :: ds, []) => Some (sgn * digitsValue 10 (d :: ds))%Z
        | _ => None
        end
      else None
  end.

Definition parseUnsignedDecimal (s : list ascii) : option jsnum :=
  if bool_decide (s = chars "Infinity") then Some PInf else
  let '(ip, r1) := spanDigits s in
  let '(fp, r2) :=
    match r1 with
    | "."%char :: r => spanDigits r
    | _ => ([], r1)
    end in
  match ip ++ fp with
  | [] => None
  | ds =>
      match parseExponent r2 with
      | Some e =>
          Some (round64 (Qc_of_Z (digitsValue 10 ds)
                         * pow10 (e - Z.of_nat (length fp)))%Qc)
      | None => None
      end
  end.

Definition parseDecimal (s : list ascii) : option jsnum :=
  match s with
  | "+"%char :: r => parseUnsignedDecimal r
  | "-"%char :: r => jneg <$> parseUnsignedDecimal r
  | _ => parseUnsignedDecimal s
  end.

Definition radixVal (base : Z) (c : ascii) : option Z :=
  match hexVal c with
  | Some d => if (d <? base)%Z then Some d else None
  | None => None
  end.

(** [0x], [0o] and [0b] integer literals. *)
Definition parseNonDecimal (s : list ascii) : option jsnum :=
  match s with
  | "0"%char :: p :: d :: ds =>
      let base :=
        if bool_decide (p = "x"%char \/ p = "X"%char) then Some 16%Z
        else if bool_decide (p = "o"%char \/ p = "O"%char) then Some 8%Z
        else if bool_decide (p = "b"%char \/ p = "B"%char) then Some 2%Z
        else None in
      match base with
      | Some b =>
          match mapM (radixVal b) (d :: ds) with
          | Some vs => Some (round64 (Qc_of_Z (digitsValue b vs)))
          | None => None
          end
      | None => None
      end
  | _ => None
  end.

(** [Number(s)] on a string: the binary64 number nearest to the value
    written, an infinity when that is out of range. *)
Definition Number (s : string) : jsnum :=
  match trim (chars s) with
  | [] => num 0
  | t =>
      match parseNonDecimal t with
      | Some v => v
      | None =>
          match parseDecimal t with
          | Some v => v
          | None => NaN
          end
      end
  end.

(** The decimal numeral whose digits are [ds]. *)
Definition digitChar (d : Z) : ascii := ascii_of_nat (Z.to_nat (48 + d)).
Definition digitsText (ds : list Z) : string := ofChars (map digitChar ds).
Definition isDigits (ds : list Z) : Prop :=
  ds <> [] /\ Forall (fun d => 0 <= d <= 9)%Z ds.

(** [parseInt(s, 16)] on a text made of hexadecimal digits only, which is
    all the callers pass. *)
Definition parseInt16 (s : list ascii) : jsnum :=
  match mapM hexVal s with
  | Some (d :: ds) => num (digitsValue 16 (d :: ds))
  | _ => NaN
  end.

End Str.


(** ** ColorSpace: [colorStringToArray], [rgbToYUV] *)
Module ColorSpace.

Import Str.
Local Open Scope js_scope.

(** The values a caller may hand to [colorStringToArray]. *)
Inductive jsval : Type :=
  | VString (s : string)
  | VNumber (n : jsnum)
  | VArray (a : list jsnum)
  | VBool (b : bool)
  | VNull
  | VUndefined.

(** An RGB array as the code handles it: [None] is [null]. *)
Definition RGBValue : Type := option (list jsnum).

(** [^#?] followed by exactly the characters [body]. *)
Definition stripHash (s : list ascii) : list ascii :=
  match s with
  | "#"%char :: r => r
  | _ => s
  end.

(** [/^#?([a-f\d])([a-f\d])([a-f\d])$/i] *)
Definition matchShorthand (s : list ascii) : option (ascii * ascii * ascii) :=
  match stripHash s with
  | [r; g; b] => if isHex r && isHex g && isHex b then Some (r, g, b) else None
  | _ => None
  end.

(** [string.replace(shorthandRegex, ...)]: the whole match, the [#]
    included, is replaced by the doubled digits. *)
Definition expandShorthand (s : list ascii) : list ascii :=
  match matchShorthand s with
  | Some (r, g, b) => [r; r; g; g; b; b]
  | None => s
  end.

(** [/^#?([a-f\d]{2})([a-f\d]{2})([a-f\d]{2})$/i.exec] *)
Definition matchHex6 (s : list ascii)
  : option (list ascii * list ascii * list ascii) :=
  match stripHash s with
  | [r1; r2; g1; g2; b1; b2] =>
      if forallb isHex [r1; r2; g1; g2; b1; b2]
      then Some ([r1; r2], [g1; g2], [b1; b2])
      else None
  | _ => None
  end.

(** The text [rgb(r,g,b)] with decimal numerals. *)
Definition rgbText (r g b : list Z) : string :=
  "rgb(" +:+ digitsText r +:+ "," +:+ digitsText g +:+ ","
         +:+ digitsText b +:+ ")".

(** The value of two hexadecimal digits. *)
Definition hexByte (hi lo : ascii) : option Z :=
  match hexVal hi, hexVal lo with
  | Some h, Some l => Some (16 * h + l)%Z
  | _, _ => None
  end.

Definition colorStringToArray (v : jsval) : RGBValue :=
  match v with
  | VString string =>
      if includes string "rgb" then
        let color := split (slice string 4 (-1)) ","%char in
        Some (map Number color)
      else if includes string "#" then
        match matchHex6 (expandShorthand (chars string)) with
        | Some (r, g, b) => Some [parseInt16 r; parseInt16 g; parseInt16 b]
        | None => None
        end
      else None
  | _ => None
  end.

(** [a[i]] read as a number: a missing element is [undefined], NaN in
    arithmetic and under [isNaN]. *)
Definition at_ (a : list jsnum) (i : nat) : jsnum := nth i a NaN.

(** A YUV result: [None] is the [false] returned for a missing color. *)
Definition YUVValue : Type := option (jsnum * jsnum * jsnum).

Definition rgbToYUV (color : RGBValue) : YUVValue :=
  match color with
  | None => None
  | Some color =>
      let r := at_ color 0 in
      let g := at_ color 1 in
      let b := at_ color 2 in
      let y := r *! lit 299000 1000000 +! g *! lit 587000 1000000
               +! b *! lit 114000 1000000 in
      let u := r *! lit (-168736) 1000000 +! g *! lit (-331264) 1000000
               +! b *! lit 500000 1000000 +! num 128 in
      let v := r *! lit 500000 1000000 +! g *! lit (-418688) 1000000
               +! b *! lit (-81312) 1000000 +! num 128 in
      Some (floor y, floor u, floor v)
  end.

End ColorSpace.

(** ** PaletteMatcher: [snapColorSetup], [renderColorData], [snapColor] *)
Module Palette.

Import Str ColorSpace.
Local Open Scope js_scope.

(** One entry of [snapColors]; the nested [color] object is flattened and
    its HSL member, which no matching code reads, is left out. *)
Record ColorData : Type := mkColorData {
  key : string;
  HEX : string;
  RGB : RGBValue;
  YUV : YUVValue
}.

Definition renderColorData (colorHEX : string) (name : string) : ColorData :=
  let colorRGB := colorStringToArray (VString colorHEX) in
  {| key := name;
     HEX := colorHEX;
     RGB := colorRGB;
     YUV := rgbToYUV colorRGB |}.

(** [snapColorSetup]: the new value of [snapColors]. *)
Definition snapColorSetup (colors : list string) : list ColorData :=
  imap (fun index color =>
          renderColorData color ("color" +:+ pretty index)) colors.

(** The source argument of [snapColor]. *)
Inductive Source : Type :=
  | SString (s : string)
  | SArray (a : list jsnum)
  | SNull.

(** [Math.sqrt x], kept by its radicand.  Radicands here are sums of squares,
    on which the square root is strictly increasing, so two roots compare as
    their radicands do. *)
Inductive Root : Type := Sqrt (radicand : jsnum).

Definition radicand (r : Root) : jsnum := let '(Sqrt x) := r in x.
Definition root_lt (a b : Root) : bool := radicand a <? radicand b.

(** The literal [1000]. *)
Definition thousand : Root := Sqrt (num 1000000).

(** The literal [0] as a distance. *)
Definition zeroRoot : Root := Sqrt (num 0).

(** [c[i]] where [c] is a YUV value; [false[i]] is [undefined]. *)
Definition comp (c : YUVValue) (i : nat) : jsnum :=
  match c, i with
  | Some (y, _, _), 0%nat => y
  | Some (_, u, _), 1%nat => u
  | Some (_, _, v), 2%nat => v
  | _, _ => NaN
  end.

Definition pow2 (x : jsnum) : jsnum := x * x.

(** The colour distance of the loop body. *)
Definition distance (c source : YUVValue) : Root :=
  Sqrt (pow2 (comp c 0 - comp source 0)
        + pow2 (comp c 1 - comp source 1)
        + pow2 (comp c 2 - comp source 2)).

(** The [for] loop from index [i] on, over the entries not yet visited. *)
Fixpoint snapLoop (colors : list ColorData) (source : YUVValue) (i : nat)
    (lowestIndex : nat) (lowestValue : Root) : nat * Root :=
  match colors with
  | [] => (lowestIndex, lowestValue)
  | entry :: rest =>
      let c := YUV entry in
      let distance := distance c source in
      if root_lt distance lowestValue
      then snapLoop rest source (S i) i distance
      else snapLoop rest source (S i) lowestIndex lowestValue
  end.

(** The source as an RGB array, white standing in for [null] and for an
    array whose first element is not a number. *)
Definition sourceRGB (source : Source) : RGBValue :=
  let source :=
    match source with
    | SString s => colorStringToArray (VString s)
    | SArray a => Some a
    | SNull => None
    end in
  match source with
  | None => colorStringToArray (VString "#FFFFFF")
  | Some a =>
      if isNaN (at_ a 0) then colorStringToArray (VString "#FFFFFF")
      else Some a
  end.

(** [colors.slice(0, limit)] when a limit is given and truthy. *)
Definition limited {A} (colors : list A) (limit : option Z) : list A :=
  match limit with
  | Some l => if (l =? 0)%Z then colors else sliceList colors 0 l
  | None => colors
  end.

(** The index found together with the final [lowestValue]. *)
Definition snapColorRun (snapColors : list ColorData) (source : Source)
    (limit : option Z) : nat * Root :=
  let colors := limited snapColors limit in
  let source := rgbToYUV (sourceRGB source) in
  snapLoop colors source 0 0 thousand.

Definition snapColor (snapColors : list ColorData) (source : Source)
    (limit : option Z) : nat :=
  fst (snapColorRun snapColors source limit).

(** A text made of [#] and three or six hexadecimal digits. *)
Definition isHexColor (s : string) : bool :=
  match chars s with
  | "#"%char :: body =>
      (bool_decide (length body = 3%nat) || bool_decide (length body = 6%nat))
      && forallb isHex body
  | _ => false
  end.

(** The shades the editor sets the palette from. *)
Definition pancakeShades : list string :=
  ["#ffea7e"; "#e2bc15"; "#a6720e"; "#714a00"].

(** An RGB array whose first three elements are finite numbers. *)
Definition finiteRGB (rgb : RGBValue) : Prop :=
  exists (r g b : Qc) (rest : list jsnum),
    rgb = Some (Fin r :: Fin g :: Fin b :: rest).

(** An RGB array with its three channels in [[0, 255]]. *)
Definition inGamut (rgb : RGBValue) : Prop :=
  exists (r g b : Qc) (rest : list jsnum),
    rgb = Some (Fin r :: Fin g :: Fin b :: rest)
    /\ (0 <= r <= Qc_of_Z 255)%Qc /\ (0 <= g <= Qc_of_Z 255)%Qc
    /\ (0 <= b <= Qc_of_Z 255)%Qc.

(** The square of a difference of integers. *)
Definition sq (a b : Z) : Z := (a - b) * (a - b).

(** The integer a whole number stands for. *)
Definition toZ (a : jsnum) : Z :=
  match a with
  | Fin q => Qfloor q
  | _ => 0%Z
  end.

(** The squared distance of two YUV values with whole components. *)
Definition dist2 (source c : YUVValue) : Z :=
  (sq (toZ (comp c 0)) (toZ (comp source 0))
   + sq (toZ (comp c 1)) (toZ (comp source 1))
   + sq (toZ (comp c 2)) (toZ (comp source 2)))%Z.

(** A YUV value whose three components are whole numbers. *)
Definition integral (c : YUVValue) : Prop :=
  exists y u v : Z, c = Some (num y, num u, num v).

(** The distance of a palette entry to a source, as the loop computes it. *)
Definition entryDistance (source : Source) (entry : ColorData) : Root :=
  distance (YUV entry) (rgbToYUV (sourceRGB source)).

End Palette.


(** ** The scene graph and the helpers that work on it

    paper.js and ClipperLib are outside the helper module; what the helpers
    use of them is gathered in three interfaces. *)
Module Paper.

Import Str ColorSpace Palette.
Local Open Scope js_scope.

Definition ItemId : Type := positive.
Definition LayerId : Type := positive.

Definition Point : Type := (jsnum * jsnum)%type.

(** One Clipper path: the [{X, Y}] points of a polygon. *)
Definition Polygon : Type := list Point.

(** What the helpers use of paper.js colours and path geometry.
    [flatten c closed resolution] is [Path#flatten] followed by the read of
    the anchor points of the segments; [None] stands for a thrown error.
    [parsePathData d] is the list of children of [new CompoundPath(d)]. *)
Class PaperLib : Type := {
  Color : Type;
  toCSS : Color -> string;
  colorOfString : string -> Color;
  Curve : Type;
  segmentCount : Curve -> nat;
  flatten : Curve -> bool -> jsnum -> option Polygon;
  parsePathData : string -> list (Curve * bool);
}.

(** What [offsetPath] uses of ClipperLib.  [OffsetExecute] is a
    [ClipperOffset] built with the given miter limit and arc tolerance, fed
    with [AddPaths(paths, jtRound, etClosedPolygon)] and run with [Execute]. *)
Class ClipperLib : Type := {
  ScaleUpPaths : list Polygon -> jsnum -> list Polygon;
  Clean : list Polygon -> jsnum -> list Polygon;
  OffsetExecute : jsnum -> jsnum -> list Polygon -> jsnum -> list Polygon;
}.

(** The conversion of a number to text done by string concatenation. *)
Class Runtime : Type := {
  numberToString : jsnum -> string;
}.

Section Helpers.

Context `{PaperLib} `{ClipperLib} `{Runtime}.

(** A path with its [closed] flag, or a compound path with its children. *)
Inductive Geometry : Type :=
  | Path (segments : Curve) (closed : bool)
  | CompoundPath (children : list (Curve * bool)).

(** The [data] bag of an item, with the members the helpers touch. *)
Record Data : Type := mkData {
  name : option string;
  color : option nat;
  fill : option bool
}.

Record Item : Type := mkItem {
  data : Data;
  strokeColor : option Color;
  strokeWidth : jsnum;
  fillColor : option Color;
  geometry : Geometry
}.

(** The objects alive, the ordered children of every layer, the active
    layer new items are inserted into, the next fresh object, and the names
    written by [console.error]. *)
Record Scene : Type := mkScene {
  heap : gmap ItemId Item;
  layers : gmap LayerId (list ItemId);
  activeLayer : LayerId;
  nextId : ItemId;
  console : list (option string)
}.

Definition setHeap (h : gmap ItemId Item) (s : Scene) : Scene :=
  mkScene h (layers s) (activeLayer s) (nextId s) (console s).
Definition setLayers (l : gmap LayerId (list ItemId)) (s : Scene) : Scene :=
  mkScene (heap s) l (activeLayer s) (nextId s) (console s).
Definition setItem (i : ItemId) (it : Item) (s : Scene) : Scene :=
  setHeap (<[i := it]> (heap s)) s.
Definition logError (n : option string) (s : Scene) : Scene :=
  mkScene (heap s) (layers s) (activeLayer s) (nextId s) (console s ++ [n]).

Definition childrenOf (layer : LayerId) (s : Scene) : list ItemId :=
  default [] (layers s !! layer).

(** A new object. *)
Definition alloc (it : Item) (s : Scene) : ItemId * Scene :=
  (nextId s,
   mkScene (<[nextId s := it]> (heap s)) (layers s) (activeLayer s)
           (Pos.succ (nextId s)) (console s)).

(** [item.remove()]: the item leaves its parent and stays alive. *)
Definition removeItem (i : ItemId) (s : Scene) : Scene :=
  setLayers (filter (fun x => x <> i) <$> layers s) s.

Fixpoint insertAfter (i new : ItemId) (l : list ItemId) : list ItemId :=
  match l with
  | [] => []
  | x :: r => if decide (x = i) then x :: new :: r
              else x :: insertAfter i new r
  end.

Fixpoint insertBefore (i new : ItemId) (l : list ItemId) : list ItemId :=
  match l with
  | [] => []
  | x :: r => if decide (x = i) then new :: x :: r
              else x :: insertBefore i new r
  end.

Definition hasParent (i : ItemId) (s : Scene) : bool :=
  bool_decide (map_Exists (fun _ l => i ∈ l) (layers s)).

(** [new.insertAbove(i)] *)
Definition insertAbove (i new : ItemId) (s : Scene) : Scene :=
  if hasParent i s then
    let s := removeItem new s in
    setLayers (insertAfter i new <$> layers s) s
  else s.

(** [new.insertBelow(i)] *)
Definition insertBelow (i new : ItemId) (s : Scene) : Scene :=
  if hasParent i s then
    let s := removeItem new s in
    setLayers (insertBefore i new <$> layers s) s
  else s.

(** [i.replaceWith(new)] *)
Definition replaceWith (i new : ItemId) (s : Scene) : Scene :=
  if hasParent i s then removeItem i (insertBelow i new s) else s.

Definition appendChild (layer : LayerId) (i : ItemId) (s : Scene) : Scene :=
  setLayers (<[layer := childrenOf layer s ++ [i]]> (layers s)) s.

(** The result of [offsetPath]: an item or [false]. *)
Inductive Value : Type :=
  | VFalse
  | VItem (i : ItemId).

(** [layer.addChild(v)]: paper.js ignores a falsy argument
    ([insertChild] inserts only when [item] is truthy); an item is taken
    out of its current parent and appended. *)
Definition addChild (layer : LayerId) (v : Value) (s : Scene) : Scene :=
  match v with
  | VFalse => s
  | VItem i => appendChild layer i (removeItem i s)
  end.

(** [layer.addChildren(items)] *)
Definition addChildren (layer : LayerId) (items : list ItemId) (s : Scene)
  : Scene :=
  foldl (fun s i => appendChild layer i (removeItem i s)) s items.

(** [item.clone()]: a copy with its own [data], inserted above the original. *)
Definition clone (i : ItemId) (s : Scene) : option (ItemId * Scene) :=
  it ← heap s !! i;
  let '(c, s) := alloc it s in
  Some (c, insertAbove i c s).

(** [item.clone({insert: false})] *)
Definition cloneDetached (i : ItemId) (s : Scene) : option (ItemId * Scene) :=
  it ← heap s !! i;
  Some (alloc it s).

Definition emptyData : Data := mkData None None None.

(** [new paper.CompoundPath(pathString)]: a new item in the active layer. *)
Definition newCompoundPath (pathString : string) (s : Scene)
  : ItemId * Scene :=
  let '(c, s) :=
    alloc (mkItem emptyData None (num 1) None
                  (CompoundPath (parsePathData pathString))) s in
  (c, appendChild (activeLayer s) c s).

(** The [try] block of [offsetPath]: the polygons of the flattened copy, or
    [None] when something in it throws. *)
Definition flattenToPaths (g : Geometry) (flattenResolution : jsnum)
  : option (list Polygon) :=
  match g with
  | CompoundPath children =>
      mapM (fun c : Curve * bool =>
              let closed :=
                if (segmentCount (fst c) <=? 1)%nat && snd c then false
                else snd c in
              flatten (fst c) closed flattenResolution) children
  | Path segments closed =>
      p ← flatten segments closed flattenResolution;
      Some [p]
  end.

Fixpoint pointsToString (first : bool) (path : Polygon) (scale : jsnum)
    (svgpath : string) : string :=
  match path with
  | [] => svgpath
  | (X, Y) :: rest =>
      let svgpath := svgpath +:+ (if first then "M" else "L") in
      let svgpath :=
        svgpath +:+ numberToString (X / scale) +:+ ", "
                +:+ numberToString (Y / scale) in
      pointsToString false rest scale svgpath
  end.

Fixpoint pathsToString (paths : list Polygon) (scale : jsnum)
    (svgpath : string) : string :=
  match paths with
  | [] => svgpath
  | path :: rest =>
      pathsToString rest scale (pointsToString true path scale svgpath +:+ "Z")
  end.

Definition paths2string (paths : list Polygon) (scale : jsnum) : string :=
  let scale := if truthy scale then scale else num 1 in
  pathsToString paths scale "".

Definition miterLimit : jsnum := num 2.
Definition arcTolerance : jsnum := dec 25 100.

Definition offsetPath (inPath : ItemId) (amount flattenResolution : jsnum)
    (doReplace : bool) (s : Scene) : option (Value * Scene) :=
  let scale := num 100 in
  let amount := if truthy amount then amount else num 0 in
  inItem ← heap s !! inPath;
  '(p, s) ← clone inPath s;
  pItem ← heap s !! p;
  match flattenToPaths (geometry pItem) flattenResolution with
  | None =>
      let s := logError (name (data inItem)) s in
      let s := removeItem p s in
      Some (VItem inPath, s)
  | Some paths =>
      let s := removeItem p s in
      let paths := ScaleUpPaths paths scale in
      let cleanDelta := dec 1 10 in
      let paths := Clean paths (cleanDelta * scale) in
      let offsettedPaths :=
        OffsetExecute miterLimit arcTolerance paths (amount * scale) in
      let pathString := paths2string offsettedPaths scale in
      if bool_decide (pathString <> ""%string) then
        let '(inset, s) := newCompoundPath pathString s in
        let s :=
          setItem inset
            (mkItem (data inItem) (strokeColor inItem) (strokeWidth inItem)
                    (fillColor inItem)
                    (CompoundPath (parsePathData pathString))) s in
        let s :=
          if doReplace then replaceWith inPath inset s
          else removeItem inPath s in
        Some (VItem inset, s)
      else
        Some (VFalse, removeItem inPath s)
  end.

(** The body of the loop of [destroyThinFeatures] for one child. *)
Definition destroyThinItem (layer : LayerId) (amount : jsnum) (clone_ : bool)
    (s : Scene) (item : ItemId) : option Scene :=
  let resolution := num 2 in
  '(mask, s) ← (if clone_ then clone item s else Some (item, s));
  '(mask, s) ← offsetPath mask (jneg amount) resolution false s;
  match mask with
  | VItem m =>
      '(mask, s) ← offsetPath m amount resolution false s;
      Some (addChild layer mask s)
  | VFalse => Some s
  end.

Fixpoint eachM {A S : Type} (f : S -> A -> option S) (s : S) (l : list A)
  : option S :=
  match l with
  | [] => Some s
  | x :: r => s' ← f s x; eachM f s' r
  end.

Definition destroyThinFeatures (layer : LayerId) (amount : jsnum)
    (clone_ : bool) (s : Scene) : option Scene :=
  let items := childrenOf layer s in
  eachM (destroyThinItem layer amount clone_) s items.

Definition setColorIndex (n : nat) (d : Data) : Data :=
  mkData (name d) (Some n) (fill d).
Definition setFill (b : bool) (d : Data) : Data :=
  mkData (name d) (color d) (Some b).

(** [snapColor] on a paper colour followed by the read of the palette
    entry; reading a member of a missing entry throws. *)
Definition snapEntry (snapColors : list ColorData) (c : Color)
    (limit : option Z) : option (nat * ColorData) :=
  let colorIndex := snapColor snapColors (SString (toCSS c)) limit in
  entry ← snapColors !! colorIndex;
  Some (colorIndex, entry).

(** The body of the loop of [autoColor] for one child; the state carries
    the [outlines] array. *)
Definition autoColorItem (snapColors : list ColorData) (limit : option Z)
    (outline : bool) (st : Scene * list ItemId) (item : ItemId)
  : option (Scene * list ItemId) :=
  let '(s, outlines) := st in
  it ← heap s !! item;
  it ← match strokeColor it with
       | Some c =>
           '(colorIndex, entry) ← snapEntry snapColors c limit;
           Some (mkItem (setColorIndex colorIndex (data it))
                        (Some (colorOfString (HEX entry)))
                        (strokeWidth it) (fillColor it) (geometry it))
       | None => Some it
       end;
  match fillColor it with
  | Some c =>
      '(colorIndex, entry) ← snapEntry snapColors c limit;
      let it :=
        mkItem (setFill true (setColorIndex colorIndex (data it)))
               (strokeColor it) (strokeWidth it)
               (Some (colorOfString (HEX entry))) (geometry it) in
      let s := setItem item it s in
      if outline then
        '(outlineItem, s) ← cloneDetached item s;
        darker ← snapColors !! (colorIndex + 1)%nat;
        let o :=
          mkItem (setColorIndex (colorIndex + 1) (setFill false (data it)))
                 (Some (colorOfString (HEX darker)))
                 (num 5) None (geometry it) in
        Some (setItem outlineItem o s, outlines ++ [outlineItem])
      else Some (s, outlines)
  | None => Some (setItem item it s, outlines)
  end.

Definition autoColor (snapColors : list ColorData) (layer : LayerId)
    (limit : option Z) (outline : bool) (s : Scene) : option Scene :=
  let limit :=
    if outline then Some (Z.of_nat (length snapColors) - 1)%Z else limit in
  '(s, outlines) ←
    eachM (autoColorItem snapColors limit outline) (s, []) (childrenOf layer s);
  Some (match outlines with
        | [] => s
        | _ :: _ => addChildren layer outlines s
        end).

(** The limit [autoColor] works with. *)
Definition effectiveLimit (snapColors : list ColorData) (limit : option Z)
    (outline : bool) : option Z :=
  if outline then Some (Z.of_nat (length snapColors) - 1)%Z else limit.

(** The stroke part of the loop body of [autoColor], on its own. *)
Definition strokeSnapped (snapColors : list ColorData) (limit : option Z)
    (it : Item) : option Item :=
  match strokeColor it with
  | Some c =>
      '(colorIndex, entry) ← snapEntry snapColors c limit;
      Some (mkItem (setColorIndex colorIndex (data it))
                   (Some (colorOfString (HEX entry)))
                   (strokeWidth it) (fillColor it) (geometry it))
  | None => Some it
  end.

(** The fill part, with the index found when there is a fill. *)
Definition fillSnapped (snapColors : list ColorData) (limit : option Z)
    (it : Item) : option (Item * option nat) :=
  match fillColor it with
  | Some c =>
      '(colorIndex, entry) ← snapEntry snapColors c limit;
      Some (mkItem (setFill true (setColorIndex colorIndex (data it)))
                   (strokeColor it) (strokeWidth it)
                   (Some (colorOfString (HEX entry))) (geometry it),
            Some colorIndex)
  | None => Some (it, None)
  end.

(** The outline made from a recoloured item whose fill index is
    [colorIndex]. *)
Definition outlineItemOf (snapColors : list ColorData) (it : Item)
    (colorIndex : nat) : option Item :=
  darker ← snapColors !! (colorIndex + 1)%nat;
  Some (mkItem (setColorIndex (colorIndex + 1) (setFill false (data it)))
               (Some (colorOfString (HEX darker)))
               (num 5) None (geometry it)).

(** A limit under which an outline shade exists above every match. *)
Definition leavesDarker (pal : list ColorData) (limit : option Z) : Prop :=
  exists l, limit = Some l /\ (1 <= l <= Z.of_nat (length pal) - 1)%Z.

(** What [autoColor] promises of the outline [o] made in [s'] for the
    item [i] of [s]: a new object, stroked with the shade that follows the
    fill match, five wide, without fill. *)
Definition strokeOnlyCopy (snapColors : list ColorData) (s s' : Scene)
    (i o : ItemId) : Prop :=
  exists it fc darker ot,
    let fillIndex :=
      snapColor snapColors (SString (toCSS fc))
                (Some (Z.of_nat (length snapColors) - 1)%Z) in
    heap s !! i = Some it /\ fillColor it = Some fc
    /\ heap s !! o = None
    /\ snapColors !! (fillIndex + 1)%nat = Some darker
    /\ heap s' !! o = Some ot
    /\ strokeColor ot = Some (colorOfString (HEX darker))
    /\ strokeWidth ot = num 5
    /\ fillColor ot = None
    /\ geometry ot = geometry it
    /\ fill (data ot) = Some false
    /\ color (data ot) = Some (fillIndex + 1)%nat.

(** The item [i] of [s] has a fill colour. *)
Definition filled (s : Scene) (i : ItemId) : Prop :=
  exists it, heap s !! i = Some it /\ is_Some (fillColor it).

#[global] Instance filled_dec (s : Scene) (i : ItemId) : Decision (filled s i).
Proof.
  unfold filled. destruct (heap s !! i) as [it|] eqn:Hi.
  - destruct (fillColor it) as [c|] eqn:Hc.
    + left. exists it. rewrite Hc. eauto.
    + right. intros (it' & Heq & Hs). injection Heq as <-. rewrite Hc in Hs.
      now destruct Hs.
  - right. intros (it' & Heq & _). discriminate Heq.
Defined.

(** In [s'], the new object [o] is the outline made for the item [i] of
    [s]. *)
Definition outlineOf (snapColors : list ColorData) (limit : option Z)
    (s s' : Scene) (i o : ItemId) : Prop :=
  exists it it1 it2 ci ot,
    heap s !! i = Some it
    /\ strokeSnapped snapColors limit it = Some it1
    /\ fillSnapped snapColors limit it1 = Some (it2, Some ci)
    /\ outlineItemOf snapColors it2 ci = Some ot
    /\ heap s !! o = None
    /\ heap s' !! o = Some ot.

(** Every child of a layer and every live object was allocated before
    [nextId], and no layer lists a child twice. *)
Definition wf (s : Scene) : Prop :=
  (forall l ids i, layers s !! l = Some ids -> i ∈ ids ->
                   (i < nextId s)%positive)
  /\ (forall i, is_Some (heap s !! i) -> (i < nextId s)%positive).

(** No layer lists [p]. *)
Definition detached (p : ItemId) (s : Scene) : Prop :=
  forall l ids, layers s !! l = Some ids -> p ∉ ids.

(** The path description [offsetPath] gets back from ClipperLib. *)
Definition offsetString (paths : list Polygon) (amount : jsnum) : string :=
  paths2string
    (OffsetExecute miterLimit arcTolerance
       (Clean (ScaleUpPaths paths (num 100)) (jmul (dec 1 10) (num 100)))
       (jmul (if truthy amount then amount else num 0) (num 100)))
    (num 100).

(** The scene once the temporary copy of [i] is made. *)
Definition withCopy (i : ItemId) (it : Item) (s : Scene) : Scene :=
  insertAbove i (nextId s) (snd (alloc it s)).

(** The item built from the offset polygons, styled as the input. *)
Definition insetItem (it : Item) (pathString : string) : Item :=
  mkItem (data it) (strokeColor it) (strokeWidth it) (fillColor it)
         (CompoundPath (parsePathData pathString)).

End Helpers.

End Paper.

(** ** ColorSpace, continued: [rgbToHSL], [rgbToHex] *)
Module ColorConv.

Import Str ColorSpace.
Local Open Scope js_scope.

(** [a === b] on numbers: NaN is equal to nothing. *)
Definition strictEq (a b : jsnum) : bool :=
  negb (isNaN a) && bool_decide (a = b).

(** [Math.max] of two numbers: NaN as soon as one of them is. *)
Definition max (a b : jsnum) : jsnum :=
  match a, b with
  | NaN, _ | _, NaN => NaN
  | _, _ => if jlt a b then b else a
  end.

(** An HSL result: [None] is the [false] returned for a missing color. *)
Definition HSLValue : Type := option (jsnum * jsnum * jsnum).

(** [h] is left undefined when the [switch] finds no case, and the division
    that follows makes it NaN. *)
Definition rgbToHSL (color : RGBValue) : HSLValue :=
  match color with
  | None => None
  | Some color =>
      let r := at_ color 0 / num 255 in
      let g := at_ color 1 / num 255 in
      let b := at_ color 2 / num 255 in
      let max := max (max r g) b in
      let min := JS.min (JS.min r g) b in
      let l := (max + min) / num 2 in
      if strictEq max min then Some (num 0, num 0, l)
      else
        let d := max - min in
        let s :=
          if dec 5 10 <? l then d / (num 2 - max - min) else d / (max + min) in
        let h :=
          if strictEq max r then (g - b) / d + (if g <? b then num 6 else num 0)
          else if strictEq max g then (b - r) / d + num 2
          else if strictEq max b then (r - g) / d + num 4
          else NaN in
        Some (h / num 6, s, l)
  end.

(** [/^rgb\((\d+),\s*(\d+),\s*(\d+)\)$/]: the three captures, as digits.
    Digits, commas and white space exclude one another, so the greedy
    match is the only one. *)
Definition matchRgb (s : list ascii) : option (list Z * list Z * list Z) :=
  match s with
  | "r"%char :: "g"%char :: "b"%char :: "("%char :: s1 =>
      match spanDigits s1 with
      | (d1 :: r, ","%char :: s2) =>
          match spanDigits (trimStart s2) with
          | (d2 :: g, ","%char :: s3) =>
              match spanDigits (trimStart s3) with
              | (d3 :: b, [")"%char]) => Some (d1 :: r, d2 :: g, d3 :: b)
              | _ => None
              end
          | _ => None
          end
      | _ => None
      end
  | _ => None
  end.

Definition hexDigit (d : Z) : ascii :=
  ascii_of_nat (Z.to_nat (if (d <? 10)%Z then 48 + d else 87 + d)).

Fixpoint hexDigits (fuel : nat) (n : Z) : list ascii :=
  match fuel with
  | O => [hexDigit n]
  | S fuel =>
      if (n <? 16)%Z then [hexDigit n]
      else hexDigits fuel (n / 16) ++ [hexDigit (n mod 16)]
  end.

(** [n.toString(16)] for a whole [n >= 0]; the binary length of [n] is more
    fuel than its hexadecimal digits need. *)
Definition toString16 (n : Z) : list ascii :=
  hexDigits (Z.to_nat (Z.log2 n)) n.

(** The inner function [hex]: [parseInt] reads the capture, a run of
    decimal digits, as its value (exactly so below 2^53). *)
Definition hex (x : list Z) : list ascii :=
  let text := "0"%char :: toString16 (digitsValue 10 x) in
  sliceList text (-2) (Z.of_nat (length text)).

Definition rgbToHex (rgb : string) : string :=
  match matchRgb (chars rgb) with
  | Some (r, g, b) => ofChars ("#"%char :: hex r ++ hex g ++ hex b)
  | None => rgb
  end.

End ColorConv.

(** ** Fitting: [fitScale], the scale of an imported image, and the area a
    scaled copy covers *)
Module Fit.

Import Layout.
Local Open Scope js_scope.

(** [fitScale]: the number returned, which is also the factor handed to
    [object.scale]; a fill that is not passed defaults to [0.8]. *)
Definition fitScale (object view : Bounds) (fillWidth fillHeight : option jsnum)
  : jsnum :=
  let fillWidth := default (dec 8 10) fillWidth in
  let fillHeight := default (dec 8 10) fillHeight in
  let sx := (width view * fillWidth) / width object in
  let sy := (height view * fillHeight) / height object in
  if sx <? sy then sx else sy.

(** The factor [img.onLoad] of the editor scales an imported image by. *)
Definition importScale (view image : Bounds) : jsnum :=
  let sx := (width view * dec 8 10) / width image in
  let sy := (height view * dec 8 10) / height image in
  if sx <? sy then sx else sy.

(** An axis-parallel rectangle. *)
Record Box : Type := mkBox { xmin : Qc; xmax : Qc; ymin : Qc; ymax : Qc }.

(** What a [tw] by [th] trace covers once scaled by [s] and centred on [p]. *)
Definition copyBox (tw th s : Qc) (p : Qc * Qc) : Box :=
  mkBox (fst p - s * tw / Qc_of_Z 2)%Qc (fst p + s * tw / Qc_of_Z 2)%Qc
        (snd p - s * th / Qc_of_Z 2)%Qc (snd p + s * th / Qc_of_Z 2)%Qc.

(** The box lies in the area whose corner is the origin. *)
Definition inside (gw gh : Qc) (b : Box) : Prop :=
  (0 <= xmin b /\ xmax b <= gw /\ 0 <= ymin b /\ ymax b <= gh)%Qc.

(** Two boxes that share at most a piece of their borders. *)
Definition apart (a b : Box) : Prop :=
  (xmax a <= xmin b \/ xmax b <= xmin a
   \/ ymax a <= ymin b \/ ymax b <= ymin a)%Qc.

(** Every box is apart from each of the later ones. *)
Fixpoint pairwiseApart (bs : list Box) : Prop :=
  match bs with
  | [] => True
  | b :: rest => Forall (apart b) rest /\ pairwiseApart rest
  end.

Definition point (p : Qc * Qc) : Position := (Fin (fst p), Fin (snd p)).

(** The smaller of the quotients [a / tw] and [b / th], the first one
    winning only when strictly smaller, as the conditional of the sources
    picks it. *)
Definition least (a b tw th : Qc) : Qc :=
  if bool_decide (a / tw < b / th)%Qc then (a / tw)%Qc else (b / th)%Qc.

(** The fill fraction of [getDuplicationLayout], as a rational. *)
Definition fillOf (count : Z) : Qc :=
  match count with
  | 1%Z => Qc_of_Z 80 / Qc_of_Z 100
  | 2%Z => Qc_of_Z 50 / Qc_of_Z 100
  | 4%Z => Qc_of_Z 35 / Qc_of_Z 100
  | _ => Qc_of_Z 25 / Qc_of_Z 100
  end%Qc.

End Fit.

(** ** [recursiveLengthCull] *)
Module Cull.

Local Open Scope js_scope.

(** An item as the function sees it: one without [children], with its
    [length], or one with a list of children. *)
#[warnings="-register-all"] Inductive Node : Type :=
  | Leaf (length : jsnum)
  | Parent (children : list Node).

(** What is left where [item] was: [None] once it is removed. *)
Fixpoint cullNode (minLength : jsnum) (item : Node) : option Node :=
  match item with
  | Parent [] => None
  | Parent children => Some (Parent (omap (cullNode minLength) children))
  | Leaf length => if length <? minLength then None else Some item
  end.

(** [item] is [None] for [undefined]. *)
Definition recursiveLengthCull (item : option Node) (minLength : jsnum)
  : option Node :=
  item ≫= cullNode minLength.

(** The lengths of the paths below an item, in order. *)
Fixpoint leaves (item : Node) : list jsnum :=
  match item with
  | Leaf length => [length]
  | Parent children => concat (map leaves children)
  end.

(** The lengths of the paths still below what a call left. *)
Definition remaining (o : option Node) : list jsnum :=
  from_option leaves [] o.

(** [k] calls in a row on the same item. *)
Definition cullTimes (k : nat) (minLength : jsnum) (item : option Node)
  : option Node :=
  Nat.iter k (fun o => recursiveLengthCull o minLength) item.

(** The nesting of an item, a path counting for one level. *)
Fixpoint levels (item : Node) : nat :=
  match item with
  | Leaf _ => 1
  | Parent children => S (foldr Nat.max 0%nat (map levels children))
  end.

End Cull.

(** ** Stand-ins for the libraries, to run the helpers on a small scene *)
Module Fixture.

Import Paper.

Definition square : list Point :=
  [(num 0, num 0); (num 10, num 0); (num 10, num 10); (num 0, num 10)].

(** Colours are kept as their CSS text, curves as their anchor points;
    flattening returns the points. *)
Definition plainPaper : PaperLib :=
  {| Color := string;
     toCSS := fun c => c;
     colorOfString := fun c => c;
     Curve := list Point;
     segmentCount := fun c => length c;
     flatten := fun c _ _ => Some c;
     parsePathData := fun _ => [(square, true)] |}.

(** The same, except that flattening always throws. *)
Definition brokenPaper : PaperLib :=
  {| Color := string;
     toCSS := fun c => c;
     colorOfString := fun c => c;
     Curve := list Point;
     segmentCount := fun c => length c;
     flatten := fun _ _ _ => None;
     parsePathData := fun _ => [(square, true)] |}.

(** An offset that erases everything when shrinking and changes nothing
    when growing. *)
Definition toyClipper : ClipperLib :=
  {| ScaleUpPaths := fun paths _ => paths;
     Clean := fun paths _ => paths;
     OffsetExecute := fun _ _ paths delta =>
                        if jlt delta (num 0) then [] else paths |}.

Definition toyRuntime : Runtime :=
  {| numberToString := fun _ => "0"%string |}.

Definition squareItem (P : PaperLib) (stroke fill : option (@Color P))
    (c : @Curve P) : @Item P :=
  mkItem (mkData (Some "square"%string) None None) stroke (num 1) fill
         (Path c true).

(** One layer, active, holding one item. *)
Definition oneItem (P : PaperLib) (it : @Item P) : @Scene P :=
  mkScene {[ 1%positive := it ]} {[ 1%positive := [1%positive] ]}
          1%positive 2%positive [].

Definition redSquare (P : PaperLib) (red : @Color P) (c : @Curve P)
  : @Item P :=
  squareItem P None (Some red) c.

Definition brokenSquare : @Item brokenPaper :=
  redSquare brokenPaper "rgb(255,0,0)"%string square.
Definition brokenScene : @Scene brokenPaper := oneItem brokenPaper brokenSquare.

Definition plainSquare : @Item plainPaper :=
  redSquare plainPaper "rgb(255,0,0)"%string square.
Definition plainScene : @Scene plainPaper := oneItem plainPaper plainSquare.

(** A square stroked in the second shade and filled in the first. *)
Definition painted : @Item plainPaper :=
  squareItem plainPaper (Some "rgb(226,188,21)"%string)
             (Some "rgb(255,234,126)"%string) square.

Definition canvas : @Scene plainPaper := oneItem plainPaper painted.

Definition shades : list Palette.ColorData :=
  Palette.snapColorSetup Palette.pancakeShades.

End Fixture.


(** * Properties *)

(** ** Rounding *)
Module RoundFacts.

Local Open Scope Q_scope.


Lemma exp2_pos (e : Z) : 0 < exp2 e.
Proof. apply Qpower_0_lt. reflexivity. Qed.

Lemma exp2_plus (a b : Z) : exp2 (a + b) == exp2 a * exp2 b.
Proof. apply Qpower_plus. discriminate. Qed.

Lemma exp2_le (a b : Z) : (a <= b)%Z -> exp2 a <= exp2 b.
Proof. intros Hab. apply Qpower_le_compat_l; [exact Hab|discriminate]. Qed.

Lemma exp2_lt (a b : Z) : (a < b)%Z -> exp2 a < exp2 b.
Proof. intros Hab. apply Qpower_lt_compat_l; [exact Hab|reflexivity]. Qed.

Lemma exp2_Z (e : Z) : (0 <= e)%Z -> exp2 e == inject_Z (2 ^ e)%Z.
Proof. intros He. unfold exp2. now rewrite Zpower_Qpower. Qed.

Lemma exp2_lt_inv (a b : Z) : exp2 a < exp2 b -> (a < b)%Z.
Proof.
  intros H. destruct (Z.lt_ge_cases a b) as [Hlt|Hge]; [exact Hlt|].
  apply exp2_le in Hge. lra.
Qed.

Lemma rne_cases (q : Q) :
  rne q = Qfloor q \/ rne q = (Qfloor q + 1)%Z.
Proof.
  unfold rne. destruct (q - inject_Z (Qfloor q) ?= 1 # 2); auto.
  destruct (Z.even (Qfloor q)); auto.
Qed.

Lemma rne_Z (n : Z) : rne (inject_Z n) = n.
Proof.
  unfold rne. rewrite Qfloor_Z.
  assert (H : (inject_Z n - inject_Z n ?= 1 # 2) = Lt).
  { rewrite <- Qlt_alt. generalize (inject_Z n). intros x. lra. }
  now rewrite H.
Qed.

Lemma rne_comp (x y : Q) : x == y -> rne x = rne y.
Proof.
  intros H. unfold rne. rewrite (Qfloor_comp x y H).
  now rewrite (Qcompare_comp (x - inject_Z (Qfloor y)) (y - inject_Z (Qfloor y))
                 ltac:(rewrite H; reflexivity) (1 # 2) (1 # 2) ltac:(reflexivity)).
Qed.

Lemma rne_mono (x y : Q) : x <= y -> (rne x <= rne y)%Z.
Proof.
  intros Hxy. pose proof (Qfloor_resp_le x y Hxy) as Hf.
  destruct (Z.eq_dec (Qfloor x) (Qfloor y)) as [He|Hne].
  - unfold rne. rewrite He. set (f := Qfloor y).
    destruct (Qcompare_spec (x - inject_Z f) (1 # 2)) as [Hx|Hx|Hx];
      destruct (Qcompare_spec (y - inject_Z f) (1 # 2)) as [Hy|Hy|Hy];
      try lia; try lra; destruct (Z.even f); lia.
  - destruct (rne_cases x) as [-> | ->], (rne_cases y) as [-> | ->]; lia.
Qed.

Lemma rne_ge (n : Z) (x : Q) : inject_Z n <= x -> (n <= rne x)%Z.
Proof. intros H. rewrite <- (rne_Z n). now apply rne_mono. Qed.

Lemma rne_le (n : Z) (x : Q) : x <= inject_Z n -> (rne x <= n)%Z.
Proof. intros H. rewrite <- (rne_Z n). now apply rne_mono. Qed.

(** Quotients of positive numbers compare as their cross products. *)
Lemma div_lt_div (n d A B : Q) :
  0 < d -> 0 < B -> 0 <= n -> n < A -> B <= d -> n / d < A / B.
Proof.
  intros Hd HB Hn HnA HBd.
  apply Qlt_shift_div_l; [exact HB|].
  assert (H : n / d * B == B / d * n) by (field; lra).
  rewrite H.
  assert (H1 : B / d <= 1) by (apply Qle_shift_div_r; lra).
  apply Qle_lt_trans with (1 * n); [|lra].
  apply Qmult_le_compat_r; assumption.
Qed.

Lemma div_le_div (n d A B : Q) :
  0 < d -> 0 < B -> 0 <= A -> A <= n -> d <= B -> A / B <= n / d.
Proof.
  intros Hd HB HA HAn HdB.
  apply Qle_shift_div_l; [exact Hd|].
  assert (H : A / B * d == d / B * A) by (field; lra).
  rewrite H.
  assert (H1 : d / B <= 1) by (apply Qle_shift_div_r; lra).
  apply Qle_trans with (1 * A); [|lra].
  apply Qmult_le_compat_r; assumption.
Qed.

Lemma ilog2_spec (q : Q) :
  0 < q -> exp2 (ilog2 q) <= q /\ q < exp2 (ilog2 q + 1).
Proof.
  intros Hq. destruct q as [n d].
  assert (Hn : (0 < n)%Z) by (unfold Qlt in Hq; simpl in Hq; lia).
  unfold ilog2. cbn [Qnum Qden].
  set (a := Z.log2 n). set (b := Z.log2 (Z.pos d)).
  destruct (Z.log2_spec n Hn) as [Ha1 Ha2]. fold a in Ha1, Ha2.
  destruct (Z.log2_spec (Z.pos d) ltac:(lia)) as [Hb1 Hb2]. fold b in Hb1, Hb2.
  assert (Ha0 : (0 <= a)%Z) by apply Z.log2_nonneg.
  assert (Hb0 : (0 <= b)%Z) by apply Z.log2_nonneg.
  assert (Hq' : n # d == inject_Z n / inject_Z (Z.pos d)) by apply Qmake_Qdiv.
  assert (Hd : 0 < inject_Z (Z.pos d)) by (unfold Qlt; simpl; lia).
  assert (Hdiv : forall x y : Z, exp2 (x - y) == exp2 x / exp2 y).
  { intros x y. unfold Z.sub. rewrite exp2_plus. unfold exp2 at 2.
    rewrite Qpower_opp. reflexivity. }
  destruct (Qle_bool (exp2 (a - b)) (n # d)) eqn:Hcmp.
  - split; [now apply Qle_bool_iff|].
    replace (a - b + 1)%Z with (Z.succ a - b)%Z by lia.
    rewrite Hdiv, Hq', !exp2_Z by lia.
    apply div_lt_div; try assumption;
      rewrite <- ?Zlt_Qlt, <- ?Zle_Qle; try lia.
    all: change 0 with (inject_Z 0); rewrite <- ?Zlt_Qlt, <- ?Zle_Qle; lia.
  - split.
    + replace (a - b - 1)%Z with (a - Z.succ b)%Z by lia.
      rewrite Hdiv, Hq', !exp2_Z by lia.
      apply div_le_div; try assumption;
        rewrite <- ?Zlt_Qlt, <- ?Zle_Qle; try lia.
      all: change 0 with (inject_Z 0); rewrite <- ?Zlt_Qlt, <- ?Zle_Qle; lia.
    + replace (a - b - 1 + 1)%Z with (a - b)%Z by lia.
      apply Qnot_le_lt. intros Hle. apply Qle_bool_iff in Hle. congruence.
Qed.

Lemma ilog2_mono (x y : Q) : 0 < x -> x <= y -> (ilog2 x <= ilog2 y)%Z.
Proof.
  intros Hx Hxy.
  destruct (ilog2_spec x Hx) as [Hx1 _].
  destruct (ilog2_spec y ltac:(lra)) as [_ Hy2].
  assert (H : exp2 (ilog2 x) < exp2 (ilog2 y + 1)) by lra.
  apply exp2_lt_inv in H. lia.
Qed.

Lemma ilog2_unique (q : Q) (l : Z) :
  0 < q -> exp2 l <= q -> q < exp2 (l + 1) -> ilog2 q = l.
Proof.
  intros Hq Hlo Hhi. destruct (ilog2_spec q Hq) as [H1 H2].
  assert (Ha : exp2 l < exp2 (ilog2 q + 1)) by lra.
  assert (Hb : exp2 (ilog2 q) < exp2 (l + 1)) by lra.
  apply exp2_lt_inv in Ha, Hb. lia.
Qed.

Lemma ulpExp_mono (x y : Q) : 0 < x -> x <= y -> (ulpExp x <= ulpExp y)%Z.
Proof.
  intros Hx Hxy. unfold ulpExp. pose proof (ilog2_mono x y Hx Hxy). lia.
Qed.

Lemma exp2_split (k e : Z) : exp2 k == inject_Z (2 ^ (k - e)) * exp2 e \/ (k < e)%Z.
Proof.
  destruct (Z.lt_ge_cases k e) as [Hlt|Hge]; [now right|left].
  rewrite <- exp2_Z by lia. rewrite <- exp2_plus.
  now replace (k - e + e)%Z with k by lia.
Qed.

Lemma div_mono (a b c : Q) : 0 < c -> a <= b -> a / c <= b / c.
Proof.
  intros Hc Hab. unfold Qdiv. apply Qmult_le_compat_r; [exact Hab|].
  apply Qinv_le_0_compat. lra.
Qed.

Lemma scaled_pow (k e : Z) :
  (e <= k)%Z -> exp2 k / exp2 e == inject_Z (2 ^ (k - e)).
Proof.
  intros Hek. destruct (exp2_split k e) as [H|H]; [|lia].
  rewrite H. field. pose proof (exp2_pos e). lra.
Qed.

Lemma nearestPos_nonneg (x : Q) : 0 < x -> 0 <= nearestPos x.
Proof.
  intros Hx. unfold nearestPos.
  pose proof (exp2_pos (ulpExp x)) as Hp.
  assert (H : (0 <= rne (x / exp2 (ulpExp x)))%Z).
  { apply rne_ge. change (inject_Z 0) with 0.
    apply Qle_shift_div_l; [exact Hp|]. lra. }
  apply Qmult_le_0_compat; [|lra].
  change 0 with (inject_Z 0). now rewrite <- Zle_Qle.
Qed.

Lemma nearestPos_ge_pow (y : Q) (k : Z) :
  exp2 k <= y -> (ulpExp y <= k)%Z -> exp2 k <= nearestPos y.
Proof.
  intros Hky Hek. unfold nearestPos. set (e := ulpExp y) in *.
  pose proof (exp2_pos e) as Hp.
  assert (H : (2 ^ (k - e) <= rne (y / exp2 e))%Z).
  { apply rne_ge. rewrite <- scaled_pow by exact Hek. now apply div_mono. }
  destruct (exp2_split k e) as [Hs|Hs]; [|lia].
  rewrite Hs. apply Qmult_le_compat_r; [|lra]. now rewrite <- Zle_Qle.
Qed.

Lemma nearestPos_le_pow (x : Q) (k : Z) :
  x <= exp2 k -> (ulpExp x <= k)%Z -> nearestPos x <= exp2 k.
Proof.
  intros Hxk Hek. unfold nearestPos. set (e := ulpExp x) in *.
  pose proof (exp2_pos e) as Hp.
  assert (H : (rne (x / exp2 e) <= 2 ^ (k - e))%Z).
  { apply rne_le. rewrite <- scaled_pow by exact Hek. now apply div_mono. }
  destruct (exp2_split k e) as [Hs|Hs]; [|lia].
  rewrite Hs. apply Qmult_le_compat_r; [|lra]. now rewrite <- Zle_Qle.
Qed.

Lemma ulpExp_ilog2 (x : Q) : (ilog2 x - 52 <= ulpExp x)%Z /\ (-1074 <= ulpExp x)%Z.
Proof. unfold ulpExp. lia. Qed.

Lemma nearestPos_mono (x y : Q) :
  0 < x -> x <= y -> nearestPos x <= nearestPos y.
Proof.
  intros Hx Hxy. pose proof (ulpExp_mono x y Hx Hxy) as He.
  destruct (Z.eq_dec (ulpExp x) (ulpExp y)) as [Heq|Hne].
  - unfold nearestPos. rewrite Heq.
    pose proof (exp2_pos (ulpExp y)) as Hp.
    apply Qmult_le_compat_r; [|lra]. rewrite <- Zle_Qle.
    apply rne_mono. now apply div_mono.
  - assert (Hlt : (ulpExp x < ulpExp y)%Z) by lia.
    assert (Hy : ulpExp y = (ilog2 y - 52)%Z) by (unfold ulpExp in *; lia).
    assert (Hxl : (ilog2 x + 1 <= ulpExp y + 52)%Z) by (unfold ulpExp in *; lia).
    destruct (ilog2_spec x Hx) as [_ Hx2].
    destruct (ilog2_spec y ltac:(lra)) as [Hy1 _].
    apply Qle_trans with (exp2 (ulpExp y + 52)).
    + apply nearestPos_le_pow; [|lia].
      apply Qle_trans with (exp2 (ilog2 x + 1)); [lra|now apply exp2_le].
    + apply nearestPos_ge_pow; [|lia].
      replace (ulpExp y + 52)%Z with (ilog2 y) by lia. exact Hy1.
Qed.

Lemma nearest_pos (q : Q) : 0 < q -> nearest q = nearestPos q.
Proof.
  intros Hq. unfold nearest.
  destruct (Qcompare_spec q 0) as [H|H|H]; try lra. reflexivity.
Qed.

Lemma nearest_neg (q : Q) : q < 0 -> nearest q = - nearestPos (- q).
Proof.
  intros Hq. unfold nearest.
  destruct (Qcompare_spec q 0) as [H|H|H]; try lra. reflexivity.
Qed.

Lemma nearest_zero (q : Q) : q == 0 -> nearest q = 0.
Proof.
  intros Hq. unfold nearest.
  destruct (Qcompare_spec q 0) as [H|H|H]; try lra. reflexivity.
Qed.

(** Rounding is monotone. *)
Lemma nearest_mono (x y : Q) : x <= y -> nearest x <= nearest y.
Proof.
  intros Hxy.
  destruct (Q_dec x 0) as [[Hx|Hx]|Hx], (Q_dec y 0) as [[Hy|Hy]|Hy];
    try lra;
    rewrite ?(nearest_pos x), ?(nearest_pos y), ?(nearest_neg x),
      ?(nearest_neg y), ?(nearest_zero x), ?(nearest_zero y) by assumption.
  - assert (H : nearestPos (- y) <= nearestPos (- x))
      by (apply nearestPos_mono; lra).
    lra.
  - pose proof (nearestPos_nonneg (- x)). pose proof (nearestPos_nonneg y). lra.
  - pose proof (nearestPos_nonneg (- x)). lra.
  - now apply nearestPos_mono.
  - pose proof (nearestPos_nonneg y). lra.
  - lra.
Qed.

Lemma nearest_comp (x y : Q) : x == y -> nearest x == nearest y.
Proof.
  intros Hxy. apply Qle_antisym; apply nearest_mono; lra.
Qed.

(** A number [m * 2^e] with [0 < m < 2^53] and [e] no less than the smallest
    exponent is a binary64 number: rounding leaves it as it is. *)
Lemma nearestPos_exact (m e : Z) :
  (0 < m < 2 ^ 53)%Z -> (-1074 <= e)%Z ->
  nearestPos (inject_Z m * exp2 e) == inject_Z m * exp2 e.
Proof.
  intros Hm He. set (q := inject_Z m * exp2 e).
  pose proof (exp2_pos e) as Hpe.
  assert (Hm0 : 0 < inject_Z m)
    by (change 0 with (inject_Z 0); rewrite <- Zlt_Qlt; lia).
  assert (Hq : 0 < q) by (apply Qmult_lt_0_compat; assumption).
  assert (HE : (ulpExp q <= e)%Z).
  { destruct (ilog2_spec q Hq) as [H1 _].
    assert (Hlt : q < exp2 (53 + e)).
    { rewrite exp2_plus. unfold q. apply Qmult_lt_compat_r; [exact Hpe|].
      rewrite exp2_Z by lia. rewrite <- Zlt_Qlt. lia. }
    assert (Hl : exp2 (ilog2 q) < exp2 (53 + e)) by lra.
    apply exp2_lt_inv in Hl. unfold ulpExp. lia. }
  unfold nearestPos. set (E := ulpExp q) in *.
  pose proof (exp2_pos E) as HpE.
  assert (Hs : q / exp2 E == inject_Z (m * 2 ^ (e - E))).
  { unfold q. rewrite inject_Z_mult, <- scaled_pow by exact HE.
    field. lra. }
  rewrite (rne_comp _ _ Hs), rne_Z, inject_Z_mult, <- scaled_pow by exact HE.
  unfold q. field. lra.
Qed.

Lemma nearest_Z (n : Z) :
  (Z.abs n <= 2 ^ 53)%Z -> nearest (inject_Z n) == inject_Z n.
Proof.
  intros Hn.
  assert (Hpos : forall k, (0 < k <= 2 ^ 53)%Z ->
                   nearestPos (inject_Z k) == inject_Z k).
  { intros k Hk. destruct (Z.eq_dec k (2 ^ 53)%Z) as [->|Hne].
    - assert (H : inject_Z (2 ^ 53)%Z == inject_Z (2 ^ 52)%Z * exp2 1)
        by reflexivity.
      assert (H' : nearestPos (inject_Z (2 ^ 53)%Z)
                   == nearestPos (inject_Z (2 ^ 52)%Z * exp2 1)).
      { rewrite <- !nearest_pos by reflexivity. now apply nearest_comp. }
      rewrite H', H. apply nearestPos_exact; lia.
    - assert (H : inject_Z k == inject_Z k * exp2 0)
        by (change (exp2 0) with 1; ring).
      assert (H' : nearestPos (inject_Z k) == nearestPos (inject_Z k * exp2 0)).
      { rewrite <- !nearest_pos.
        - now apply nearest_comp.
        - rewrite <- H. change 0 with (inject_Z 0). rewrite <- Zlt_Qlt. lia.
        - change 0 with (inject_Z 0). rewrite <- Zlt_Qlt. lia. }
      rewrite H'. rewrite H at 2. apply nearestPos_exact; lia. }
  destruct (Z.lt_trichotomy n 0) as [Hlt|[->|Hgt]].
  - rewrite nearest_neg
      by (change 0 with (inject_Z 0); rewrite <- Zlt_Qlt; lia).
    rewrite <- inject_Z_opp, Hpos by lia. rewrite inject_Z_opp. ring.
  - reflexivity.
  - rewrite nearest_pos
      by (change 0 with (inject_Z 0); rewrite <- Zlt_Qlt; lia).
    apply Hpos. lia.
Qed.

(** What [round64] does when the rounded value is in range. *)
Lemma round64_fin (q : Qc) :
  - exp2 1024 < nearest q -> nearest q < exp2 1024 ->
  round64 q = Fin (Q2Qc (nearest q)).
Proof.
  intros Hlo Hhi. unfold round64. cbv zeta.
  destruct (Qle_bool (exp2 1024) (nearest q)) eqn:H1.
  { apply Qle_bool_iff in H1. lra. }
  destruct (Qle_bool (nearest q) (- exp2 1024)) eqn:H2.
  { apply Qle_bool_iff in H2. lra. }
  reflexivity.
Qed.

(** A whole number of at most 53 bits is a binary64 number. *)
Lemma round64_Z (n : Z) :
  (Z.abs n <= 2 ^ 53)%Z -> round64 (Qc_of_Z n) = num n.
Proof.
  intros Hn. pose proof (nearest_Z n Hn) as He.
  change (this (Qc_of_Z n)) with (inject_Z n) in *.
  assert (Hb : - exp2 1024 < inject_Z n /\ inject_Z n < exp2 1024).
  { assert (H1 : inject_Z (2 ^ 53)%Z < exp2 1024) by reflexivity.
    assert (H2 : inject_Z (- 2 ^ 53)%Z <= inject_Z n)
      by (rewrite <- Zle_Qle; lia).
    assert (H3 : inject_Z n <= inject_Z (2 ^ 53)%Z)
      by (rewrite <- Zle_Qle; lia).
    assert (H4 : - exp2 1024 < inject_Z (- 2 ^ 53)%Z) by reflexivity.
    split; lra. }
  rewrite round64_fin
    by (change (this (Qc_of_Z n)) with (inject_Z n); rewrite He; tauto).
  unfold num. f_equal. apply Qc_is_canon.
  change (this (Qc_of_Z n)) with (inject_Z n).
  cbn [this Q2Qc]. rewrite Qred_correct. exact He.
Qed.

(** A number between two bounds rounds to a number between the rounded
    bounds, and is finite when these are in range. *)
Lemma round64_between (lo hi : Q) (q : Qc) :
  lo <= q <= hi ->
  - exp2 1024 < nearest lo -> nearest hi < exp2 1024 ->
  exists q' : Qc,
    round64 q = Fin q' /\ nearest lo <= q' <= nearest hi.
Proof.
  intros [Hlo Hhi] Hl Hh.
  pose proof (nearest_mono _ _ Hlo). pose proof (nearest_mono _ _ Hhi).
  exists (Q2Qc (nearest q)). split.
  - apply round64_fin; lra.
  - cbn [this Q2Qc]. rewrite Qred_correct. split; assumption.
Qed.

(** Rounding keeps the order: a number at least as large as another one
    does not round below it. *)
Lemma round64_mono (x y : Qc) :
  (y <= x)%Qc -> jlt (round64 x) (round64 y) = false.
Proof.
  intros Hyx. unfold Qcle in Hyx.
  pose proof (nearest_mono _ _ Hyx) as Hn. unfold round64. cbv zeta.
  destruct (Qle_bool (exp2 1024) (nearest x)) eqn:Hx1;
    destruct (Qle_bool (exp2 1024) (nearest y)) eqn:Hy1;
    destruct (Qle_bool (nearest x) (- exp2 1024)) eqn:Hx2;
    destruct (Qle_bool (nearest y) (- exp2 1024)) eqn:Hy2;
    try reflexivity;
    rewrite ?Qle_bool_iff in *;
    repeat match goal with
           | H : Qle_bool ?a ?b = false |- _ =>
               assert (b < a)
                 by (apply Qnot_le_lt; intros Hle;
                     apply Qle_bool_iff in Hle; congruence);
               clear H
           end;
    try (exfalso; lra).
  cbn [jlt]. apply bool_decide_eq_false. unfold Qclt.
  cbn [this Q2Qc]. rewrite !Qred_correct. lra.
Qed.

Lemma finite64_spec (lo hi : Q) :
  finite64 lo hi = true ->
  - exp2 1024 < nearest lo /\ nearest hi < exp2 1024.
Proof.
  unfold finite64. intros H. apply andb_true_iff in H. destruct H as [H1 H2].
  apply negb_true_iff in H1, H2.
  split; apply Qnot_le_lt; intros Hle; apply Qle_bool_iff in Hle; congruence.
Qed.

Lemma round64_within (lo hi : Q) (q : Qc) :
  lo <= q <= hi -> finite64 lo hi = true ->
  within (nearest lo) (nearest hi) (round64 q).
Proof.
  intros Hq Hf. apply finite64_spec in Hf. destruct Hf as [Hl Hh].
  exact (round64_between lo hi q Hq Hl Hh).
Qed.

Lemma lit_within (n : Z) (d : positive) :
  finite64 (n # d) (n # d) = true ->
  within (nearest (n # d)) (nearest (n # d)) (lit n d).
Proof.
  intros Hf. apply round64_within; [|exact Hf].
  cbn [this Q2Qc]. rewrite Qred_correct. split; apply Qle_refl.
Qed.

Lemma num_within (n : Z) : within (inject_Z n) (inject_Z n) (num n).
Proof. exists (Qc_of_Z n). split; [reflexivity|]. split; apply Qle_refl. Qed.

Lemma radd_within (l1 h1 l2 h2 : Q) (x y : jsnum) :
  within l1 h1 x -> within l2 h2 y ->
  finite64 (l1 + l2) (h1 + h2) = true ->
  within (nearest (l1 + l2)) (nearest (h1 + h2)) (x +! y).
Proof.
  intros (a & -> & Ha) (b & -> & Hb) Hf.
  unfold radd. cbn [jadd rounded]. apply round64_within; [|exact Hf].
  cbn [this Qcplus Q2Qc]. rewrite Qred_correct. lra.
Qed.

Lemma rmul_within_pos (l h c : Q) (x y : jsnum) :
  within l h x -> within c c y -> Qle_bool 0 c = true ->
  finite64 (l * c) (h * c) = true ->
  within (nearest (l * c)) (nearest (h * c)) (x *! y).
Proof.
  intros (a & -> & Ha) (b & -> & Hb) Hc Hf. apply Qle_bool_iff in Hc.
  unfold rmul. cbn [jmul rounded]. apply round64_within; [|exact Hf].
  cbn [this Qcmult Q2Qc]. rewrite Qred_correct.
  assert (Hbc : b == c) by (apply Qle_antisym; tauto). rewrite Hbc.
  split; apply Qmult_le_compat_r; tauto.
Qed.

Lemma rmul_within_neg (l h c : Q) (x y : jsnum) :
  within l h x -> within c c y -> Qle_bool c 0 = true ->
  finite64 (h * c) (l * c) = true ->
  within (nearest (h * c)) (nearest (l * c)) (x *! y).
Proof.
  intros (a & -> & Ha) (b & -> & Hb) Hc Hf. apply Qle_bool_iff in Hc.
  unfold rmul. cbn [jmul rounded]. apply round64_within; [|exact Hf].
  cbn [this Qcmult Q2Qc]. rewrite Qred_correct.
  assert (Hbc : b == c) by (apply Qle_antisym; tauto). rewrite Hbc.
  assert (H1 : a * - c <= h * - c) by (apply Qmult_le_compat_r; lra).
  assert (H2 : l * - c <= a * - c) by (apply Qmult_le_compat_r; lra).
  split; lra.
Qed.

Lemma floor_within (lo hi : Q) (x : jsnum) :
  within lo hi x ->
  exists z : Z, floor x = num z /\ (Qfloor lo <= z <= Qfloor hi)%Z.
Proof.
  intros (a & -> & Ha). exists (Qfloor a). split; [reflexivity|].
  split; apply Qfloor_resp_le; tauto.
Qed.

End RoundFacts.


(** ** Arithmetic on canonical rationals

    Order goals over [Qc] are moved to [Q], where [lra] decides them. *)
Module QcArith.

Local Open Scope Qc_scope.

Lemma this_plus (x y : Qc) : (this (x + y) == this x + this y)%Q.
Proof. apply Qred_correct. Qed.
Lemma this_mult (x y : Qc) : (this (x * y) == this x * this y)%Q.
Proof. apply Qred_correct. Qed.
Lemma this_opp (x : Qc) : (this (- x) == - this x)%Q.
Proof. apply Qred_correct. Qed.
Lemma this_minus (x y : Qc) : (this (x - y) == this x - this y)%Q.
Proof. unfold Qcminus. rewrite this_plus, this_opp. reflexivity. Qed.
Lemma this_inv (x : Qc) : (this (/ x) == / this x)%Q.
Proof. apply Qred_correct. Qed.
Lemma this_div (x y : Qc) : (this (x / y) == this x / this y)%Q.
Proof. unfold Qcdiv. rewrite this_mult, this_inv. reflexivity. Qed.
Lemma this_Q2Qc (q : Q) : (this (Q2Qc q) == q)%Q.
Proof. unfold Q2Qc; simpl; apply Qred_correct. Qed.
Lemma this_eq (x y : Qc) : x = y -> (this x == this y)%Q.
Proof. now intros ->. Qed.

Ltac qc_consts :=
  unfold Qdiv, inject_Z in *;
  repeat match goal with
    | |- context [Qinv (?n # ?d)] =>
        let v := eval vm_compute in (Qinv (n # d)) in
        change (Qinv (n # d)) with v
    | H : context [Qinv (?n # ?d)] |- _ =>
        let v := eval vm_compute in (Qinv (n # d)) in
        change (Qinv (n # d)) with v in H
    end.

Ltac qc_push :=
  repeat match goal with
    | H : @eq Qc _ _ |- _ => apply this_eq in H
    end;
  unfold Qcle, Qclt in *;
  repeat (rewrite ?this_plus, ?this_mult, ?this_opp, ?this_minus, ?this_div,
            ?this_inv, ?this_Q2Qc in * );
  change (this (Qc_of_Z ?z)) with (inject_Z z) in *.

Ltac qc_lra :=
  try apply Qc_is_canon; qc_push; qc_consts; lra.

Lemma Qclt_irrefl (x : Qc) : ~ x < x.
Proof. intros H. exact (Qclt_not_eq _ _ H eq_refl). Qed.

Lemma div_between (a d lo hi : Qc) :
  0 < d -> lo * d <= a -> a <= hi * d -> lo <= a / d <= hi.
Proof.
  intros Hd Hlo Hhi. unfold Qcle, Qclt in *.
  rewrite this_div. rewrite this_mult in Hlo, Hhi.
  split.
  - apply Qle_shift_div_l; assumption.
  - apply Qle_shift_div_r; assumption.
Qed.

End QcArith.

(** ** Numbers *)
Module JSFacts.

Lemma Qc_of_Z_lt (a b : Z) : (a < b)%Z -> (Qc_of_Z a < Qc_of_Z b)%Qc.
Proof.
  intros Hab. unfold Qclt. simpl. unfold Qlt. simpl. lia.
Qed.

(** The conditional of the sources, [a < b ? a : b], is [Math.min] as soon
    as [a] is a number. *)
Lemma ternary_is_min (a b : jsnum) :
  isNaN a = false -> (if jlt a b then a else b) = JS.min a b.
Proof.
  intros Ha. destruct a as [x| | |], b as [y| | |]; simpl in *;
    try reflexivity; try discriminate.
  destruct (decide (x < y)%Qc) as [Hxy|Hxy].
  - rewrite (bool_decide_eq_true_2 _ Hxy).
    rewrite bool_decide_eq_false_2; [reflexivity|].
    intros Hyx. exact (Qclt_not_eq _ _ (Qclt_trans _ _ _ Hxy Hyx) eq_refl).
  - rewrite (bool_decide_eq_false_2 _ Hxy).
    destruct (decide (y < x)%Qc) as [Hyx|Hyx].
    + now rewrite (bool_decide_eq_true_2 _ Hyx).
    + rewrite (bool_decide_eq_false_2 _ Hyx). f_equal.
      apply Qcle_antisym; now apply Qcnot_lt_le.
Qed.

End JSFacts.

(** ** DuplicationLayout *)
Module LayoutFacts.

Import Layout JSFacts.
Local Open Scope js_scope.

Lemma fill_80 : num 80 / num 100 = dec 8 10.
Proof. js_eq. Qed.
Lemma fill_50 : num 50 / num 100 = dec 5 10.
Proof. js_eq. Qed.
Lemma fill_35 : num 35 / num 100 = dec 35 100.
Proof. js_eq. Qed.
Lemma fill_25 : num 25 / num 100 = dec 25 100.
Proof. js_eq. Qed.

(** The scale of a run that passed the guard, whatever the count. *)
Lemma scale_unfold (count : Z) (tb gb : Bounds) :
  truthy (width tb) = true ->
  scale (getDuplicationLayout count tb gb) =
    let fp :=
      toNumber (match count with
                | 1%Z => Some (num 80) | 2%Z => Some (num 50)
                | 4%Z => Some (num 35) | 8%Z => Some (num 25)
                | _ => None
                end) / num 100 in
    let sx := width gb * fp / width tb in
    let sy := height gb * fp / height tb in
    if sx <? sy then sx else sy.
Proof.
  intros Hw. unfold getDuplicationLayout, getDuplicationLayoutRun.
  rewrite Hw. simpl negb. cbv iota.
  destruct count as [|p|p]; try reflexivity.
  destruct p as [p|p|]; try reflexivity;
    destruct p as [p|p|]; try reflexivity;
    destruct p as [p|p|]; try reflexivity;
    destruct p as [p|p|]; try reflexivity.
Qed.

Lemma finite_quotient_not_nan (a b : jsnum) :
  isFinite a = true -> isFinite b = true -> truthy b = true ->
  isNaN (a / b) = false.
Proof.
  destruct a as [x| | |], b as [y| | |]; simpl; try discriminate.
  intros _ _ Hy. apply negb_true_iff in Hy. now rewrite Hy.
Qed.

Lemma finite_times_fin (a : jsnum) (q : Qc) :
  isFinite a = true -> isFinite (a * Fin q) = true.
Proof. destruct a; simpl; intros; try discriminate; reflexivity. Qed.

(** C6.  For the counts 1, 2, 4 and 8 and finite bounds whose trace width
    passes the guard, the scale returned is the minimum of
    areaWidth * fillPercent / traceWidth and
    areaHeight * fillPercent / traceHeight with fillPercent 0.8, 0.5, 0.35 and
    0.25; and one copy of a 100 x 100 trace in a 1000 x 500 area is placed at
    (500, 250) with scale 4. *)
Theorem layout_scale_is_min :
  (forall (count : Z) (tb gb : Bounds),
      count = 1%Z \/ count = 2%Z \/ count = 4%Z \/ count = 8%Z ->
      finiteBounds tb -> finiteBounds gb ->
      truthy (width tb) = true ->
      scale (getDuplicationLayout count tb gb) = specScale count tb gb)
  /\ getDuplicationLayout 1 (rect 100 100) (rect 1000 500)
     = mkLayout (num 4) [(num 500, num 250)].
Proof.
  split.
  - intros count tb gb Hcount [Htw Hth] [Hgw Hgh] Hw.
    rewrite (scale_unfold _ _ _ Hw). cbv zeta. unfold specScale.
    assert (Hfp : toNumber (match count with
                | 1%Z => Some (num 80) | 2%Z => Some (num 50)
                | 4%Z => Some (num 35) | 8%Z => Some (num 25)
                | _ => None
                end) / num 100 = specFillPercent count).
    { destruct Hcount as [-> | [-> | [-> | ->]]]; simpl toNumber; simpl specFillPercent;
        [apply fill_80|apply fill_50|apply fill_35|apply fill_25]. }
    rewrite Hfp. apply ternary_is_min.
    assert (Hq : exists q, specFillPercent count = Fin q).
    { destruct Hcount as [-> | [-> | [-> | ->]]]; simpl; eauto. }
    destruct Hq as [q ->].
    apply finite_quotient_not_nan; auto using finite_times_fin.
  - unfold getDuplicationLayout. js_eq.
Qed.

Lemma layout_scale_is_min_witness :
  scale (getDuplicationLayout 4 (rect 300 200) (rect 1000 500))
  = specScale 4 (rect 300 200) (rect 1000 500).
Proof.
  apply (proj1 layout_scale_is_min 4%Z (rect 300 200) (rect 1000 500)).
  - right; right; left; reflexivity.
  - split; reflexivity.
  - split; reflexivity.
  - reflexivity.
Defined.

(** C7.  When the trace width is falsy (zero or NaN) the function returns
    scale 1 and no position, and the run performed no division at all. *)
Theorem layout_degenerate_no_division (count : Z) (tb gb : Bounds) :
  truthy (width tb) = false ->
  getDuplicationLayout count tb gb = mkLayout (num 1) []
  /\ divisions count tb gb = [].
Proof.
  intros Hw. unfold getDuplicationLayout, divisions, getDuplicationLayoutRun.
  rewrite Hw. split; reflexivity.
Qed.

Lemma layout_degenerate_no_division_witness :
  truthy (width (rect 0 0)) = false
  /\ getDuplicationLayout 8 (rect 0 0) (rect 1000 500) = mkLayout (num 1) []
  /\ divisions 8 (rect 0 0) (rect 1000 500) = [].
Proof.
  split; [reflexivity|].
  apply (layout_degenerate_no_division 8%Z (rect 0 0) (rect 1000 500)).
  reflexivity.
Defined.

Lemma quarter_fin (q : Qc) : Fin q / num 4 = Fin (q / Qc_of_Z 4)%Qc.
Proof. reflexivity. Qed.

Lemma quarter_ne_three_quarters (q : Qc) :
  q <> 0%Qc -> Fin q / num 4 <> Fin q / num 4 * num 3.
Proof.
  intros Hq. rewrite quarter_fin.
  change (Fin (q / Qc_of_Z 4)%Qc * num 3)
    with (Fin ((q / Qc_of_Z 4) * Qc_of_Z 3)%Qc).
  set (a := (q / Qc_of_Z 4)%Qc). intros Heq0.
  assert (Heq : a = (a * Qc_of_Z 3)%Qc) by congruence. clear Heq0.
  assert (Ha : (a * (Qc_of_Z 3 - 1) = 0)%Qc).
  { replace (a * (Qc_of_Z 3 - 1))%Qc with (a * Qc_of_Z 3 - a)%Qc by ring.
    rewrite <- Heq. ring. }
  apply Qcmult_integral in Ha. destruct Ha as [Ha|Ha].
  - unfold a, Qcdiv in Ha. apply Qcmult_integral in Ha.
    destruct Ha as [Ha|Ha]; [contradiction|discriminate Ha].
  - discriminate Ha.
Qed.

(** The positions of two copies, past the guard. *)
Lemma positions_two (tb gb : Bounds) :
  truthy (width tb) = true ->
  positions (getDuplicationLayout 2 tb gb) =
    let qw := width gb / num 4 in
    let qh := height gb / num 4 in
    if landscape tb gb
    then [ (qw * num 2, qh); (qw * num 2, qh * num 3) ]
    else [ (qw, qh * num 2); (qw * num 3, qh * num 2) ].
Proof.
  intros Hw. unfold getDuplicationLayout, getDuplicationLayoutRun, landscape.
  rewrite Hw. reflexivity.
Qed.

(** The aspect quotient of a rectangle with a width other than zero. *)
Lemma aspect_fin (w h : Qc) :
  w <> 0%Qc -> Fin h /! Fin w = round64 (h / w).
Proof.
  intros Hw. unfold rdiv. cbn [jdiv].
  rewrite bool_decide_eq_false_2 by exact Hw. reflexivity.
Qed.



(** Two aspects that differ by less than the rounding of the division: a
    trace of width 1 and height 0.3333333333333333 (the binary64 number
    6004799503160661 / 2^54) in an area of 3 by 1 has the smaller aspect,
    but both quotients are the same binary64 number, so the trace is not
    landscape and its two copies are at (0.75, 0.5) and (2.25, 0.5). *)
Example layout_aspect_tie :
  let third := Q2Qc (6004799503160661 # 18014398509481984) in
  let tb := mkBounds (num 1) (Fin third) in
  let gb := rect 3 1 in
  (third / Qc_of_Z 1 < Qc_of_Z 1 / Qc_of_Z 3)%Qc
  /\ height tb /! width tb = height gb /! width gb
  /\ landscape tb gb = false
  /\ positions (getDuplicationLayout 2 tb gb)
     = [ (dec 75 100, dec 5 10); (dec 225 100, dec 5 10) ].
Proof.
  intros third tb gb.
  split; [vm_compute; reflexivity|].
  split; [vm_compute; f_equal; qc_eq|].
  split; [vm_compute; reflexivity|].
  unfold getDuplicationLayout. js_eq.
Qed.


Lemma snd_bind {A B} (m : Run A) (k : A -> Run B) :
  snd (bind m k) = snd m ++ snd (k (fst m)).
Proof.
  unfold bind. destruct m as [a l1]. cbn [fst snd].
  now destruct (k a).
Qed.

(** Past the guard the run does divide by the trace width and height. *)
Lemma layout_divides_when_not_degenerate (count : Z) (tb gb : Bounds) :
  truthy (width tb) = true ->
  (height tb, width tb) ∈ divisions count tb gb.
Proof.
  intros Hw. unfold divisions, getDuplicationLayoutRun.
  rewrite Hw. simpl negb. cbv iota.
  rewrite snd_bind, snd_bind. cbn [snd divideRounded]. set_solver.
Qed.

End LayoutFacts.

(** ** ColorSpace *)
Module ColorFacts.

Import Str ColorSpace JSFacts.

Lemma hexVal_range (c : ascii) (v : Z) :
  hexVal c = Some v -> (0 <= v <= 15)%Z.
Proof.
  unfold hexVal. intros Hv.
  repeat match type of Hv with
         | (if ?b then _ else _) = _ => destruct b eqn:?
         end; inversion Hv; subst; lia.
Qed.

Lemma parseInt16_two (a b : ascii) (va vb : Z) :
  hexVal a = Some va -> hexVal b = Some vb ->
  parseInt16 [a; b] = num (16 * va + vb).
Proof.
  intros Ha Hb. unfold parseInt16. simpl. rewrite Ha. simpl. rewrite Hb. simpl.
  unfold digitsValue. simpl. f_equal; lia.
Qed.

Lemma includesList_single (c : ascii) (l : list ascii) :
  includesList [c] l = true <-> c ∈ l.
Proof.
  induction l as [|x l IH]; simpl.
  - split; [discriminate|]. intros Hin. inversion Hin.
  - rewrite orb_true_iff, andb_true_r, bool_decide_eq_true, IH.
    rewrite elem_of_cons. reflexivity.
Qed.

Lemma stripHash_hex (c : ascii) (l : list ascii) :
  isHex c = true -> stripHash (c :: l) = c :: l.
Proof.
  intros Hc. unfold stripHash.
  destruct (decide (c = "#"%char)) as [->|Hne]; [discriminate Hc|].
  destruct c as [[] [] [] [] [] [] [] []]; try reflexivity. now destruct Hne.
Qed.

(** A text whose [#]-stripped form is made of hexadecimal digits and that
    contains a [#] starts with it. *)
Lemma stripHash_hex_with_hash (cs body : list ascii) :
  stripHash cs = body -> forallb isHex body = true ->
  includesList ["#"%char] cs = true -> cs = "#"%char :: body.
Proof.
  intros Hs Hb Hi. apply includesList_single in Hi.
  destruct cs as [|c r]; [inversion Hi|].
  destruct (decide (c = "#"%char)) as [->|Hne].
  - simpl in Hs. now subst.
  - assert (Hid : stripHash (c :: r) = c :: r).
    { unfold stripHash.
      destruct c as [[] [] [] [] [] [] [] []]; try reflexivity. now destruct Hne. }
    rewrite Hid in Hs. subst body. exfalso.
    rewrite forallb_forall in Hb.
    specialize (Hb "#"%char). rewrite <- list_elem_of_In in Hb.
    specialize (Hb Hi). discriminate Hb.
Qed.

Lemma chars_ofChars (l : list ascii) : chars (ofChars l) = l.
Proof. apply list_ascii_of_string_of_list_ascii. Qed.

Lemma chars_app (a b : string) : chars (a +:+ b) = chars a ++ chars b.
Proof.
  unfold chars. induction a as [|c a IH]; simpl; [reflexivity|].
  now rewrite IH.
Qed.

Lemma digitVal_digitChar (d : Z) :
  (0 <= d <= 9)%Z -> digitVal (digitChar d) = Some d.
Proof.
  intros Hd.
  assert (Hc : (d = 0 \/ d = 1 \/ d = 2 \/ d = 3 \/ d = 4 \/ d = 5 \/ d = 6
               \/ d = 7 \/ d = 8 \/ d = 9)%Z) by lia.
  repeat (destruct Hc as [->|Hc]; [reflexivity|]). now subst.
Qed.

Lemma spanDigits_text (ds : list Z) :
  Forall (fun d => 0 <= d <= 9)%Z ds ->
  spanDigits (map digitChar ds) = (ds, []).
Proof.
  induction 1 as [|d ds Hd _ IH]; simpl; [reflexivity|].
  now rewrite (digitVal_digitChar d Hd), IH.
Qed.

Lemma digit_not_white (c : ascii) (v : Z) :
  digitVal c = Some v -> isWhite c = false.
Proof.
  unfold digitVal, isWhite. intros Hv.
  destruct (_ && _) eqn:Hr in Hv; [|discriminate].
  apply bool_decide_eq_false. lia.
Qed.

Lemma trimStart_keeps (c : ascii) (l : list ascii) :
  isWhite c = false -> trimStart (c :: l) = c :: l.
Proof. intros Hc. simpl. now rewrite Hc. Qed.

(** Trimming leaves a text that starts and ends with a digit as it is. *)
Lemma trim_digits (ds : list Z) :
  Forall (fun d => 0 <= d <= 9)%Z ds -> trim (map digitChar ds) = map digitChar ds.
Proof.
  intros Hds. unfold trim.
  destruct ds as [|d ds]; [reflexivity|].
  assert (Hfirst : trimStart (map digitChar (d :: ds)) = map digitChar (d :: ds)).
  { simpl map. apply trimStart_keeps.
    apply (digit_not_white _ d), digitVal_digitChar. now inversion Hds. }
  rewrite Hfirst.
  destruct (reverse (map digitChar (d :: ds))) as [|c r] eqn:Hrev.
  - apply (f_equal reverse) in Hrev. rewrite reverse_involutive in Hrev.
    discriminate Hrev.
  - assert (Hc : c ∈ map digitChar (d :: ds)).
    { apply elem_of_reverse. rewrite Hrev. left. }
    apply list_elem_of_fmap in Hc. destruct Hc as (e & -> & He).
    rewrite Forall_forall in Hds. specialize (Hds e He).
    rewrite trimStart_keeps.
    + rewrite <- Hrev. apply reverse_involutive.
    + apply (digit_not_white _ e), digitVal_digitChar, Hds.
Qed.

Lemma text_not_in (x : ascii) (ds : list Z) :
  Forall (fun d => 0 <= d <= 9)%Z ds -> digitVal x = None ->
  x ∉ map digitChar ds.
Proof.
  intros Hds Hx Hin. apply list_elem_of_fmap in Hin.
  destruct Hin as (d & -> & Hd).
  rewrite Forall_forall in Hds.
  rewrite (digitVal_digitChar d (Hds d Hd)) in Hx. discriminate Hx.
Qed.

Lemma parseNonDecimal_digit_second (c p : ascii) (rest : list ascii) (v : Z) :
  digitVal p = Some v -> parseNonDecimal (c :: p :: rest) = None.
Proof.
  intros Hp.
  destruct (decide (c = "0"%char)) as [->|Hne].
  - simpl. destruct rest as [|d ds]; [reflexivity|].
    rewrite !bool_decide_eq_false_2; [reflexivity|..];
      intros [Heq|Heq]; subst p; discriminate Hp.
  - unfold parseNonDecimal.
    destruct c as [[] [] [] [] [] [] [] []]; try reflexivity. now destruct Hne.
Qed.

Lemma parseNonDecimal_short (c : ascii) : parseNonDecimal [c] = None.
Proof. destruct c as [[] [] [] [] [] [] [] []]; reflexivity. Qed.

Lemma parseNonDecimal_digits (ds : list Z) :
  Forall (fun d => 0 <= d <= 9)%Z ds ->
  parseNonDecimal (map digitChar ds) = None.
Proof.
  intros Hds. destruct ds as [|d0 [|d1 ds]]; simpl map.
  - reflexivity.
  - apply parseNonDecimal_short.
  - apply (parseNonDecimal_digit_second _ _ _ d1), digitVal_digitChar.
    inversion Hds as [|? ? _ Hr]. now inversion Hr.
Qed.

Lemma parseDecimal_digits (ds : list Z) :
  Forall (fun d => 0 <= d <= 9)%Z ds ->
  parseDecimal (map digitChar ds) = parseUnsignedDecimal (map digitChar ds).
Proof.
  intros Hds. destruct ds as [|d ds]; [reflexivity|].
  inversion Hds as [|? ? Hd _]. simpl map.
  assert (Hc : (d = 0 \/ d = 1 \/ d = 2 \/ d = 3 \/ d = 4 \/ d = 5 \/ d = 6
               \/ d = 7 \/ d = 8 \/ d = 9)%Z) by lia.
  repeat (destruct Hc as [->|Hc]; [reflexivity|]). now subst.
Qed.

Lemma Qc_of_Z_times_one (v : Z) :
  (Qc_of_Z v * pow10 (0 - Z.of_nat (length (@nil Z))))%Qc = Qc_of_Z v.
Proof.
  replace (pow10 (0 - Z.of_nat (length (@nil Z)))) with 1%Qc by qc_eq.
  apply Qcmult_1_r.
Qed.

Lemma digitsValue_nonneg (ds : list Z) :
  Forall (fun d => 0 <= d <= 9) ds -> 0 <= digitsValue 10 ds.
Proof.
  unfold digitsValue. intros Hds.
  assert (H : forall acc, 0 <= acc ->
            0 <= foldl (fun acc d => 10 * acc + d) acc ds).
  { induction Hds as [|d ds Hd _ IH]; intros acc Hacc; simpl; [exact Hacc|].
    apply IH. lia. }
  apply H. lia.
Qed.

Lemma parseUnsignedDecimal_digits (ds : list Z) :
  isDigits ds ->
  parseUnsignedDecimal (map digitChar ds)
  = Some (round64 (Qc_of_Z (digitsValue 10 ds))).
Proof.
  intros [Hne Hds]. unfold parseUnsignedDecimal.
  rewrite bool_decide_eq_false_2.
  - rewrite (spanDigits_text _ Hds). rewrite app_nil_r.
    destruct ds as [|d ds]; [contradiction|].
    simpl parseExponent. cbv iota.
    now rewrite Qc_of_Z_times_one.
  - destruct ds as [|d ds]; [contradiction|]. simpl map. intros Heq.
    injection Heq as Heq _.
    inversion Hds as [|? ? Hd _].
    pose proof (digitVal_digitChar d Hd) as Hv. rewrite Heq in Hv.
    discriminate Hv.
Qed.

Lemma Number_nonempty (s : string) :
  trim (chars s) <> [] ->
  Number s =
    match parseNonDecimal (trim (chars s)) with
    | Some v => v
    | None => match parseDecimal (trim (chars s)) with
              | Some v => v
              | None => NaN
              end
    end.
Proof.
  intros Hne. unfold Number. destruct (trim (chars s)); [contradiction|reflexivity].
Qed.

(** [Number] reads a decimal numeral as the binary64 number nearest to its
    value. *)
Lemma Number_digits (ds : list Z) :
  isDigits ds ->
  Number (digitsText ds) = round64 (Qc_of_Z (digitsValue 10 ds)).
Proof.
  intros Hds. pose proof Hds as [Hne Hall].
  rewrite Number_nonempty; unfold digitsText;
    rewrite chars_ofChars, (trim_digits _ Hall).
  - rewrite (parseNonDecimal_digits _ Hall), (parseDecimal_digits _ Hall).
    now rewrite (parseUnsignedDecimal_digits _ Hds).
  - destruct ds; [contradiction|discriminate].
Qed.

(** A numeral of at most 53 bits is read as its value. *)
Lemma Number_digits_exact (ds : list Z) :
  isDigits ds -> (digitsValue 10 ds <= 2 ^ 53)%Z ->
  Number (digitsText ds) = num (digitsValue 10 ds).
Proof.
  intros Hds Hle. rewrite (Number_digits _ Hds).
  apply RoundFacts.round64_Z.
  pose proof (digitsValue_nonneg ds (proj2 Hds)). lia.
Qed.

Lemma sliceList_inner {A} (a m : list A) (z : A) :
  sliceList (a ++ m ++ [z]) (Z.of_nat (length a)) (-1) = m.
Proof.
  unfold sliceList, clampIndex. rewrite !length_app. simpl length.
  destruct (Z.ltb_spec (Z.of_nat (length a)) 0) as [Hlt|_]; [lia|].
  change (-1 <? 0)%Z with true. cbv iota.
  replace (Z.to_nat (Z.min _ _)) with (length a) by lia.
  replace (Z.to_nat _) with (length m) by lia.
  rewrite drop_app_length. apply take_app_length.
Qed.

Lemma splitList_no_sep (sep : ascii) (t : list ascii) :
  sep ∉ t -> splitList sep t = [t].
Proof.
  induction t as [|c t IH]; intros Hs; simpl; [reflexivity|].
  rewrite not_elem_of_cons in Hs. destruct Hs as [Hc Ht].
  rewrite bool_decide_eq_false_2 by congruence. now rewrite (IH Ht).
Qed.

Lemma splitList_app (sep : ascii) (t r : list ascii) :
  sep ∉ t -> splitList sep (t ++ sep :: r) = t :: splitList sep r.
Proof.
  induction t as [|c t IH]; intros Hs; simpl.
  - now rewrite bool_decide_eq_true_2.
  - rewrite not_elem_of_cons in Hs. destruct Hs as [Hc Ht].
    rewrite bool_decide_eq_false_2 by congruence. now rewrite (IH Ht).
Qed.

Lemma includesList_absent (c : ascii) (rest l : list ascii) :
  c ∉ l -> includesList (c :: rest) l = false.
Proof.
  induction l as [|x l IH]; intros Hc; simpl; [reflexivity|].
  rewrite not_elem_of_cons in Hc. destruct Hc as [Hx Hl].
  rewrite bool_decide_eq_false_2 by assumption. simpl. now apply IH.
Qed.

Lemma hexByte_parse (a b : ascii) (v : Z) :
  hexByte a b = Some v -> parseInt16 [a; b] = num v /\ (0 <= v <= 255)%Z.
Proof.
  unfold hexByte. destruct (hexVal a) as [x|] eqn:Ha; [|discriminate].
  destruct (hexVal b) as [y|] eqn:Hb; [|discriminate].
  intros Hv. injection Hv as <-.
  pose proof (hexVal_range _ _ Ha). pose proof (hexVal_range _ _ Hb).
  split; [now apply parseInt16_two|lia].
Qed.

Lemma hexByte_isHex (a b : ascii) (v : Z) :
  hexByte a b = Some v -> isHex a = true /\ isHex b = true.
Proof.
  unfold hexByte, isHex.
  destruct (hexVal a); [|discriminate]. destruct (hexVal b); [|discriminate].
  auto.
Qed.

Lemma isHex_hexByte (a b : ascii) :
  isHex a = true -> isHex b = true -> exists v, hexByte a b = Some v.
Proof.
  unfold hexByte, isHex.
  destruct (hexVal a); [|discriminate]. destruct (hexVal b); [|discriminate].
  eauto.
Qed.

Lemma hex_no_rgb (body : list ascii) :
  forallb isHex body = true ->
  includesList (chars "rgb") ("#"%char :: body) = false.
Proof.
  intros Hb. apply includesList_absent. rewrite not_elem_of_cons.
  split; [discriminate|]. intros Hin.
  rewrite forallb_forall in Hb. specialize (Hb "r"%char).
  rewrite <- list_elem_of_In in Hb. specialize (Hb Hin). discriminate Hb.
Qed.

(** Six hexadecimal digits after [#] are read two by two. *)
Lemma hex6_accepted (r1 r2 g1 g2 b1 b2 : ascii) (vr vg vb : Z) :
  hexByte r1 r2 = Some vr -> hexByte g1 g2 = Some vg ->
  hexByte b1 b2 = Some vb ->
  colorStringToArray (VString (ofChars ["#"%char; r1; r2; g1; g2; b1; b2]))
  = Some [num vr; num vg; num vb].
Proof.
  intros Hr Hg Hb.
  destruct (hexByte_isHex _ _ _ Hr) as [Hr1 Hr2].
  destruct (hexByte_isHex _ _ _ Hg) as [Hg1 Hg2].
  destruct (hexByte_isHex _ _ _ Hb) as [Hb1 Hb2].
  unfold colorStringToArray, includes. rewrite chars_ofChars.
  rewrite hex_no_rgb by (simpl; now rewrite Hr1, Hr2, Hg1, Hg2, Hb1, Hb2).
  cbn [includesList startsWith chars list_ascii_of_string bool_decide decide_rel orb andb]. cbv iota.
  unfold expandShorthand, matchShorthand, matchHex6. cbn [stripHash].
  cbn [forallb]. rewrite Hr1, Hr2, Hg1, Hg2, Hb1, Hb2. cbn [andb]. cbv iota.
  rewrite (proj1 (hexByte_parse _ _ _ Hr)), (proj1 (hexByte_parse _ _ _ Hg)),
    (proj1 (hexByte_parse _ _ _ Hb)).
  reflexivity.
Qed.

(** Three hexadecimal digits after [#] are doubled. *)
Lemma hex3_accepted (r g b : ascii) (vr vg vb : Z) :
  hexByte r r = Some vr -> hexByte g g = Some vg -> hexByte b b = Some vb ->
  colorStringToArray (VString (ofChars ["#"%char; r; g; b]))
  = Some [num vr; num vg; num vb].
Proof.
  intros Hr Hg Hb.
  destruct (hexByte_isHex _ _ _ Hr) as [Hr1 _].
  destruct (hexByte_isHex _ _ _ Hg) as [Hg1 _].
  destruct (hexByte_isHex _ _ _ Hb) as [Hb1 _].
  unfold colorStringToArray, includes. rewrite chars_ofChars.
  rewrite hex_no_rgb by (simpl; now rewrite Hr1, Hg1, Hb1).
  cbn [includesList startsWith chars list_ascii_of_string bool_decide decide_rel orb andb]. cbv iota.
  unfold expandShorthand, matchShorthand. cbn [stripHash].
  rewrite Hr1, Hg1, Hb1. cbn [andb]. cbv iota.
  unfold matchHex6. rewrite (stripHash_hex _ _ Hr1).
  cbn [forallb]. rewrite Hr1, Hg1, Hb1. cbn [andb]. cbv iota.
  rewrite (proj1 (hexByte_parse _ _ _ Hr)), (proj1 (hexByte_parse _ _ _ Hg)),
    (proj1 (hexByte_parse _ _ _ Hb)).
  reflexivity.
Qed.

(** A text without [rgb] is accepted only as [#] followed by three or six
    hexadecimal digits, and then gives three bytes. *)
Lemma hex_branch_shape (s : string) (rgb : list jsnum) :
  includes s "rgb" = false ->
  colorStringToArray (VString s) = Some rgb ->
  exists vr vg vb : Z,
    rgb = [num vr; num vg; num vb]
    /\ (0 <= vr <= 255 /\ 0 <= vg <= 255 /\ 0 <= vb <= 255)%Z
    /\ ((exists r g b, chars s = ["#"%char; r; g; b]
           /\ hexByte r r = Some vr /\ hexByte g g = Some vg
           /\ hexByte b b = Some vb)
        \/ (exists r1 r2 g1 g2 b1 b2,
              chars s = ["#"%char; r1; r2; g1; g2; b1; b2]
              /\ hexByte r1 r2 = Some vr /\ hexByte g1 g2 = Some vg
              /\ hexByte b1 b2 = Some vb)).
Proof.
  intros Hrgb. unfold colorStringToArray. rewrite Hrgb.
  destruct (includes s "#") eqn:Hh; [|discriminate].
  unfold includes in Hh. change (chars "#") with ["#"%char] in Hh.
  unfold expandShorthand.
  destruct (matchShorthand (chars s)) as [[[r g] b]|] eqn:Hm.
  - unfold matchShorthand in Hm.
    destruct (stripHash (chars s)) as [|r' [|g' [|b' [|]]]] eqn:Hs;
      try discriminate.
    destruct (isHex r' && isHex g' && isHex b') eqn:Hx; [|discriminate].
    injection Hm as -> -> ->.
    apply andb_true_iff in Hx. destruct Hx as [Hx Hb].
    apply andb_true_iff in Hx. destruct Hx as [Hr Hg].
    assert (Hcs : chars s = "#"%char :: [r; g; b]).
    { apply stripHash_hex_with_hash; auto. simpl. now rewrite Hr, Hg, Hb. }
    destruct (isHex_hexByte _ _ Hr Hr) as [vr Hvr].
    destruct (isHex_hexByte _ _ Hg Hg) as [vg Hvg].
    destruct (isHex_hexByte _ _ Hb Hb) as [vb Hvb].
    unfold matchHex6. rewrite (stripHash_hex _ _ Hr).
    cbn [forallb]. rewrite Hr, Hg, Hb. cbn [andb].
    rewrite (proj1 (hexByte_parse _ _ _ Hvr)), (proj1 (hexByte_parse _ _ _ Hvg)),
      (proj1 (hexByte_parse _ _ _ Hvb)).
    intros Heq. injection Heq as <-.
    exists vr, vg, vb. split; [reflexivity|].
    split; [|left; eauto 10].
    pose proof (hexByte_parse _ _ _ Hvr). pose proof (hexByte_parse _ _ _ Hvg).
    pose proof (hexByte_parse _ _ _ Hvb). tauto.
  - unfold matchHex6.
    destruct (stripHash (chars s))
      as [|r1 [|r2 [|g1 [|g2 [|b1 [|b2 [|x t]]]]]]] eqn:Hs; try discriminate.
    destruct (forallb isHex [r1; r2; g1; g2; b1; b2]) eqn:Hx; [|discriminate].
    assert (Hcs : chars s = "#"%char :: [r1; r2; g1; g2; b1; b2])
      by (apply stripHash_hex_with_hash; auto).
    cbn [forallb] in Hx.
    repeat (apply andb_true_iff in Hx; destruct Hx as [? Hx]).
    destruct (isHex_hexByte r1 r2) as [vr Hvr]; auto.
    destruct (isHex_hexByte g1 g2) as [vg Hvg]; auto.
    destruct (isHex_hexByte b1 b2) as [vb Hvb]; auto.
    rewrite (proj1 (hexByte_parse _ _ _ Hvr)), (proj1 (hexByte_parse _ _ _ Hvg)),
      (proj1 (hexByte_parse _ _ _ Hvb)).
    intros Heq. injection Heq as <-.
    exists vr, vg, vb. split; [reflexivity|].
    split; [|right; eauto 15].
    pose proof (hexByte_parse _ _ _ Hvr). pose proof (hexByte_parse _ _ _ Hvg).
    pose proof (hexByte_parse _ _ _ Hvb). tauto.
Qed.

Lemma rgbText_chars (r g b : list Z) :
  chars (rgbText r g b) =
    chars "rgb(" ++ (map digitChar r ++ ","%char :: map digitChar g
                      ++ ","%char :: map digitChar b) ++ [")"%char].
Proof.
  unfold rgbText, digitsText. rewrite !chars_app, !chars_ofChars.
  change (chars ",") with [","%char]. change (chars ")") with [")"%char].
  rewrite <- ?app_assoc. do 2 f_equal. simpl. f_equal.
  now rewrite <- app_assoc.
Qed.

Lemma rgbText_parsed (r g b : list Z) :
  isDigits r -> isDigits g -> isDigits b ->
  colorStringToArray (VString (rgbText r g b))
  = Some [round64 (Qc_of_Z (digitsValue 10 r));
          round64 (Qc_of_Z (digitsValue 10 g));
          round64 (Qc_of_Z (digitsValue 10 b))].
Proof.
  intros Hr Hg Hb. unfold colorStringToArray.
  assert (Hinc : includes (rgbText r g b) "rgb" = true).
  { unfold includes. rewrite rgbText_chars. reflexivity. }
  rewrite Hinc. f_equal. unfold split, slice.
  rewrite chars_ofChars, rgbText_chars.
  change 4%Z with (Z.of_nat (length (chars "rgb("))).
  rewrite sliceList_inner.
  assert (Hcomma : forall ds, isDigits ds -> ","%char ∉ map digitChar ds).
  { intros ds [_ Hds]. now apply text_not_in. }
  rewrite splitList_app by auto. rewrite splitList_app by auto.
  rewrite splitList_no_sep by auto.
  cbn [map]. fold (digitsText r) (digitsText g) (digitsText b).
  now rewrite !Number_digits.
Qed.

Lemma rgbText_exact (r g b : list Z) :
  isDigits r -> isDigits g -> isDigits b ->
  (digitsValue 10 r <= 2 ^ 53)%Z -> (digitsValue 10 g <= 2 ^ 53)%Z ->
  (digitsValue 10 b <= 2 ^ 53)%Z ->
  colorStringToArray (VString (rgbText r g b))
  = Some [num (digitsValue 10 r); num (digitsValue 10 g);
          num (digitsValue 10 b)].
Proof.
  intros Hr Hg Hb Lr Lg Lb. rewrite (rgbText_parsed r g b Hr Hg Hb).
  rewrite !RoundFacts.round64_Z; [reflexivity| | |];
    match goal with
    | |- (Z.abs (digitsValue 10 ?ds) <= _)%Z =>
        pose proof (digitsValue_nonneg ds ltac:(apply Hr || apply Hg || apply Hb));
        lia
    end.
Qed.

(** Values out of the range of binary64 are read as infinities, and a
    numeral of more than 53 bits as the nearest number that has 53. *)
Example Number_rounds :
  Number "1e1000" = PInf /\ Number "-1e1000" = NInf
  /\ Number "9007199254740993" = num 9007199254740992.
Proof. repeat split; js_eq. Qed.

(** C8, as the code has it.  [colorStringToArray] gives [null] for
    anything that is not a string and for a string with neither [rgb] nor [#]
    in it.  A string that contains [rgb] is never refused: the text between
    index 4 and the last character is cut at the commas and each piece goes
    through [Number], which for [rgb(r,g,b)] with decimal numerals is the
    triplet of the binary64 numbers nearest to their values: the values
    themselves when they are at most 2^53, while
    [rgb(9007199254740993,0,0)] is read with 9007199254740992.  Any other
    string is accepted exactly when it is [#] followed by three or six
    hexadecimal digits (three are doubled), and then gives three bytes.
    [#FFFFFF] gives 255, 255, 255; [#03F] gives 0, 51, 255; [not-a-color]
    gives [null]. *)
Theorem colorStringToArray_cases :
  (forall v, (forall s, v <> VString s) -> colorStringToArray v = None)
  /\ (forall s, includes s "rgb" = false -> includes s "#" = false ->
             colorStringToArray (VString s) = None)
  /\ (forall s, includes s "rgb" = true ->
             colorStringToArray (VString s)
             = Some (map Number (split (slice s 4 (-1)) ","%char)))
  /\ (forall r g b, isDigits r -> isDigits g -> isDigits b ->
             colorStringToArray (VString (rgbText r g b))
             = Some [round64 (Qc_of_Z (digitsValue 10 r));
                     round64 (Qc_of_Z (digitsValue 10 g));
                     round64 (Qc_of_Z (digitsValue 10 b))])
  /\ (forall r g b, isDigits r -> isDigits g -> isDigits b ->
             (digitsValue 10 r <= 2 ^ 53)%Z -> (digitsValue 10 g <= 2 ^ 53)%Z ->
             (digitsValue 10 b <= 2 ^ 53)%Z ->
             colorStringToArray (VString (rgbText r g b))
             = Some [num (digitsValue 10 r); num (digitsValue 10 g);
                     num (digitsValue 10 b)])
  /\ colorStringToArray (VString "rgb(9007199254740993,0,0)")
     = Some [num 9007199254740992; num 0; num 0]
  /\ (forall s rgb, includes s "rgb" = false ->
        colorStringToArray (VString s) = Some rgb ->
        exists vr vg vb : Z,
          rgb = [num vr; num vg; num vb]
          /\ (0 <= vr <= 255 /\ 0 <= vg <= 255 /\ 0 <= vb <= 255)%Z
          /\ ((exists r g b, chars s = ["#"%char; r; g; b]
                 /\ hexByte r r = Some vr /\ hexByte g g = Some vg
                 /\ hexByte b b = Some vb)
              \/ (exists r1 r2 g1 g2 b1 b2,
                    chars s = ["#"%char; r1; r2; g1; g2; b1; b2]
                    /\ hexByte r1 r2 = Some vr /\ hexByte g1 g2 = Some vg
                    /\ hexByte b1 b2 = Some vb)))
  /\ (forall r g b vr vg vb,
        hexByte r r = Some vr -> hexByte g g = Some vg ->
        hexByte b b = Some vb ->
        colorStringToArray (VString (ofChars ["#"%char; r; g; b]))
        = Some [num vr; num vg; num vb])
  /\ (forall r1 r2 g1 g2 b1 b2 vr vg vb,
        hexByte r1 r2 = Some vr -> hexByte g1 g2 = Some vg ->
        hexByte b1 b2 = Some vb ->
        colorStringToArray (VString (ofChars ["#"%char; r1; r2; g1; g2; b1; b2]))
        = Some [num vr; num vg; num vb])
  /\ colorStringToArray (VString "#FFFFFF") = Some [num 255; num 255; num 255]
  /\ colorStringToArray (VString "#03F") = Some [num 0; num 51; num 255]
  /\ colorStringToArray (VString "not-a-color") = None.
Proof.
  repeat apply conj.
  - intros v Hv. destruct v; try reflexivity. now destruct (Hv s).
  - intros s Hr Hh. unfold colorStringToArray. now rewrite Hr, Hh.
  - intros s Hr. unfold colorStringToArray. now rewrite Hr.
  - apply rgbText_parsed.
  - apply rgbText_exact.
  - js_eq.
  - apply hex_branch_shape.
  - apply hex3_accepted.
  - apply hex6_accepted.
  - reflexivity.
  - reflexivity.
  - reflexivity.
Qed.

Lemma colorStringToArray_cases_witness :
  isDigits [2; 5; 5]%Z /\ isDigits [0]%Z /\ isDigits [1; 2; 8]%Z
  /\ colorStringToArray (VString "rgb(255,0,128)")
     = Some [num 255; num 0; num 128].
Proof.
  assert (Hd : forall ds, ds <> [] ->
                 forallb (fun d => (0 <=? d)%Z && (d <=? 9)%Z) ds = true ->
                 isDigits ds).
  { intros ds Hne Hall. split; [exact Hne|].
    apply Forall_forall. intros d Hin.
    rewrite forallb_forall in Hall. apply list_elem_of_In in Hin.
    specialize (Hall d Hin). lia. }
  assert (H1 : isDigits [2; 5; 5]%Z) by (apply Hd; [discriminate|reflexivity]).
  assert (H2 : isDigits [0]%Z) by (apply Hd; [discriminate|reflexivity]).
  assert (H3 : isDigits [1; 2; 8]%Z) by (apply Hd; [discriminate|reflexivity]).
  split; [exact H1|]. split; [exact H2|]. split; [exact H3|].
  destruct colorStringToArray_cases as (_ & _ & _ & _ & Hrgb & _).
  exact (Hrgb [2; 5; 5]%Z [0]%Z [1; 2; 8]%Z H1 H2 H3
           ltac:(vm_compute; discriminate) ltac:(vm_compute; discriminate)
           ltac:(vm_compute; discriminate)).
Defined.

(** C8, as worded, fails: the text [rgb] is no colour form, and the
    result is the one-element array of [Number("")], not [null]; and
    [rgb(300,0,0)] is returned with its 300. *)
Lemma colorStringToArray_loose_rgb :
  colorStringToArray (VString "rgb") = Some [num 0]
  /\ colorStringToArray (VString "rgb") <> None
  /\ colorStringToArray (VString "rgb(300,0,0)")
     = Some [num 300; num 0; num 0].
Proof.
  split; [reflexivity|]. split; [discriminate|]. js_eq.
Qed.

End ColorFacts.

(** ** PaletteMatcher *)
Module PaletteFacts.

Import Str ColorSpace Palette JSFacts ColorFacts RoundFacts.

Lemma Qc_of_Z_add (a b : Z) : (Qc_of_Z a + Qc_of_Z b)%Qc = Qc_of_Z (a + b).
Proof.
  apply Qc_is_canon. simpl. rewrite Qred_correct.
  unfold Qeq, Qplus. simpl. lia.
Qed.

Lemma Qc_of_Z_opp (a : Z) : (- Qc_of_Z a)%Qc = Qc_of_Z (- a).
Proof.
  apply Qc_is_canon. simpl. rewrite Qred_correct. reflexivity.
Qed.

Lemma Qc_of_Z_mul (a b : Z) : (Qc_of_Z a * Qc_of_Z b)%Qc = Qc_of_Z (a * b).
Proof.
  apply Qc_is_canon. simpl. rewrite Qred_correct.
  unfold Qeq, Qmult. simpl. lia.
Qed.

Lemma Qc_of_Z_lt_iff (a b : Z) : (Qc_of_Z a < Qc_of_Z b)%Qc <-> (a < b)%Z.
Proof.
  unfold Qclt. simpl. unfold Qlt. simpl. lia.
Qed.

Lemma jlt_num (a b : Z) : jlt (num a) (num b) = bool_decide (a < b)%Z.
Proof.
  unfold num. simpl. apply bool_decide_ext, Qc_of_Z_lt_iff.
Qed.

Lemma pow2_sub_num (a b : Z) : pow2 (jsub (num a) (num b)) = num (sq a b).
Proof.
  unfold pow2, jsub, num, sq. simpl.
  now rewrite Qc_of_Z_opp, Qc_of_Z_add, Qc_of_Z_mul.
Qed.

Lemma distance_num (y1 u1 v1 y2 u2 v2 : Z) :
  distance (Some (num y1, num u1, num v1)) (Some (num y2, num u2, num v2))
  = Sqrt (num (sq y1 y2 + sq u1 u2 + sq v1 v2)).
Proof.
  unfold distance. cbn [comp]. rewrite !pow2_sub_num.
  unfold num. cbn [jadd]. now rewrite !Qc_of_Z_add.
Qed.

Lemma floor_bounds (q : Q) (lo hi : Z) :
  (inject_Z lo <= q)%Q -> (q < inject_Z (hi + 1))%Q ->
  (lo <= Qfloor q <= hi)%Z.
Proof.
  intros Hlo Hhi. split.
  - rewrite <- (Qfloor_Z lo). now apply Qfloor_resp_le.
  - assert (Hlt : (inject_Z (Qfloor q) < inject_Z (hi + 1))%Q).
    { eapply Qle_lt_trans; [apply Qfloor_le|exact Hhi]. }
    rewrite <- Zlt_Qlt in Hlt. lia.
Qed.

(** Closed side conditions of the interval lemmas. *)
Ltac closed := vm_compute; reflexivity.

(** In-gamut colours have their YUV channels in [[0, 255]].  Rounding is
    monotone, so each rounded product and sum lies between its values at the
    ends of the range of its operands. *)
Lemma rgbToYUV_gamut (rgb : RGBValue) :
  inGamut rgb ->
  exists y u v : Z,
    rgbToYUV rgb = Some (num y, num u, num v)
    /\ (0 <= y <= 255 /\ 0 <= u <= 255 /\ 0 <= v <= 255)%Z.
Proof.
  intros (r & g & b & rest & -> & Hr & Hg & Hb).
  assert (Hin : forall q : Qc, (0 <= q <= Qc_of_Z 255)%Qc ->
                  within 0 (inject_Z 255) (Fin q)).
  { intros q Hq. exists q. split; [reflexivity|exact Hq]. }
  apply Hin in Hr, Hg, Hb.
  unfold rgbToYUV, at_. cbn [nth].
  set (y := (_ +! _ +! _)%js). set (u := (_ +! _ +! _ +! _)%js).
  set (v := (_ +! _ +! _ +! _)%js).
  assert (Hy : exists z, floor y = num z /\ (0 <= z <= 255)%Z).
  { unfold y.
    pose proof (rmul_within_pos _ _ _ _ _ Hr (lit_within 299000 1000000 ltac:(closed))
                  ltac:(closed) ltac:(closed)) as H1.
    pose proof (rmul_within_pos _ _ _ _ _ Hg (lit_within 587000 1000000 ltac:(closed))
                  ltac:(closed) ltac:(closed)) as H2.
    pose proof (rmul_within_pos _ _ _ _ _ Hb (lit_within 114000 1000000 ltac:(closed))
                  ltac:(closed) ltac:(closed)) as H3.
    pose proof (radd_within _ _ _ _ _ _ H1 H2 ltac:(closed)) as H12.
    pose proof (radd_within _ _ _ _ _ _ H12 H3 ltac:(closed)) as H123.
    destruct (floor_within _ _ _ H123) as (z & Hz & Hlo & Hhi).
    exists z. split; [exact Hz|].
    split.
    - eapply Z.le_trans; [|exact Hlo]. vm_compute. discriminate.
    - eapply Z.le_trans; [exact Hhi|]. vm_compute. discriminate. }
  assert (Hu : exists z, floor u = num z /\ (0 <= z <= 255)%Z).
  { unfold u.
    pose proof (rmul_within_neg _ _ _ _ _ Hr (lit_within (-168736) 1000000 ltac:(closed))
                  ltac:(closed) ltac:(closed)) as H1.
    pose proof (rmul_within_neg _ _ _ _ _ Hg (lit_within (-331264) 1000000 ltac:(closed))
                  ltac:(closed) ltac:(closed)) as H2.
    pose proof (rmul_within_pos _ _ _ _ _ Hb (lit_within 500000 1000000 ltac:(closed))
                  ltac:(closed) ltac:(closed)) as H3.
    pose proof (radd_within _ _ _ _ _ _ H1 H2 ltac:(closed)) as H12.
    pose proof (radd_within _ _ _ _ _ _ H12 H3 ltac:(closed)) as H123.
    pose proof (radd_within _ _ _ _ _ _ H123 (num_within 128) ltac:(closed)) as H4.
    destruct (floor_within _ _ _ H4) as (z & Hz & Hlo & Hhi).
    exists z. split; [exact Hz|]. split.
    - eapply Z.le_trans; [|exact Hlo]. vm_compute. discriminate.
    - eapply Z.le_trans; [exact Hhi|]. vm_compute. discriminate. }
  assert (Hv : exists z, floor v = num z /\ (0 <= z <= 255)%Z).
  { unfold v.
    pose proof (rmul_within_pos _ _ _ _ _ Hr (lit_within 500000 1000000 ltac:(closed))
                  ltac:(closed) ltac:(closed)) as H1.
    pose proof (rmul_within_neg _ _ _ _ _ Hg (lit_within (-418688) 1000000 ltac:(closed))
                  ltac:(closed) ltac:(closed)) as H2.
    pose proof (rmul_within_neg _ _ _ _ _ Hb (lit_within (-81312) 1000000 ltac:(closed))
                  ltac:(closed) ltac:(closed)) as H3.
    pose proof (radd_within _ _ _ _ _ _ H1 H2 ltac:(closed)) as H12.
    pose proof (radd_within _ _ _ _ _ _ H12 H3 ltac:(closed)) as H123.
    pose proof (radd_within _ _ _ _ _ _ H123 (num_within 128) ltac:(closed)) as H4.
    destruct (floor_within _ _ _ H4) as (z & Hz & Hlo & Hhi).
    exists z. split; [exact Hz|]. split.
    - eapply Z.le_trans; [|exact Hlo]. vm_compute. discriminate.
    - eapply Z.le_trans; [exact Hhi|]. vm_compute. discriminate. }
  destruct Hy as (zy & -> & Hzy), Hu as (zu & -> & Hzu), Hv as (zv & -> & Hzv).
  exists zy, zu, zv. split; [reflexivity|]. auto.
Qed.

Lemma toZ_num (z : Z) : toZ (num z) = z.
Proof. unfold toZ, num. cbn [this Qc_of_Z]. apply Qfloor_Z. Qed.

Lemma distance_integral (c source : YUVValue) :
  integral c -> integral source ->
  distance c source = Sqrt (num (dist2 source c)).
Proof.
  intros (y1 & u1 & v1 & ->) (y2 & u2 & v2 & ->).
  rewrite distance_num. unfold dist2. cbn [comp]. now rewrite !toZ_num.
Qed.

Lemma root_lt_num (a b : Z) :
  root_lt (Sqrt (num a)) (Sqrt (num b)) = bool_decide (a < b)%Z.
Proof. unfold root_lt. cbn [radicand]. apply jlt_num. Qed.

(** The index found is the starting one or that of a visited entry. *)
Lemma snapLoop_index (cs : list ColorData) (src : YUVValue) :
  forall (i li : nat) (lv : Root),
    let k := fst (snapLoop cs src i li lv) in
    k = li \/ (i <= k < i + length cs)%nat.
Proof.
  induction cs as [|e cs IH]; intros i li lv; cbn [snapLoop].
  - left. reflexivity.
  - cbn zeta. destruct (root_lt _ lv).
    + specialize (IH (S i) i (distance (YUV e) src)). cbn zeta in IH.
      cbn [length]. destruct IH as [-> | IH]; right; lia.
    + specialize (IH (S i) li lv). cbn zeta in IH.
      cbn [length]. destruct IH as [-> | IH]; [left; reflexivity|right; lia].
Qed.

(** What the loop computes when every distance is the root of a whole
    number: the first entry at the smallest distance, if that distance is
    below the starting value, and the starting pair otherwise. *)
Lemma snapLoop_spec (src : YUVValue) (f : ColorData -> Z) (cs : list ColorData) :
  (forall e, e ∈ cs -> distance (YUV e) src = Sqrt (num (f e))) ->
  forall (i li : nat) (v0 : Z),
  exists (k : nat) (vz : Z),
    snapLoop cs src i li (Sqrt (num v0)) = (k, Sqrt (num vz))
    /\ ((k = li /\ vz = v0 /\ forall e, e ∈ cs -> (v0 <= f e)%Z)
        \/ (exists j e,
              cs !! j = Some e /\ k = (i + j)%nat /\ vz = f e /\ (vz < v0)%Z
              /\ (forall j' e', (j' < j)%nat -> cs !! j' = Some e' ->
                                (vz < f e')%Z)
              /\ (forall j' e', cs !! j' = Some e' -> (vz <= f e')%Z))).
Proof.
  induction cs as [|e cs IH]; intros Hd i li v0.
  - exists li, v0. split; [reflexivity|]. left.
    split; [reflexivity|]. split; [reflexivity|].
    intros e He. inversion He.
  - assert (Hde : distance (YUV e) src = Sqrt (num (f e)))
      by (apply Hd; left).
    assert (Hd' : forall e', e' ∈ cs -> distance (YUV e') src = Sqrt (num (f e')))
      by (intros e' He'; apply Hd; now right).
    cbn [snapLoop]. cbn zeta. rewrite Hde, root_lt_num.
    destruct (decide (f e < v0)%Z) as [Hlt|Hge].
    + rewrite (bool_decide_eq_true_2 _ Hlt).
      destruct (IH Hd' (S i) i (f e)) as (k & vz & Heq & Hcase).
      exists k, vz. split; [exact Heq|]. right.
      destruct Hcase as [(-> & -> & Hall) | (j & e1 & Hj & -> & -> & Hlt1 & Hbefore & Hany)].
      * exists 0%nat, e. split; [reflexivity|]. split; [lia|].
        split; [reflexivity|]. split; [exact Hlt|]. split.
        -- intros j' e' Hj'. lia.
        -- intros [|j'] e' Hj'; cbn in Hj'.
           ++ injection Hj' as <-. lia.
           ++ apply Hall. eapply list_elem_of_lookup_2. exact Hj'.
      * exists (S j), e1. split; [exact Hj|]. split; [lia|].
        split; [reflexivity|]. split; [lia|]. split.
        -- intros [|j'] e' Hlt' Hj'; cbn in Hj'.
           ++ injection Hj' as <-. exact Hlt1.
           ++ apply (Hbefore j'); [lia|exact Hj'].
        -- intros [|j'] e' Hj'; cbn in Hj'.
           ++ injection Hj' as <-. lia.
           ++ apply (Hany j'); exact Hj'.
    + rewrite (bool_decide_eq_false_2 _ Hge).
      destruct (IH Hd' (S i) li v0) as (k & vz & Heq & Hcase).
      exists k, vz. split; [exact Heq|].
      destruct Hcase as [(-> & -> & Hall) | (j & e1 & Hj & -> & -> & Hlt1 & Hbefore & Hany)].
      * left. split; [reflexivity|]. split; [reflexivity|].
        intros e' He'. apply elem_of_cons in He'.
        destruct He' as [-> | He']; [lia|now apply Hall].
      * right. exists (S j), e1. split; [exact Hj|]. split; [lia|].
        split; [reflexivity|]. split; [exact Hlt1|]. split.
        -- intros [|j'] e' Hlt' Hj'; cbn in Hj'.
           ++ injection Hj' as <-. lia.
           ++ apply (Hbefore j'); [lia|exact Hj'].
        -- intros [|j'] e' Hj'; cbn in Hj'.
           ++ injection Hj' as <-. lia.
           ++ apply (Hany j'); exact Hj'.
Qed.

(** The entries of a palette are rendered from their own text. *)
Lemma setup_lookup (hexes : list string) (k : nat) (e : ColorData) :
  snapColorSetup hexes !! k = Some e ->
  RGB e = colorStringToArray (VString (HEX e)) /\ YUV e = rgbToYUV (RGB e).
Proof.
  unfold snapColorSetup. rewrite list_lookup_imap_Some.
  intros (hex & _ & ->). split; reflexivity.
Qed.

Lemma setup_elem (hexes : list string) (e : ColorData) :
  e ∈ snapColorSetup hexes ->
  RGB e = colorStringToArray (VString (HEX e)) /\ YUV e = rgbToYUV (RGB e).
Proof.
  intros Hin. apply list_elem_of_lookup in Hin. destruct Hin as [k Hk].
  now apply (setup_lookup hexes k).
Qed.

(** [slice(0, l)] keeps a prefix. *)
Lemma sliceList_prefix {A} (cs : list A) (l : Z) :
  exists n : nat, sliceList cs 0 l = take n cs.
Proof.
  unfold sliceList, clampIndex. eexists.
  change (0 <? 0)%Z with false. cbv iota.
  replace (Z.min 0 (Z.of_nat (length cs))) with 0%Z by lia.
  change (Z.to_nat 0) with 0%nat. rewrite drop_0. reflexivity.
Qed.

Lemma limited_prefix {A} (cs : list A) (limit : option Z) :
  exists n : nat, limited cs limit = take n cs.
Proof.
  destruct limit as [l|]; cbn [limited].
  - destruct (l =? 0)%Z.
    + exists (length cs). now rewrite take_ge.
    + apply sliceList_prefix.
  - exists (length cs). now rewrite take_ge.
Qed.

Lemma limited_positive {A} (cs : list A) (l : Z) :
  (1 <= l)%Z -> limited cs (Some l) = take (Z.to_nat l) cs.
Proof.
  intros Hl. cbn [limited].
  destruct (Z.eqb_spec l 0) as [->|_]; [lia|].
  unfold sliceList, clampIndex.
  change (0 <? 0)%Z with false. cbv iota.
  destruct (Z.ltb_spec l 0) as [Hlt|_]; [lia|].
  replace (Z.min 0 (Z.of_nat (length cs))) with 0%Z by lia.
  change (Z.to_nat 0) with 0%nat. rewrite drop_0.
  destruct (decide (l <= Z.of_nat (length cs))%Z) as [Hle|Hgt].
  - f_equal. lia.
  - rewrite !take_ge by lia. reflexivity.
Qed.

Lemma limited_lookup {A} (cs : list A) (limit : option Z) (j : nat) (x : A) :
  limited cs limit !! j = Some x -> cs !! j = Some x.
Proof.
  destruct (limited_prefix cs limit) as [n ->].
  rewrite lookup_take_Some. tauto.
Qed.

Lemma limited_elem {A} (cs : list A) (limit : option Z) (x : A) :
  x ∈ limited cs limit -> x ∈ cs.
Proof.
  intros Hin. apply list_elem_of_lookup in Hin. destruct Hin as [j Hj].
  eapply list_elem_of_lookup_2, limited_lookup, Hj.
Qed.

(** With a limit of at least one the index is below the limit, whatever the
    palette and the source. *)
Lemma snapColor_below_limit (pal : list ColorData) (source : Source) (l : Z) :
  (1 <= l)%Z -> (Z.of_nat (snapColor pal source (Some l)) < l)%Z.
Proof.
  intros Hl. unfold snapColor, snapColorRun.
  pose proof (snapLoop_index (limited pal (Some l))
                (rgbToYUV (sourceRGB source)) 0 0 thousand) as Hk.
  cbn zeta in Hk. rewrite (limited_positive _ _ Hl) in *.
  rewrite length_take in Hk.
  set (k := fst _) in *. clearbody k.
  lia.
Qed.

Lemma inGamut_integral (rgb : RGBValue) : inGamut rgb -> integral (rgbToYUV rgb).
Proof.
  intros Hg. destruct (rgbToYUV_gamut _ Hg) as (y & u & v & Heq & _).
  exists y, u, v. exact Heq.
Qed.

Lemma sq_nonneg (a b : Z) : (0 <= sq a b)%Z.
Proof. unfold sq. apply Z.square_nonneg. Qed.

Lemma sq_zero (a b : Z) : sq a b = 0%Z -> a = b.
Proof.
  unfold sq. intros Hz. apply Z.mul_eq_0 in Hz. lia.
Qed.

Lemma sq_bound (a b : Z) :
  (0 <= a <= 255)%Z -> (0 <= b <= 255)%Z -> (sq a b <= 65025)%Z.
Proof.
  intros Ha Hb. unfold sq.
  destruct (Z.le_ge_cases 0 (a - b)) as [Hd|Hd].
  - change 65025%Z with (255 * 255)%Z.
    apply Z.mul_le_mono_nonneg; lia.
  - replace ((a - b) * (a - b))%Z with ((b - a) * (b - a))%Z by ring.
    change 65025%Z with (255 * 255)%Z.
    apply Z.mul_le_mono_nonneg; lia.
Qed.

(** Colours in gamut are at a distance below the starting value. *)
Lemma dist2_gamut (rgb1 rgb2 : RGBValue) :
  inGamut rgb1 -> inGamut rgb2 ->
  (dist2 (rgbToYUV rgb2) (rgbToYUV rgb1) < 1000000)%Z.
Proof.
  intros H1 H2.
  destruct (rgbToYUV_gamut _ H1) as (y1 & u1 & v1 & -> & Hy1 & Hu1 & Hv1).
  destruct (rgbToYUV_gamut _ H2) as (y2 & u2 & v2 & -> & Hy2 & Hu2 & Hv2).
  unfold dist2. cbn [comp]. rewrite !toZ_num.
  pose proof (sq_bound _ _ Hy1 Hy2). pose proof (sq_bound _ _ Hu1 Hu2).
  pose proof (sq_bound _ _ Hv1 Hv2). lia.
Qed.

Lemma inGamut_bytes (r g b : Z) :
  (0 <= r <= 255)%Z -> (0 <= g <= 255)%Z -> (0 <= b <= 255)%Z ->
  inGamut (Some [num r; num g; num b]).
Proof.
  intros Hr Hg Hb. exists (Qc_of_Z r), (Qc_of_Z g), (Qc_of_Z b), [].
  split; [reflexivity|].
  assert (Hle : forall z : Z, (0 <= z <= 255)%Z ->
                  (0 <= Qc_of_Z z <= Qc_of_Z 255)%Qc).
  { intros z Hz. unfold Qcle. cbn [this Qc_of_Z Q2Qc].
    split; [change (Qred 0) with (inject_Z 0)|]; rewrite <- Zle_Qle; lia. }
  auto.
Qed.

(** A hexadecimal colour text is read as a colour in gamut. *)
Lemma isHexColor_gamut (s : string) :
  isHexColor s = true -> inGamut (colorStringToArray (VString s)).
Proof.
  unfold isHexColor. intros Hs.
  assert (Hof : s = ofChars (chars s))
    by (symmetry; apply string_of_list_ascii_of_string).
  destruct (chars s) as [|c body] eqn:Hc; [discriminate|].
  destruct (decide (c = "#"%char)) as [->|Hne].
  2:{ destruct c as [[] [] [] [] [] [] [] []]; try discriminate.
      now destruct Hne. }
  apply andb_true_iff in Hs. destruct Hs as [Hlen Hhex].
  apply orb_true_iff in Hlen. rewrite !bool_decide_eq_true in Hlen.
  rewrite Hof.
  destruct Hlen as [Hlen|Hlen].
  - destruct body as [|r [|g [|b [|]]]]; try discriminate.
    cbn [forallb] in Hhex.
    repeat (apply andb_true_iff in Hhex; destruct Hhex as [? Hhex]).
    destruct (isHex_hexByte r r) as [vr Hvr]; auto.
    destruct (isHex_hexByte g g) as [vg Hvg]; auto.
    destruct (isHex_hexByte b b) as [vb Hvb]; auto.
    rewrite (hex3_accepted _ _ _ _ _ _ Hvr Hvg Hvb).
    apply inGamut_bytes; eapply hexByte_parse; eassumption.
  - destruct body as [|r1 [|r2 [|g1 [|g2 [|b1 [|b2 [|]]]]]]]; try discriminate.
    cbn [forallb] in Hhex.
    repeat (apply andb_true_iff in Hhex; destruct Hhex as [? Hhex]).
    destruct (isHex_hexByte r1 r2) as [vr Hvr]; auto.
    destruct (isHex_hexByte g1 g2) as [vg Hvg]; auto.
    destruct (isHex_hexByte b1 b2) as [vb Hvb]; auto.
    rewrite (hex6_accepted _ _ _ _ _ _ _ _ _ Hvr Hvg Hvb).
    apply inGamut_bytes; eapply hexByte_parse; eassumption.
Qed.

Lemma inGamut_finite (rgb : RGBValue) : inGamut rgb -> finiteRGB rgb.
Proof. intros (r & g & b & rest & -> & _). exists r, g, b, rest. reflexivity. Qed.

(** A finite source array is used as it is. *)
Lemma sourceRGB_array (a : list jsnum) :
  finiteRGB (Some a) -> sourceRGB (SArray a) = Some a.
Proof. intros (r & g & b & rest & Heq). injection Heq as ->. reflexivity. Qed.

Lemma sourceRGB_string (s : string) :
  finiteRGB (colorStringToArray (VString s)) ->
  sourceRGB (SString s) = colorStringToArray (VString s).
Proof.
  intros (r & g & b & rest & Heq). unfold sourceRGB. rewrite Heq. reflexivity.
Qed.

(** A palette of hexadecimal colour texts is in gamut. *)
Lemma hex_palette_gamut (hexes : list string) :
  forallb isHexColor hexes = true ->
  Forall (fun e => inGamut (RGB e)) (snapColorSetup hexes).
Proof.
  intros Hall. apply Forall_forall. intros e He.
  apply elem_of_lookup_imap_1 in He. destruct He as (i & hex & -> & Hi).
  cbn [RGB renderColorData]. apply isHexColor_gamut.
  rewrite forallb_forall in Hall. apply Hall.
  apply list_elem_of_In. eapply list_elem_of_lookup_2, Hi.
Qed.

(** C3, as the code has it.  With a limit of at least one the index
    returned is below the limit, for every palette and source (so a limit of
    2 returns 0 or 1 only); a limit of at least one keeps the first [limit]
    entries, while no limit and a limit of 0 keep them all.  For a palette
    and a source in gamut, and as soon as an entry is kept, the index is that
    of a kept entry whose YUV distance to the source is the smallest, and
    every kept entry before it is strictly farther. *)
Theorem snapColor_nearest :
  (forall pal source l,
      (1 <= l)%Z -> (Z.of_nat (snapColor pal source (Some l)) < l)%Z)
  /\ (forall pal source,
        snapColor pal source (Some 2%Z) = 0%nat
        \/ snapColor pal source (Some 2%Z) = 1%nat)
  /\ (forall (pal : list ColorData) l,
        (1 <= l)%Z -> limited pal (Some l) = take (Z.to_nat l) pal)
  /\ (forall pal : list ColorData,
        limited pal None = pal /\ limited pal (Some 0%Z) = pal)
  /\ (forall hexes source limit,
        let pal := snapColorSetup hexes in
        let cs := limited pal limit in
        Forall (fun e => inGamut (RGB e)) pal ->
        inGamut (sourceRGB source) ->
        cs <> [] ->
        let k := snapColor pal source limit in
        exists ek,
          cs !! k = Some ek
          /\ snapColorRun pal source limit = (k, entryDistance source ek)
          /\ (forall j ej, cs !! j = Some ej ->
                root_lt (entryDistance source ej) (entryDistance source ek)
                = false)
          /\ (forall j ej, (j < k)%nat -> cs !! j = Some ej ->
                root_lt (entryDistance source ek) (entryDistance source ej)
                = true)).
Proof.
  split; [exact snapColor_below_limit|].
  split.
  { intros pal source.
    pose proof (snapColor_below_limit pal source 2 ltac:(lia)). lia. }
  split; [intros pal l; apply limited_positive|].
  split; [intros pal; split; reflexivity|].
  intros hexes source limit pal cs Hpal Hsrc Hne k.
  set (src := rgbToYUV (sourceRGB source)).
  assert (Hint : forall e, e ∈ cs ->
            distance (YUV e) src = Sqrt (num (dist2 src (YUV e)))
            /\ (dist2 src (YUV e) < 1000000)%Z).
  { intros e He. apply limited_elem in He.
    destruct (setup_elem _ _ He) as [_ Hy].
    rewrite Forall_forall in Hpal. specialize (Hpal e He).
    rewrite Hy. split.
    - apply distance_integral; now apply inGamut_integral.
    - now apply dist2_gamut. }
  destruct (snapLoop_spec src (fun e => dist2 src (YUV e)) cs
              (fun e He => proj1 (Hint e He)) 0%nat 0%nat 1000000%Z)
    as (k' & vz & Heq & Hcase).
  assert (Hrun : snapColorRun pal source limit = (k', Sqrt (num vz)))
    by exact Heq.
  assert (Hk : k = k') by (unfold k, snapColor; now rewrite Hrun).
  destruct Hcase as [(_ & _ & Hall) | (j & e & Hj & Hkj & Hvz & _ & Hbefore & Hany)].
  - exfalso. destruct cs as [|e cs']; [contradiction|].
    specialize (Hall e ltac:(left)).
    destruct (Hint e ltac:(left)) as [_ Hlt]. lia.
  - cbn in Hkj. subst k' vz. exists e. rewrite Hk.
    assert (He : distance (YUV e) src = Sqrt (num (dist2 src (YUV e))))
      by (apply Hint; eapply list_elem_of_lookup_2, Hj).
    split; [exact Hj|]. split.
    { rewrite Hrun. unfold entryDistance. fold src. now rewrite He. }
    unfold entryDistance. fold src. rewrite He. split.
    + intros j' ej Hj'.
      rewrite (proj1 (Hint ej (list_elem_of_lookup_2 _ _ _ Hj'))), root_lt_num.
      apply bool_decide_eq_false. specialize (Hany j' ej Hj'). lia.
    + intros j' ej Hlt Hj'.
      rewrite (proj1 (Hint ej (list_elem_of_lookup_2 _ _ _ Hj'))), root_lt_num.
      apply bool_decide_eq_true. exact (Hbefore j' ej Hlt Hj').
Qed.

Lemma snapColor_nearest_witness :
  let pal := snapColorSetup pancakeShades in
  let source := SString "#a6720e" in
  let cs := limited pal (Some 3%Z) in
  Forall (fun e => inGamut (RGB e)) pal
  /\ inGamut (sourceRGB source)
  /\ cs <> []
  /\ exists ek,
       cs !! snapColor pal source (Some 3%Z) = Some ek
       /\ snapColorRun pal source (Some 3%Z)
          = (snapColor pal source (Some 3%Z), entryDistance source ek)
       /\ (forall j ej, cs !! j = Some ej ->
             root_lt (entryDistance source ej) (entryDistance source ek)
             = false)
       /\ (forall j ej, (j < snapColor pal source (Some 3%Z))%nat ->
             cs !! j = Some ej ->
             root_lt (entryDistance source ek) (entryDistance source ej)
             = true).
Proof.
  intros pal source cs.
  assert (Hpal : Forall (fun e => inGamut (RGB e)) pal)
    by (apply hex_palette_gamut; reflexivity).
  assert (Hsrc : inGamut (sourceRGB source)).
  { unfold source. rewrite sourceRGB_string.
    - apply isHexColor_gamut. reflexivity.
    - apply inGamut_finite, isHexColor_gamut. reflexivity. }
  assert (Hne : cs <> []) by discriminate.
  split; [exact Hpal|]. split; [exact Hsrc|]. split; [exact Hne|].
  destruct snapColor_nearest as (_ & _ & _ & _ & Hnear).
  exact (Hnear pancakeShades source (Some 3%Z) Hpal Hsrc Hne).
Defined.

(** C3, as worded, fails.  A limit of 0 is not applied: black is matched
    to entry 1 of a white and black palette, which is not among the first 0
    entries and not in [[0, 0)]; and on an empty palette the index 0 is
    returned although no entry has it. *)
Lemma snapColor_limit_zero_ignored :
  snapColor (snapColorSetup ["#FFFFFF"; "#000000"]) (SString "#000000")
            (Some 0%Z) = 1%nat
  /\ ~ (Z.of_nat (snapColor (snapColorSetup ["#FFFFFF"; "#000000"])
                            (SString "#000000") (Some 0%Z)) < 0)%Z
  /\ snapColor (snapColorSetup []) (SString "#000000") (Some 2%Z) = 0%nat
  /\ snapColorSetup [] !! 0%nat = None.
Proof.
  assert (H1 : snapColor (snapColorSetup ["#FFFFFF"; "#000000"])
                 (SString "#000000") (Some 0%Z) = 1%nat) by reflexivity.
  split; [exact H1|]. split; [rewrite H1; lia|]. split; reflexivity.
Qed.

(** Why the gamut matters: the search starts from 1000, so a source farther
    than that from every entry is matched to entry 0 even when another entry
    is nearer. *)
Example snapColor_far_source :
  let pal := snapColorSetup ["#000000"; "#FFFFFF"] in
  let source := SArray [num 2000; num 2000; num 2000] in
  snapColor pal source None = 0%nat
  /\ root_lt (distance (YUV (renderColorData "#FFFFFF" "color1"))
                      (rgbToYUV (sourceRGB source)))
             (distance (YUV (renderColorData "#000000" "color0"))
                       (rgbToYUV (sourceRGB source))) = true.
Proof. split; reflexivity. Qed.

(** The sums of [rgbToYUV] are the rounded ones.  The luma of (4, 244, 84)
    is 154 as a sum of decimals and 153 as the code adds it up, and with 153
    the nearest shade of the editor palette is entry 2. *)
Example snapColor_rounded_luma :
  rgbToYUV (Some [num 4; num 244; num 84]) = Some (num 153, num 88, num 21)
  /\ snapColor (snapColorSetup pancakeShades)
               (SArray [num 4; num 244; num 84]) None = 2%nat.
Proof. split; vm_compute; reflexivity. Qed.

(** Two dark greys with one YUV value: the luma of (1, 1, 1) is floored to
    0, so in a palette that holds both the second one is matched to the
    first. *)
Example rgbToYUV_dark_greys :
  rgbToYUV (colorStringToArray (VString "#000000"))
  = Some (num 0, num 128, num 128)
  /\ rgbToYUV (colorStringToArray (VString "#010101"))
     = Some (num 0, num 128, num 128)
  /\ snapColor (snapColorSetup ["#000000"; "#010101"]) (SString "#010101") None
     = 0%nat.
Proof. repeat split; vm_compute; reflexivity. Qed.

Lemma dist2_self (c : YUVValue) : dist2 c c = 0%Z.
Proof. unfold dist2, sq. lia. Qed.

Lemma dist2_zero (c source : YUVValue) :
  integral c -> integral source -> dist2 source c = 0%Z -> c = source.
Proof.
  intros (y1 & u1 & v1 & ->) (y2 & u2 & v2 & ->). unfold dist2.
  cbn [comp]. rewrite !toZ_num. intros Hz.
  pose proof (sq_nonneg y1 y2). pose proof (sq_nonneg u1 u2).
  pose proof (sq_nonneg v1 v2).
  rewrite (sq_zero y1 y2), (sq_zero u1 u2), (sq_zero v1 v2) by lia.
  reflexivity.
Qed.

(** The match of a source whose YUV value is that of entry [k], in a
    palette of finite colours with pairwise distinct YUV values. *)
Lemma snapLoop_own (pal : list ColorData) (k : nat) (ek : ColorData) :
  Forall (fun e => integral (YUV e)) pal ->
  NoDup (map YUV pal) ->
  pal !! k = Some ek ->
  snapLoop pal (YUV ek) 0 0 thousand = (k, zeroRoot).
Proof.
  intros Hint Hnd Hk. rewrite Forall_forall in Hint.
  assert (Hek : integral (YUV ek))
    by (apply Hint; eapply list_elem_of_lookup_2, Hk).
  destruct (snapLoop_spec (YUV ek) (fun e => dist2 (YUV ek) (YUV e)) pal
              (fun e He => distance_integral _ _ (Hint e He) Hek)
              0%nat 0%nat 1000000%Z)
    as (k' & vz & Heq & Hcase).
  unfold thousand. rewrite Heq.
  destruct Hcase as [(_ & _ & Hall) | (j & e & Hj & Hkj & Hvz & _ & _ & Hany)].
  - exfalso. specialize (Hall ek (list_elem_of_lookup_2 _ _ _ Hk)).
    rewrite dist2_self in Hall. lia.
  - specialize (Hany k ek Hk). rewrite dist2_self in Hany.
    pose proof (sq_nonneg 0 0) as _.
    assert (Hz : dist2 (YUV ek) (YUV e) = 0%Z).
    { subst vz. unfold dist2 in *.
      pose proof (sq_nonneg (toZ (comp (YUV e) 0)) (toZ (comp (YUV ek) 0))).
      pose proof (sq_nonneg (toZ (comp (YUV e) 1)) (toZ (comp (YUV ek) 1))).
      pose proof (sq_nonneg (toZ (comp (YUV e) 2)) (toZ (comp (YUV ek) 2))).
      lia. }
    assert (Hsame : YUV e = YUV ek).
    { apply dist2_zero; auto. apply Hint. eapply list_elem_of_lookup_2, Hj. }
    assert (Hjk : j = k).
    { eapply (NoDup_lookup (map YUV pal)); [exact Hnd| |].
      - rewrite list_lookup_fmap, Hj. cbn. rewrite Hsame. reflexivity.
      - rewrite list_lookup_fmap, Hk. reflexivity. }
    cbn in Hkj. subst. rewrite Hz. reflexivity.
Qed.

(** An entry given as a hexadecimal text that has a YUV value at all is a
    finite colour. *)
Lemma hex_entry_finite (hexes : list string) (e : ColorData) :
  e ∈ snapColorSetup hexes ->
  includes (HEX e) "rgb" = false -> YUV e <> None ->
  finiteRGB (RGB e).
Proof.
  intros He Hrgb Hyuv. destruct (setup_elem _ _ He) as [Hr Hy].
  destruct (RGB e) as [rgb|] eqn:Hrgbe.
  - symmetry in Hr.
    destruct (hex_branch_shape _ _ Hrgb Hr) as (vr & vg & vb & -> & _).
    eexists _, _, _, []. reflexivity.
  - rewrite Hy in Hyuv. now destruct Hyuv.
Qed.

(** A colour whose YUV value is made of whole numbers has a number as its
    first channel. *)
Lemma integral_not_nan (rgb : RGBValue) :
  integral (rgbToYUV rgb) ->
  exists a, rgb = Some a /\ isNaN (at_ a 0) = false.
Proof.
  intros (y & u & v & Heq). destruct rgb as [a|]; [|discriminate Heq].
  exists a. split; [reflexivity|].
  unfold rgbToYUV in Heq. destruct (at_ a 0) eqn:Ha; try reflexivity.
  cbn [rmul jmul rounded radd jadd floor] in Heq. discriminate Heq.
Qed.

(** Palettes of colours in gamut, those of hexadecimal texts among them,
    have YUV values made of whole numbers. *)
Lemma gamut_palette_integral (hexes : list string) :
  Forall (fun e => inGamut (RGB e)) (snapColorSetup hexes) ->
  Forall (fun e => integral (YUV e)) (snapColorSetup hexes).
Proof.
  rewrite !Forall_forall. intros Hg e He.
  rewrite (proj2 (setup_elem _ _ He)). apply inGamut_integral. now apply Hg.
Qed.

Lemma hex_palette_integral (hexes : list string) :
  forallb isHexColor hexes = true ->
  Forall (fun e => integral (YUV e)) (snapColorSetup hexes).
Proof. intros Hall. now apply gamut_palette_integral, hex_palette_gamut. Qed.

(** C9, as the code has it.  In a palette built by [snapColorSetup] whose
    entries all have a YUV value made of three whole numbers (every entry
    written as [#] and hexadecimal digits has one, a text that is no colour
    has none), these values being pairwise distinct, matching the reference
    colour of entry [k], given as its text or as its RGB array and with no
    limit, returns [k] with distance 0. *)
Theorem snapColor_own_color (hexes : list string) (k : nat) (ek : ColorData) :
  let pal := snapColorSetup hexes in
  Forall (fun e => integral (YUV e)) pal ->
  NoDup (map YUV pal) ->
  pal !! k = Some ek ->
  snapColorRun pal (SString (HEX ek)) None = (k, zeroRoot)
  /\ snapColor pal (SString (HEX ek)) None = k
  /\ (forall a, RGB ek = Some a ->
        snapColorRun pal (SArray a) None = (k, zeroRoot)
        /\ snapColor pal (SArray a) None = k).
Proof.
  intros pal Hint Hnd Hk.
  destruct (setup_lookup _ _ _ Hk) as [Hrgb Hyuv].
  assert (Hek : integral (YUV ek)).
  { rewrite Forall_forall in Hint. apply Hint.
    eapply list_elem_of_lookup_2, Hk. }
  rewrite Hyuv in Hek.
  destruct (integral_not_nan _ Hek) as (a0 & Ha0 & Hnan).
  pose proof (snapLoop_own pal k ek Hint Hnd Hk) as Hloop.
  assert (Hs : snapColorRun pal (SString (HEX ek)) None = (k, zeroRoot)).
  { unfold snapColorRun, sourceRGB. cbn [limited].
    rewrite <- Hrgb, Ha0, Hnan, <- Ha0, <- Hyuv. exact Hloop. }
  split; [exact Hs|]. split; [unfold snapColor; now rewrite Hs|].
  intros a Ha.
  assert (Hr : snapColorRun pal (SArray a) None = (k, zeroRoot)).
  { unfold snapColorRun, sourceRGB. cbn [limited].
    assert (a = a0) by congruence. subst a0.
    rewrite Hnan, <- Ha, <- Hyuv. exact Hloop. }
  split; [exact Hr|]. unfold snapColor. now rewrite Hr.
Qed.

Lemma snapColor_own_color_witness :
  let pal := snapColorSetup pancakeShades in
  Forall (fun e => integral (YUV e)) pal
  /\ NoDup (map YUV pal)
  /\ snapColor pal (SString "#a6720e") None = 2%nat
  /\ snapColorRun pal (SString "#a6720e") None = (2%nat, zeroRoot).
Proof.
  intros pal.
  assert (Hint : Forall (fun e => integral (YUV e)) pal)
    by (apply hex_palette_integral; reflexivity).
  assert (Hnd : NoDup (map YUV pal)).
  { apply (bool_decide_unpack _). vm_compute. exact I. }
  split; [exact Hint|]. split; [exact Hnd|].
  destruct (snapColor_own_color pancakeShades 2%nat
              (renderColorData "#a6720e" "color2") Hint Hnd eq_refl)
    as (Hrun & Hidx & _).
  split; [exact Hidx|exact Hrun].
Defined.

(** C9, as worded, fails.  The palette made of the texts [bogus] and
    [#000000] has pairwise distinct YUV values ([false] and 0, 128, 128);
    the reference colour of its entry 0 is no colour, the source falls back
    to white, and the match is entry 1, at distance 255. *)
Lemma snapColor_own_color_unparsed :
  let pal := snapColorSetup ["bogus"; "#000000"] in
  NoDup (map YUV pal)
  /\ pal !! 0%nat = Some (renderColorData "bogus" "color0")
  /\ HEX (renderColorData "bogus" "color0") = "bogus"
  /\ snapColorRun pal (SString "bogus") None = (1%nat, Sqrt (num 65025))
  /\ snapColor pal (SString "bogus") None <> 0%nat.
Proof.
  intros pal.
  assert (Hrun : snapColorRun pal (SString "bogus") None
                 = (1%nat, Sqrt (num 65025))).
  { vm_compute. do 3 f_equal. qc_eq. }
  split.
  { apply (bool_decide_unpack _). vm_compute. exact I. }
  split; [reflexivity|]. split; [reflexivity|]. split; [exact Hrun|].
  unfold snapColor. rewrite Hrun. discriminate.
Qed.

End PaletteFacts.

(** ** The scene graph *)
Module PaperFacts.

Import Str ColorSpace Palette Paper PaletteFacts.

Section Facts.

Context `{PaperLib} `{ClipperLib} `{Runtime}.

Lemma wf_next_detached (s : Scene) : wf s -> detached (nextId s) s.
Proof.
  intros [Hl _] l ids Hids Hin. specialize (Hl l ids _ Hids Hin). lia.
Qed.

Lemma filter_ne_id (p : ItemId) (l : list ItemId) :
  p ∉ l -> filter (fun x => x <> p) l = l.
Proof.
  induction l as [|x l IH]; intros Hp; [reflexivity|].
  rewrite not_elem_of_cons in Hp. destruct Hp as [Hx Hl].
  rewrite filter_cons_True by congruence. now rewrite IH.
Qed.

Lemma filter_insertAfter (i p : ItemId) (l : list ItemId) :
  p ∉ l -> filter (fun x => x <> p) (insertAfter i p l) = l.
Proof.
  induction l as [|x l IH]; intros Hp; [reflexivity|].
  rewrite not_elem_of_cons in Hp. destruct Hp as [Hx Hl].
  cbn [insertAfter]. destruct (decide (x = i)) as [->|Hne].
  - rewrite filter_cons_True by congruence.
    rewrite filter_cons_False by (intros Hc; now apply Hc).
    now rewrite filter_ne_id.
  - rewrite filter_cons_True by congruence. now rewrite IH.
Qed.

Lemma removeItem_detached (p : ItemId) (s : Scene) :
  detached p s -> layers (removeItem p s) = layers s.
Proof.
  intros Hd. cbn. apply map_eq. intros l. rewrite lookup_fmap.
  destruct (layers s !! l) as [ids|] eqn:Hl; cbn; [|reflexivity].
  now rewrite filter_ne_id by (eapply Hd; eauto).
Qed.

(** Inserting a detached item above another and removing it again leaves
    every layer as it was. *)
Lemma remove_insertAbove (i p : ItemId) (s : Scene) :
  detached p s -> layers (removeItem p (insertAbove i p s)) = layers s.
Proof.
  intros Hd. unfold insertAbove. destruct (hasParent i s).
  - cbn. apply map_eq. intros l. rewrite !lookup_fmap.
    destruct (layers s !! l) as [ids|] eqn:Hl; cbn; [|reflexivity].
    f_equal. rewrite (filter_ne_id p ids) by (eapply Hd; eauto).
    apply filter_insertAfter. eapply Hd; eauto.
  - now apply removeItem_detached.
Qed.

Lemma heap_insertAbove (i p : ItemId) (s : Scene) :
  heap (insertAbove i p s) = heap s.
Proof. unfold insertAbove. now destruct (hasParent i s). Qed.


Lemma elem_of_insertAfter (i p x : ItemId) (l : list ItemId) :
  x ∈ insertAfter i p l -> x = p \/ x ∈ l.
Proof.
  induction l as [|y l IH]; cbn [insertAfter]; [intros Hx; now right|].
  destruct (decide (y = i)) as [->|Hne]; rewrite !elem_of_cons; intuition.
Qed.

Lemma elem_of_insertBefore (i p x : ItemId) (l : list ItemId) :
  x ∈ insertBefore i p l -> x = p \/ x ∈ l.
Proof.
  induction l as [|y l IH]; cbn [insertBefore]; [intros Hx; now right|].
  destruct (decide (y = i)) as [->|Hne]; rewrite !elem_of_cons; intuition.
Qed.

Lemma wf_removeItem (i : ItemId) (s : Scene) : wf s -> wf (removeItem i s).
Proof.
  intros [Hl Hh]. split; [|exact Hh].
  intros l ids x. cbn. rewrite lookup_fmap.
  destruct (layers s !! l) as [ids0|] eqn:Hids; cbn; [|discriminate].
  intros Heq Hx. injection Heq as <-.
  apply list_elem_of_filter in Hx. destruct Hx as [_ Hx]. eapply Hl; eauto.
Qed.

Lemma wf_logError (n : option string) (s : Scene) : wf s -> wf (logError n s).
Proof. intros [Hl Hh]. split; assumption. Qed.

Lemma wf_alloc (it : Item) (s : Scene) : wf s -> wf (snd (alloc it s)).
Proof.
  intros [Hl Hh]. split; cbn.
  - intros l ids x Hids Hx. specialize (Hl l ids x Hids Hx). lia.
  - intros x. rewrite lookup_insert. case_decide.
    + subst x. lia.
    + intros Hx. specialize (Hh x Hx). lia.
Qed.

Lemma wf_setItem (p : ItemId) (it : Item) (s : Scene) :
  wf s -> (p < nextId s)%positive -> wf (setItem p it s).
Proof.
  intros [Hl Hh] Hp. split; cbn; [exact Hl|].
  intros x. rewrite lookup_insert. case_decide; [now subst|apply Hh].
Qed.

Lemma wf_insertAbove (i p : ItemId) (s : Scene) :
  wf s -> (p < nextId s)%positive -> wf (insertAbove i p s).
Proof.
  intros Hwf Hp. unfold insertAbove. destruct (hasParent i s); [|exact Hwf].
  destruct (wf_removeItem p s Hwf) as [Hl Hh]. split; [|exact Hh].
  intros l ids x. cbn [layers setLayers]. rewrite lookup_fmap.
  destruct (layers (removeItem p s) !! l) as [ids0|] eqn:Hids; cbn;
    [|discriminate].
  intros Heq Hx. injection Heq as <-.
  apply elem_of_insertAfter in Hx. destruct Hx as [->|Hx]; [exact Hp|].
  eapply Hl; eauto.
Qed.

Lemma wf_insertBelow (i p : ItemId) (s : Scene) :
  wf s -> (p < nextId s)%positive -> wf (insertBelow i p s).
Proof.
  intros Hwf Hp. unfold insertBelow. destruct (hasParent i s); [|exact Hwf].
  destruct (wf_removeItem p s Hwf) as [Hl Hh]. split; [|exact Hh].
  intros l ids x. cbn [layers setLayers]. rewrite lookup_fmap.
  destruct (layers (removeItem p s) !! l) as [ids0|] eqn:Hids; cbn;
    [|discriminate].
  intros Heq Hx. injection Heq as <-.
  apply elem_of_insertBefore in Hx. destruct Hx as [->|Hx]; [exact Hp|].
  eapply Hl; eauto.
Qed.

Lemma wf_replaceWith (i p : ItemId) (s : Scene) :
  wf s -> (p < nextId s)%positive -> wf (replaceWith i p s).
Proof.
  intros Hwf Hp. unfold replaceWith. destruct (hasParent i s); [|exact Hwf].
  now apply wf_removeItem, wf_insertBelow.
Qed.

Lemma wf_appendChild (layer : LayerId) (p : ItemId) (s : Scene) :
  wf s -> (p < nextId s)%positive -> wf (appendChild layer p s).
Proof.
  intros [Hl Hh] Hp. split; [|exact Hh].
  intros l ids x. cbn [layers appendChild setLayers]. rewrite lookup_insert.
  case_decide.
  - intros Heq Hx. injection Heq as <-. apply elem_of_app in Hx.
    destruct Hx as [Hx|Hx].
    + unfold childrenOf in Hx.
      destruct (layers s !! layer) as [ids0|] eqn:Hids; cbn in Hx.
      * eapply Hl; eauto.
      * inversion Hx.
    + apply list_elem_of_singleton in Hx. now subst.
  - apply Hl.
Qed.

Lemma offsetPath_eq (i : ItemId) (it : Item) (a r : jsnum) (d : bool)
    (s : Scene) :
  heap s !! i = Some it ->
  offsetPath i a r d s =
    match flattenToPaths (geometry it) r with
    | None =>
        Some (VItem i,
              removeItem (nextId s)
                (logError (name (data it)) (withCopy i it s)))
    | Some paths =>
        if bool_decide (offsetString paths a <> ""%string) then
          let s0 := removeItem (nextId s) (withCopy i it s) in
          let inset := nextId s0 in
          let s1 :=
            setItem inset (insetItem it (offsetString paths a))
              (snd (newCompoundPath (offsetString paths a) s0)) in
          Some (VItem inset,
                if d then replaceWith i inset s1 else removeItem i s1)
        else
          Some (VFalse,
                removeItem i (removeItem (nextId s) (withCopy i it s)))
    end.
Proof.
  intros Hi. unfold offsetPath, clone. rewrite Hi. cbn [mbind option_bind alloc].
  rewrite heap_insertAbove. cbn [heap]. rewrite lookup_insert_eq.
  cbn [mbind option_bind].
  destruct (flattenToPaths (geometry it) r) as [paths|]; [|reflexivity].
  fold (offsetString paths a).
  destruct (bool_decide (offsetString paths a <> ""%string)); reflexivity.
Qed.

Lemma wf_withCopy (i : ItemId) (it : Item) (s : Scene) :
  wf s -> wf (withCopy i it s).
Proof.
  intros Hwf. unfold withCopy. apply wf_insertAbove; [now apply wf_alloc|].
  cbn. lia.
Qed.

Lemma layers_scratch (i : ItemId) (it : Item) (s : Scene) :
  wf s -> layers (removeItem (nextId s) (withCopy i it s)) = layers s.
Proof.
  intros Hwf. unfold withCopy.
  rewrite remove_insertAbove; [reflexivity|].
  exact (wf_next_detached s Hwf).
Qed.

Lemma heap_withCopy (i : ItemId) (it : Item) (s : Scene) :
  heap (withCopy i it s) = <[nextId s := it]> (heap s).
Proof. unfold withCopy. now rewrite heap_insertAbove. Qed.

Lemma nextId_insertAbove (i p : ItemId) (s : Scene) :
  nextId (insertAbove i p s) = nextId s.
Proof. unfold insertAbove. now destruct (hasParent i s). Qed.

(** When flattening throws, the input path itself is returned and every
    layer is as before the call. *)
Lemma offsetPath_throw (i : ItemId) (it : Item) (a r : jsnum) (d : bool)
    (s : Scene) :
  wf s -> heap s !! i = Some it -> flattenToPaths (geometry it) r = None ->
  exists s',
    offsetPath i a r d s = Some (VItem i, s')
    /\ layers s' = layers s
    /\ heap s' !! i = Some it
    /\ console s' = console s ++ [name (data it)]
    /\ wf s'.
Proof.
  intros Hwf Hi Hf. rewrite (offsetPath_eq _ _ _ _ _ _ Hi), Hf.
  eexists. split; [reflexivity|].
  split; [exact (layers_scratch i it s Hwf)|].
  split.
  { cbn [heap removeItem setLayers logError]. rewrite heap_withCopy.
    rewrite lookup_insert_ne; [exact Hi|].
    destruct Hwf as [_ Hh]. specialize (Hh i (mk_is_Some _ _ Hi)). lia. }
  split.
  { cbn [console removeItem setLayers logError]. unfold withCopy, insertAbove.
    now destruct (hasParent _ _). }
  apply wf_removeItem. apply wf_logError. now apply wf_withCopy.
Qed.

(** When the offset polygons are empty, the input path is removed from its
    layer and [false] is returned. *)
Lemma offsetPath_empty (i : ItemId) (it : Item) (a r : jsnum) (d : bool)
    (s : Scene) (paths : list Polygon) :
  wf s -> heap s !! i = Some it ->
  flattenToPaths (geometry it) r = Some paths ->
  offsetString paths a = ""%string ->
  exists s',
    offsetPath i a r d s = Some (VFalse, s')
    /\ layers s' = layers (removeItem i s)
    /\ wf s'.
Proof.
  intros Hwf Hi Hf He. rewrite (offsetPath_eq _ _ _ _ _ _ Hi), Hf, He.
  rewrite bool_decide_eq_false_2 by (intros Hne; now apply Hne).
  eexists. split; [reflexivity|]. split.
  - cbn [layers removeItem setLayers].
    change (filter (fun x => x <> nextId s) <$> layers (withCopy i it s))
      with (layers (removeItem (nextId s) (withCopy i it s))).
    now rewrite layers_scratch.
  - now apply wf_removeItem, wf_removeItem, wf_withCopy.
Qed.

Lemma heap_insertBelow (i p : ItemId) (s : Scene) :
  heap (insertBelow i p s) = heap s.
Proof. unfold insertBelow. now destruct (hasParent i s). Qed.

Lemma heap_replaceWith (i p : ItemId) (s : Scene) :
  heap (replaceWith i p s) = heap s.
Proof.
  unfold replaceWith. destruct (hasParent i s); [|reflexivity].
  cbn. apply heap_insertBelow.
Qed.

Lemma wf_newCompoundPath (d : string) (s : Scene) :
  wf s ->
  wf (snd (newCompoundPath d s))
  /\ nextId (snd (newCompoundPath d s)) = Pos.succ (nextId s)
  /\ fst (newCompoundPath d s) = nextId s.
Proof.
  intros Hwf. unfold newCompoundPath. cbn [alloc fst snd].
  split; [|split; reflexivity].
  apply wf_appendChild; [|cbn; lia].
  exact (wf_alloc _ s Hwf).
Qed.

(** Every call on a live item returns; the result is [false] only with the
    input removed and nothing else changed in the layers, and an item
    returned is alive. *)
Lemma offsetPath_result (i : ItemId) (it : Item) (a r : jsnum) (d : bool)
    (s : Scene) :
  wf s -> heap s !! i = Some it ->
  exists v s',
    offsetPath i a r d s = Some (v, s')
    /\ wf s'
    /\ (v = VFalse -> layers s' = layers (removeItem i s))
    /\ (forall e, v = VItem e -> is_Some (heap s' !! e)).
Proof.
  intros Hwf Hi.
  destruct (flattenToPaths (geometry it) r) as [paths|] eqn:Hf.
  - destruct (decide (offsetString paths a = ""%string)) as [He|Hne].
    + destruct (offsetPath_empty i it a r d s paths Hwf Hi Hf He)
        as (s' & Heq & Hl & Hwf').
      exists VFalse, s'. split; [exact Heq|]. split; [exact Hwf'|].
      split; [intros _; exact Hl|]. intros e Hv. discriminate Hv.
    + rewrite (offsetPath_eq _ _ _ _ _ _ Hi), Hf.
      rewrite (bool_decide_eq_true_2 _ Hne). cbv zeta.
      set (s0 := removeItem (nextId s) (withCopy i it s)).
      assert (Hwf0 : wf s0) by (apply wf_removeItem, wf_withCopy, Hwf).
      destruct (wf_newCompoundPath (offsetString paths a) s0 Hwf0)
        as (Hwf1 & Hn1 & _).
      set (s1 := setItem (nextId s0) _ _).
      assert (Hwfs1 : wf s1).
      { apply wf_setItem; [exact Hwf1|]. rewrite Hn1. lia. }
      assert (Hlt : (nextId s0 < nextId s1)%positive).
      { unfold s1. cbn [nextId setItem setHeap]. rewrite Hn1. lia. }
      assert (Hh1 : is_Some (heap s1 !! nextId s0)).
      { unfold s1. cbn [heap setItem setHeap]. rewrite lookup_insert_eq. eauto. }
      eexists _, _. split; [reflexivity|]. split; [|split].
      * destruct d; [now apply wf_replaceWith|now apply wf_removeItem].
      * intros Hv. discriminate Hv.
      * intros e Hv. injection Hv as <-.
        destruct d; [now rewrite heap_replaceWith|exact Hh1].
  - destruct (offsetPath_throw i it a r d s Hwf Hi Hf)
      as (s' & Heq & Hl & Hh & _ & Hwf').
    exists (VItem i), s'. split; [exact Heq|]. split; [exact Hwf'|]. split.
    + intros Hv. discriminate Hv.
    + intros e Hv. injection Hv as <-. eauto.
Qed.

Lemma childrenOf_layers (L : LayerId) (s s' : Scene) :
  layers s = layers s' -> childrenOf L s = childrenOf L s'.
Proof. unfold childrenOf. now intros ->. Qed.

Lemma childrenOf_removeItem (L : LayerId) (i : ItemId) (s : Scene) :
  childrenOf L (removeItem i s) = filter (fun x => x <> i) (childrenOf L s).
Proof.
  unfold childrenOf. cbn. rewrite lookup_fmap.
  now destruct (layers s !! L).
Qed.

Lemma childrenOf_appendChild (L : LayerId) (i : ItemId) (s : Scene) :
  childrenOf L (appendChild L i s) = childrenOf L s ++ [i].
Proof.
  unfold childrenOf at 1. cbn. now rewrite lookup_insert_eq.
Qed.

Lemma clone_eq (i : ItemId) (it : Item) (s : Scene) :
  heap s !! i = Some it -> clone i s = Some (nextId s, withCopy i it s).
Proof. intros Hi. unfold clone. rewrite Hi. reflexivity. Qed.

(** C1, as the code has it.  When flattening throws, [offsetPath] logs the
    name of the path, returns the input path itself and leaves every layer as
    it was: the input stays in its layer.  With an empty offset result the
    input is removed from its layer and [false] is returned. *)
Theorem offsetPath_flatten_failure :
  (forall i it a r d s,
      wf s -> heap s !! i = Some it ->
      flattenToPaths (geometry it) r = None ->
      exists s',
        offsetPath i a r d s = Some (VItem i, s')
        /\ layers s' = layers s
        /\ heap s' !! i = Some it
        /\ console s' = console s ++ [name (data it)])
  /\ (forall i it a r d s paths,
        wf s -> heap s !! i = Some it ->
        flattenToPaths (geometry it) r = Some paths ->
        offsetString paths a = ""%string ->
        exists s',
          offsetPath i a r d s = Some (VFalse, s')
          /\ layers s' = layers (removeItem i s)
          /\ forall L, i ∉ childrenOf L s').
Proof.
  split.
  - intros i it a r d s Hwf Hi Hf.
    destruct (offsetPath_throw i it a r d s Hwf Hi Hf)
      as (s' & Heq & Hl & Hh & Hc & _).
    exists s'. auto.
  - intros i it a r d s paths Hwf Hi Hf He.
    destruct (offsetPath_empty i it a r d s paths Hwf Hi Hf He)
      as (s' & Heq & Hl & _).
    exists s'. split; [exact Heq|]. split; [exact Hl|].
    intros L. rewrite (childrenOf_layers L _ _ Hl), childrenOf_removeItem.
    intros Hin. apply list_elem_of_filter in Hin. now destruct Hin.
Qed.

(** C4.  For one child of the layer: when the inward offset returns
    [false] the step ends there, with the mask removed and no layer gaining a
    child; otherwise the outward offset is run on the result, and when it
    returns [false] nothing is added, while an item it returns becomes the
    last child of the layer. *)
Theorem destroyThinItem_adds_survivors_only
    (layer : LayerId) (amount : jsnum) (clone_ : bool) (s : Scene)
    (item : ItemId) (it : Item) :
  wf s -> heap s !! item = Some it ->
  exists mask s0 m1 s1,
    (if clone_ then clone item s else Some (item, s)) = Some (mask, s0)
    /\ offsetPath mask (jneg amount) (num 2) false s0 = Some (m1, s1)
    /\ match m1 with
       | VFalse =>
           destroyThinItem layer amount clone_ s item = Some s1
           /\ layers s1 = layers (removeItem mask s0)
           /\ (forall L x, x ∈ childrenOf L s1 -> x ∈ childrenOf L s)
       | VItem e =>
           exists m2 s2,
             offsetPath e amount (num 2) false s1 = Some (m2, s2)
             /\ match m2 with
                | VFalse =>
                    destroyThinItem layer amount clone_ s item = Some s2
                    /\ layers s2 = layers (removeItem e s1)
                | VItem r =>
                    destroyThinItem layer amount clone_ s item
                    = Some (addChild layer (VItem r) s2)
                    /\ childrenOf layer (addChild layer (VItem r) s2)
                       = filter (fun x => x <> r) (childrenOf layer s2) ++ [r]
                end
       end.
Proof.
  intros Hwf Hi.
  assert (Hmask : exists mask s0,
             (if clone_ then clone item s else Some (item, s)) = Some (mask, s0)
             /\ wf s0 /\ heap s0 !! mask = Some it
             /\ (forall L x, x ∈ childrenOf L (removeItem mask s0) ->
                             x ∈ childrenOf L s)).
  { destruct clone_.
    - exists (nextId s), (withCopy item it s).
      split; [now apply clone_eq|]. split; [now apply wf_withCopy|].
      split; [rewrite heap_withCopy; apply lookup_insert_eq|].
      intros L x. now rewrite (childrenOf_layers L _ _ (layers_scratch item it s Hwf)).
    - exists item, s. split; [reflexivity|]. split; [exact Hwf|].
      split; [exact Hi|]. intros L x. rewrite childrenOf_removeItem.
      intros Hx. apply list_elem_of_filter in Hx. now destruct Hx. }
  destruct Hmask as (mask & s0 & Hm & Hwf0 & Hh0 & Hsub).
  destruct (offsetPath_result mask it (jneg amount) (num 2) false s0 Hwf0 Hh0)
    as (m1 & s1 & Heq1 & Hwf1 & Hfalse1 & Hitem1).
  exists mask, s0, m1, s1. split; [exact Hm|]. split; [exact Heq1|].
  unfold destroyThinItem. rewrite Hm. cbn [mbind option_bind]. rewrite Heq1.
  cbn [mbind option_bind].
  destruct m1 as [|e].
  - split; [reflexivity|]. split; [now apply Hfalse1|].
    intros L x. rewrite (childrenOf_layers L _ _ (Hfalse1 eq_refl)). apply Hsub.
  - destruct (Hitem1 e eq_refl) as [ite Hite].
    destruct (offsetPath_result e ite amount (num 2) false s1 Hwf1 Hite)
      as (m2 & s2 & Heq2 & Hwf2 & Hfalse2 & _).
    exists m2, s2. split; [exact Heq2|]. rewrite Heq2. cbn [mbind option_bind].
    destruct m2 as [|r].
    + split; [reflexivity|]. now apply Hfalse2.
    + split; [reflexivity|]. cbn [addChild].
      now rewrite childrenOf_appendChild, childrenOf_removeItem.
Qed.

End Facts.

Section AutoColor.

Context `{PaperLib}.

(** The loop body of [autoColor] in terms of its three parts. *)
Lemma autoColorItem_eq (pal : list ColorData) (limit : option Z)
    (outline : bool) (s : Scene) (outs : list ItemId) (x : ItemId) :
  autoColorItem pal limit outline (s, outs) x =
    it ← heap s !! x;
    it1 ← strokeSnapped pal limit it;
    r ← fillSnapped pal limit it1;
    match snd r with
    | Some ci =>
        if outline then
          ot ← outlineItemOf pal (fst r) ci;
          Some (setItem (nextId s) ot
                  (snd (alloc (fst r) (setItem x (fst r) s))),
                outs ++ [nextId s])
        else Some (setItem x (fst r) s, outs)
    | None => Some (setItem x (fst r) s, outs)
    end.
Proof.
  unfold autoColorItem, strokeSnapped, fillSnapped, outlineItemOf, cloneDetached.
  destruct (heap s !! x) as [it|]; [|reflexivity]. cbn [mbind option_bind].
  destruct (strokeColor it) as [sc|].
  - destruct (snapEntry pal sc limit) as [[ci e]|]; [|reflexivity].
    cbn [mbind option_bind fillColor].
    destruct (fillColor it) as [fc|]; [|reflexivity].
    destruct (snapEntry pal fc limit) as [[ci' e']|]; [|reflexivity].
    cbn [mbind option_bind fst snd].
    destruct outline; [|reflexivity].
    cbn [heap setItem setHeap]. rewrite lookup_insert_eq.
    cbn [mbind option_bind alloc].
    destruct (pal !! (ci' + 1)%nat); reflexivity.
  - cbn [mbind option_bind].
    destruct (fillColor it) as [fc|]; [|reflexivity].
    destruct (snapEntry pal fc limit) as [[ci' e']|]; [|reflexivity].
    cbn [mbind option_bind fst snd].
    destruct outline; [|reflexivity].
    cbn [heap setItem setHeap]. rewrite lookup_insert_eq.
    cbn [mbind option_bind alloc].
    destruct (pal !! (ci' + 1)%nat); reflexivity.
Qed.

Lemma strokeSnapped_fill (pal : list ColorData) (limit : option Z)
    (it it1 : Item) :
  strokeSnapped pal limit it = Some it1 ->
  fillColor it1 = fillColor it /\ geometry it1 = geometry it.
Proof.
  unfold strokeSnapped. destruct (strokeColor it) as [c|].
  - destruct (snapEntry pal c limit) as [[ci e]|]; [|discriminate].
    cbn. intros Heq. injection Heq as <-. split; reflexivity.
  - intros Heq. injection Heq as <-. split; reflexivity.
Qed.

Lemma fillSnapped_index (pal : list ColorData) (limit : option Z)
    (it it2 : Item) (fi : option nat) :
  fillSnapped pal limit it = Some (it2, fi) ->
  is_Some fi <-> is_Some (fillColor it).
Proof.
  unfold fillSnapped. destruct (fillColor it) as [c|].
  - destruct (snapEntry pal c limit) as [[ci e]|]; [|discriminate].
    cbn. intros Heq. injection Heq as <- <-. split; eauto.
  - intros Heq. injection Heq as <- <-. split; intros [? Hx]; discriminate Hx.
Qed.

(** What one turn of the loop does to the scene. *)
Lemma autoColorItem_step (pal : list ColorData) (limit : option Z)
    (outline : bool) (s s1 : Scene) (outs outs1 : list ItemId) (x : ItemId)
    (it : Item) :
  wf s -> heap s !! x = Some it ->
  autoColorItem pal limit outline (s, outs) x = Some (s1, outs1) ->
  exists it1 it2 fi,
    strokeSnapped pal limit it = Some it1
    /\ fillSnapped pal limit it1 = Some (it2, fi)
    /\ layers s1 = layers s
    /\ wf s1
    /\ heap s1 !! x = Some it2
    /\ (forall j, j <> x -> (j < nextId s)%positive ->
                  heap s1 !! j = heap s !! j)
    /\ ((outline = true
         /\ exists ci ot,
              fi = Some ci /\ outlineItemOf pal it2 ci = Some ot
              /\ outs1 = outs ++ [nextId s]
              /\ nextId s1 = Pos.succ (nextId s)
              /\ heap s1 !! nextId s = Some ot)
        \/ ((outline = false \/ fi = None)
            /\ outs1 = outs /\ nextId s1 = nextId s)).
Proof.
  intros Hwf Hx Hstep. rewrite autoColorItem_eq, Hx in Hstep.
  cbn [mbind option_bind] in Hstep.
  destruct (strokeSnapped pal limit it) as [it1|] eqn:Hs; [|discriminate].
  cbn [mbind option_bind] in Hstep.
  destruct (fillSnapped pal limit it1) as [[it2 fi]|] eqn:Hf; [|discriminate].
  cbn [mbind option_bind fst snd] in Hstep.
  exists it1, it2, fi. split; [reflexivity|]. split; [exact Hf|].
  assert (Hlt : (x < nextId s)%positive).
  { destruct Hwf as [_ Hh]. apply Hh. eauto. }
  assert (Hplain :
            Some (setItem x it2 s, outs) = Some (s1, outs1) ->
            (outline = false \/ fi = None) ->
            layers s1 = layers s /\ wf s1 /\ heap s1 !! x = Some it2
            /\ (forall j, j <> x -> (j < nextId s)%positive ->
                          heap s1 !! j = heap s !! j)
            /\ ((outline = true
                 /\ exists ci ot,
                      fi = Some ci /\ outlineItemOf pal it2 ci = Some ot
                      /\ outs1 = outs ++ [nextId s]
                      /\ nextId s1 = Pos.succ (nextId s)
                      /\ heap s1 !! nextId s = Some ot)
                \/ ((outline = false \/ fi = None)
                    /\ outs1 = outs /\ nextId s1 = nextId s))).
  { intros Heq Hcase. injection Heq as <- <-.
    split; [reflexivity|]. split; [now apply wf_setItem|].
    split; [cbn; apply lookup_insert_eq|].
    split; [intros j Hj _; cbn; now rewrite lookup_insert_ne|].
    right. auto. }
  destruct fi as [ci|]; [|apply (Hplain Hstep); now right].
  destruct outline; [|apply (Hplain Hstep); now left].
  destruct (outlineItemOf pal it2 ci) as [ot|] eqn:Ho; [|discriminate].
  cbn [mbind option_bind] in Hstep. injection Hstep as <- <-.
  split; [reflexivity|]. split.
  { apply wf_setItem; [|cbn; lia].
    apply (wf_alloc it2 (setItem x it2 s)). now apply wf_setItem. }
  split.
  { cbn. rewrite lookup_insert_ne by lia.
    rewrite lookup_insert_ne by lia. apply lookup_insert_eq. }
  split.
  { intros j Hj Hjn. cbn. rewrite lookup_insert_ne by lia.
    rewrite lookup_insert_ne by lia. now rewrite lookup_insert_ne. }
  left. split; [reflexivity|]. exists ci, ot.
  split; [reflexivity|]. split; [exact Ho|]. split; [reflexivity|].
  split; [reflexivity|]. cbn. apply lookup_insert_eq.
Qed.

Lemma Forall2_impl_elem {A B} (P Q : A -> B -> Prop) (l : list A) (k : list B) :
  Forall2 P l k ->
  (forall x y, x ∈ l -> y ∈ k -> P x y -> Q x y) ->
  Forall2 Q l k.
Proof.
  induction 1 as [|x y l k Hxy _ IH]; intros Himp; constructor.
  - apply Himp; [left|left|exact Hxy].
  - apply IH. intros x' y' Hx' Hy'. apply Himp; now right.
Qed.

Lemma filter_filled_agree (s s1 : Scene) (l : list ItemId) :
  (forall i, i ∈ l -> heap s1 !! i = heap s !! i) ->
  filter (filled s1) l = filter (filled s) l.
Proof.
  induction l as [|x l IH]; intros Hag; [reflexivity|].
  assert (Hx : filled s1 x <-> filled s x).
  { unfold filled. rewrite (Hag x) by left. reflexivity. }
  rewrite !filter_cons. rewrite IH by (intros i Hi; apply Hag; now right).
  destruct (decide (filled s1 x)) as [H1|H1], (decide (filled s x)) as [H2|H2];
    tauto.
Qed.

(** The loop of [autoColor]: the layers are not touched, every item of the
    list is recoloured from its own state, nothing else alive changes, and
    with [outline] one new object per filled item is collected, in order. *)
Lemma autoColor_loop (pal : list ColorData) (limit : option Z) (outline : bool) :
  forall (items : list ItemId) (s s' : Scene) (outs outs' : list ItemId),
    wf s -> NoDup items ->
    (forall i, i ∈ items -> is_Some (heap s !! i)) ->
    eachM (autoColorItem pal limit outline) (s, outs) items = Some (s', outs') ->
    layers s' = layers s /\ wf s' /\ (nextId s <= nextId s')%positive
    /\ (forall j, j ∉ items -> (j < nextId s)%positive ->
                  heap s' !! j = heap s !! j)
    /\ (forall i it, i ∈ items -> heap s !! i = Some it ->
          exists it1 it2 fi,
            strokeSnapped pal limit it = Some it1
            /\ fillSnapped pal limit it1 = Some (it2, fi)
            /\ heap s' !! i = Some it2)
    /\ exists news,
         outs' = outs ++ news
         /\ (forall o, o ∈ news -> (nextId s <= o < nextId s')%positive)
         /\ NoDup news
         /\ (if outline
             then Forall2 (outlineOf pal limit s s') (filter (filled s) items) news
             else news = []).
Proof.
  induction items as [|x rest IH]; intros s s' outs outs' Hwf Hnd Hall Hrun.
  - cbn in Hrun. injection Hrun as <- <-.
    split; [reflexivity|]. split; [exact Hwf|]. split; [lia|].
    split; [reflexivity|]. split; [intros i it Hi; inversion Hi|].
    exists []. rewrite app_nil_r. split; [reflexivity|].
    split; [intros o Ho; inversion Ho|]. split; [constructor|].
    destruct outline; [constructor|reflexivity].
  - cbn [eachM] in Hrun.
    destruct (autoColorItem pal limit outline (s, outs) x) as [[s1 outs1]|]
      eqn:Hstep; [|discriminate]. cbn [mbind option_bind] in Hrun.
    apply NoDup_cons in Hnd. destruct Hnd as [Hxr Hnd].
    destruct (Hall x ltac:(left)) as [it Hx].
    destruct (autoColorItem_step _ _ _ _ _ _ _ _ _ Hwf Hx Hstep)
      as (it1 & it2 & fi & Hs & Hf & Hl1 & Hwf1 & Hx1 & Hother & Hcase).
    assert (Hbound : forall i, i ∈ x :: rest -> (i < nextId s)%positive).
    { intros i Hi. destruct Hwf as [_ Hh]. apply Hh, Hall, Hi. }
    assert (Hrest : forall i, i ∈ rest -> heap s1 !! i = heap s !! i).
    { intros i Hi. apply Hother; [|apply Hbound; now right].
      intros ->. contradiction. }
    assert (Hn1 : (nextId s <= nextId s1)%positive).
    { destruct Hcase as [(_ & ci & ot & _ & _ & _ & -> & _) | (_ & _ & ->)]; lia. }
    assert (Hall1 : forall i, i ∈ rest -> is_Some (heap s1 !! i)).
    { intros i Hi. rewrite (Hrest i Hi). apply Hall. now right. }
    destruct (IH s1 s' outs1 outs' Hwf1 Hnd Hall1 Hrun)
      as (Hl & Hwf' & Hn & Hkeep & Hdone & news & Houts & Hnews & Hndn & Hout).
    split; [now rewrite Hl|]. split; [exact Hwf'|]. split; [lia|].
    split.
    { intros j Hj Hjn. apply not_elem_of_cons in Hj. destruct Hj as [Hjx Hjr].
      rewrite Hkeep by (auto; lia). now apply Hother. }
    split.
    { intros i it' Hi Hit'. apply elem_of_cons in Hi. destruct Hi as [->|Hi].
      - rewrite Hx in Hit'. injection Hit' as <-.
        exists it1, it2, fi. split; [exact Hs|]. split; [exact Hf|].
        rewrite Hkeep; [exact Hx1|exact Hxr|].
        specialize (Hbound x ltac:(left)). lia.
      - apply (Hdone i it' Hi). now rewrite (Hrest i Hi). }
    assert (Hconv : forall k,
              Forall2 (outlineOf pal limit s1 s') (filter (filled s1) rest) k ->
              (forall o, o ∈ k -> (nextId s1 <= o)%positive) ->
              Forall2 (outlineOf pal limit s s') (filter (filled s) rest) k).
    { intros k Hk Hge. rewrite <- (filter_filled_agree s s1 rest Hrest).
      eapply Forall2_impl_elem; [exact Hk|].
      intros i o Hi Ho (a & a1 & a2 & ci & ot & Ha & Ha1 & Ha2 & Hot & Hnone & Hsome).
      apply list_elem_of_filter in Hi. destruct Hi as [_ Hi].
      exists a, a1, a2, ci, ot. rewrite <- (Hrest i Hi).
      repeat (split; [assumption|]). split; [|exact Hsome].
      destruct (heap s !! o) as [z|] eqn:Hz; [|reflexivity].
      destruct Hwf as [_ Hh]. specialize (Hh o (mk_is_Some _ _ Hz)).
      specialize (Hge o Ho). lia. }
    destruct Hcase as [(-> & ci & ot & -> & Hot & -> & Hs1 & Hnew)
                      | (Hno & -> & Hs1)].
    + exists (nextId s :: news). split.
      { rewrite Houts, <- app_assoc. reflexivity. }
      split.
      { intros o Ho. apply elem_of_cons in Ho. destruct Ho as [->|Ho].
        - lia.
        - specialize (Hnews o Ho). lia. }
      split.
      { apply NoDup_cons. split; [|exact Hndn].
        intros Hin. specialize (Hnews _ Hin). lia. }
      assert (Hfx : filled s x).
      { exists it. split; [exact Hx|].
        rewrite <- (proj1 (strokeSnapped_fill _ _ _ _ Hs)).
        apply (fillSnapped_index _ _ _ _ _ Hf). eauto. }
      rewrite filter_cons_True by exact Hfx. constructor.
      * exists it, it1, it2, ci, ot. repeat (split; [assumption|]). split.
        -- destruct (heap s !! nextId s) as [z|] eqn:Hz; [|reflexivity].
           destruct Hwf as [_ Hh]. specialize (Hh _ (mk_is_Some _ _ Hz)). lia.
        -- rewrite Hkeep; [exact Hnew| |lia].
           intros Hin. specialize (Hbound (nextId s) ltac:(now right)). lia.
      * apply Hconv; [exact Hout|]. intros o Ho. apply Hnews, Ho.
    + exists news. split; [exact Houts|]. split.
      { intros o Ho. specialize (Hnews o Ho). lia. }
      split; [exact Hndn|].
      destruct outline; [|exact Hout].
      destruct Hno as [Hno | ->]; [discriminate|].
      assert (Hnf : ~ filled s x).
      { intros (it' & Hit' & Hfc). rewrite Hx in Hit'. injection Hit' as <-.
        rewrite <- (proj1 (strokeSnapped_fill _ _ _ _ Hs)) in Hfc.
        apply (fillSnapped_index _ _ _ _ _ Hf) in Hfc.
        destruct Hfc as [? Hfc]. discriminate Hfc. }
      rewrite filter_cons_False by exact Hnf.
      apply Hconv; [exact Hout|]. intros o Ho. apply Hnews, Ho.
Qed.

Lemma snapColor_in_range (pal : list ColorData) (source : Source)
    (limit : option Z) :
  pal <> [] -> (snapColor pal source limit < length pal)%nat.
Proof.
  intros Hne. unfold snapColor, snapColorRun.
  pose proof (snapLoop_index (limited pal limit)
                (rgbToYUV (sourceRGB source)) 0 0 thousand) as Hk.
  cbn zeta in Hk. destruct (limited_prefix pal limit) as [n Hn].
  rewrite Hn in *. rewrite length_take in Hk.
  destruct pal; [contradiction|]. cbn [length] in *. lia.
Qed.

Lemma snapEntry_some (pal : list ColorData) (c : Color) (limit : option Z) :
  pal <> [] ->
  exists entry,
    snapEntry pal c limit
    = Some (snapColor pal (SString (toCSS c)) limit, entry)
    /\ pal !! snapColor pal (SString (toCSS c)) limit = Some entry.
Proof.
  intros Hne. unfold snapEntry.
  destruct (lookup_lt_is_Some_2 pal _ (snapColor_in_range pal
              (SString (toCSS c)) limit Hne)) as [entry He].
  exists entry. rewrite He. split; reflexivity.
Qed.

(** The parts of the loop body, for a palette that is not empty. *)
Lemma strokeSnapped_some (pal : list ColorData) (limit : option Z) (it : Item) :
  pal <> [] ->
  exists it1,
    strokeSnapped pal limit it = Some it1
    /\ fillColor it1 = fillColor it
    /\ (forall sc, strokeColor it = Some sc ->
          color (data it1) = Some (snapColor pal (SString (toCSS sc)) limit)).
Proof.
  intros Hne. unfold strokeSnapped. destruct (strokeColor it) as [sc|].
  - destruct (snapEntry_some pal sc limit Hne) as (entry & -> & _).
    cbn. eexists. split; [reflexivity|]. split; [reflexivity|].
    intros sc' Heq. injection Heq as <-. reflexivity.
  - exists it. split; [reflexivity|]. split; [reflexivity|]. discriminate.
Qed.

Lemma fillSnapped_some (pal : list ColorData) (limit : option Z) (it : Item) :
  pal <> [] ->
  exists it2 fi,
    fillSnapped pal limit it = Some (it2, fi)
    /\ geometry it2 = geometry it
    /\ (forall fc, fillColor it = Some fc ->
          fi = Some (snapColor pal (SString (toCSS fc)) limit)
          /\ color (data it2)
             = Some (snapColor pal (SString (toCSS fc)) limit)
          /\ fill (data it2) = Some true)
    /\ (fillColor it = None -> fi = None /\ it2 = it).
Proof.
  intros Hne. unfold fillSnapped. destruct (fillColor it) as [fc|].
  - destruct (snapEntry_some pal fc limit Hne) as (entry & -> & _).
    cbn. eexists _, _. split; [reflexivity|]. split; [reflexivity|]. split.
    + intros fc' Heq. injection Heq as <-. repeat split; reflexivity.
    + discriminate.
  - exists it, None. split; [reflexivity|]. split; [reflexivity|]. split.
    + discriminate.
    + intros _. split; reflexivity.
Qed.

Lemma outlineItemOf_some (pal : list ColorData) (limit : option Z)
    (it2 : Item) (c : Color) :
  leavesDarker pal limit ->
  exists darker,
    pal !! (snapColor pal (SString (toCSS c)) limit + 1)%nat = Some darker
    /\ outlineItemOf pal it2 (snapColor pal (SString (toCSS c)) limit)
       = Some (mkItem (setColorIndex
                         (snapColor pal (SString (toCSS c)) limit + 1)
                         (setFill false (data it2)))
                      (Some (colorOfString (HEX darker)))
                      (num 5) None (geometry it2)).
Proof.
  intros (l & -> & Hl). unfold outlineItemOf.
  pose proof (snapColor_below_limit pal (SString (toCSS c)) l ltac:(lia)) as Hk.
  destruct (lookup_lt_is_Some_2 pal
              (snapColor pal (SString (toCSS c)) (Some l) + 1)%nat ltac:(lia))
    as [darker Hd].
  exists darker. rewrite Hd. split; reflexivity.
Qed.

(** The loop body returns as soon as the item is alive and the palette
    suits the mode. *)
Lemma autoColorItem_some (pal : list ColorData) (limit : option Z)
    (outline : bool) (s : Scene) (outs : list ItemId) (x : ItemId) :
  pal <> [] -> (outline = true -> leavesDarker pal limit) ->
  is_Some (heap s !! x) ->
  is_Some (autoColorItem pal limit outline (s, outs) x).
Proof.
  intros Hne Hdark [it Hx]. rewrite autoColorItem_eq, Hx.
  cbn [mbind option_bind].
  destruct (strokeSnapped_some pal limit it Hne) as (it1 & -> & Hfc & _).
  cbn [mbind option_bind].
  destruct (fillSnapped_some pal limit it1 Hne) as (it2 & fi & -> & _ & Hsome & Hnone).
  cbn [mbind option_bind fst snd].
  destruct (fillColor it1) as [fc|] eqn:Hfill.
  - destruct (Hsome fc eq_refl) as (-> & _).
    destruct outline; [|eauto].
    destruct (outlineItemOf_some pal limit it2 fc (Hdark eq_refl))
      as (darker & _ & ->).
    cbn [mbind option_bind]. eauto.
  - destruct (Hnone eq_refl) as [-> _]. eauto.
Qed.

Lemma autoColor_loop_some (pal : list ColorData) (limit : option Z)
    (outline : bool) :
  pal <> [] -> (outline = true -> leavesDarker pal limit) ->
  forall (items : list ItemId) (s : Scene) (outs : list ItemId),
    wf s -> NoDup items ->
    (forall i, i ∈ items -> is_Some (heap s !! i)) ->
    is_Some (eachM (autoColorItem pal limit outline) (s, outs) items).
Proof.
  intros Hne Hdark. induction items as [|x rest IH];
    intros s outs Hwf Hnd Hall; [cbn; eauto|].
  cbn [eachM].
  destruct (autoColorItem_some pal limit outline s outs x Hne Hdark
              (Hall x ltac:(left))) as [[s1 outs1] Hstep].
  rewrite Hstep. cbn [mbind option_bind].
  apply NoDup_cons in Hnd. destruct Hnd as [Hxr Hnd].
  destruct (Hall x ltac:(left)) as [it Hx].
  destruct (autoColorItem_step _ _ _ _ _ _ _ _ _ Hwf Hx Hstep)
    as (_ & _ & _ & _ & _ & _ & Hwf1 & _ & Hother & _).
  apply IH; [exact Hwf1|exact Hnd|].
  intros i Hi. rewrite Hother.
  - apply Hall. now right.
  - intros ->. contradiction.
  - destruct Hwf as [_ Hh]. apply Hh, Hall. now right.
Qed.

Lemma removeItem_detached_eq (p : ItemId) (s : Scene) :
  detached p s -> removeItem p s = s.
Proof.
  intros Hd. unfold removeItem, setLayers.
  change (filter (fun x => x <> p) <$> layers s) with (layers (removeItem p s)).
  rewrite (removeItem_detached p s Hd). now destruct s.
Qed.

(** Adding new, pairwise distinct objects appends them in order. *)
Lemma addChildren_fresh (layer : LayerId) :
  forall (news : list ItemId) (s : Scene),
    (forall o, o ∈ news -> detached o s) -> NoDup news ->
    childrenOf layer (addChildren layer news s) = childrenOf layer s ++ news
    /\ heap (addChildren layer news s) = heap s.
Proof.
  induction news as [|o news IH]; intros s Hd Hnd.
  - cbn. now rewrite app_nil_r.
  - apply NoDup_cons in Hnd. destruct Hnd as [Ho Hnd].
    unfold addChildren. cbn [foldl].
    rewrite (removeItem_detached_eq o s) by (apply Hd; left).
    fold (addChildren layer news (appendChild layer o s)).
    destruct (IH (appendChild layer o s)) as [Hc Hh]; [|exact Hnd|].
    + intros o' Ho' l ids. cbn [layers appendChild setLayers].
      rewrite lookup_insert. case_decide.
      * intros Heq. injection Heq as <-. rewrite not_elem_of_app. split.
        -- unfold childrenOf.
           destruct (layers s !! layer) as [ids0|] eqn:Hl; cbn.
           ++ eapply (Hd o'); [now right|exact Hl].
           ++ intros Hin. inversion Hin.
        -- rewrite list_elem_of_singleton. intros ->. contradiction.
      * apply (Hd o'). now right.
    + rewrite Hc, Hh, childrenOf_appendChild, <- app_assoc. split; reflexivity.
Qed.

Lemma heap_addChildren (layer : LayerId) (news : list ItemId) (s : Scene) :
  heap (addChildren layer news s) = heap s.
Proof.
  revert s. induction news as [|o news IH]; intros s; [reflexivity|].
  unfold addChildren. cbn [foldl].
  fold (addChildren layer news (appendChild layer o (removeItem o s))).
  now rewrite IH.
Qed.

Lemma fillSnapped_inv (pal : list ColorData) (limit : option Z)
    (it it2 : Item) (ci : nat) :
  fillSnapped pal limit it = Some (it2, Some ci) ->
  exists fc,
    fillColor it = Some fc
    /\ ci = snapColor pal (SString (toCSS fc)) limit
    /\ geometry it2 = geometry it.
Proof.
  unfold fillSnapped. destruct (fillColor it) as [fc|]; [|discriminate].
  unfold snapEntry. destruct (pal !! _) as [entry|]; [|discriminate].
  cbn. intros Heq. injection Heq as <- <-. exists fc. repeat split.
Qed.

Lemma outlineItemOf_inv (pal : list ColorData) (it2 ot : Item) (ci : nat) :
  outlineItemOf pal it2 ci = Some ot ->
  exists darker,
    pal !! (ci + 1)%nat = Some darker
    /\ ot = mkItem (setColorIndex (ci + 1) (setFill false (data it2)))
                   (Some (colorOfString (HEX darker)))
                   (num 5) None (geometry it2).
Proof.
  unfold outlineItemOf. destruct (pal !! (ci + 1)%nat) as [darker|];
    [|discriminate].
  cbn. intros Heq. injection Heq as <-. eauto.
Qed.


(** C5, as the code has it.  With the outline flag the limit argument
    is not used: the match runs under the limit [length - 1].  On a palette
    of at least two shades the call returns, the children of the layer are
    the former ones followed by the outlines, and there is one outline per
    child with a fill colour, in order: a new object stroked with the shade
    after the fill match, of width 5, without fill.  (With fewer shades no
    entry follows the fill match and the call throws.) *)
Theorem autoColor_outlines
    (pal : list ColorData) (layer : LayerId) (limit : option Z) (s : Scene) :
  wf s -> NoDup (childrenOf layer s) ->
  (forall i, i ∈ childrenOf layer s -> is_Some (heap s !! i)) ->
  (2 <= length pal)%nat ->
  (forall limit', autoColor pal layer limit true s
                  = autoColor pal layer limit' true s)
  /\ effectiveLimit pal limit true = Some (Z.of_nat (length pal) - 1)%Z
  /\ exists s' outlines,
       autoColor pal layer limit true s = Some s'
       /\ childrenOf layer s' = childrenOf layer s ++ outlines
       /\ Forall2 (strokeOnlyCopy pal s s')
                  (filter (filled s) (childrenOf layer s)) outlines.
Proof.
  intros Hwf Hnd Hall Htwo. split; [reflexivity|]. split; [reflexivity|].
  unfold autoColor.
  set (lim := Some (Z.of_nat (length pal) - 1)%Z).
  assert (Hne : pal <> []) by (destruct pal; [cbn in Htwo; lia|discriminate]).
  assert (Hdark : true = true -> leavesDarker pal lim).
  { intros _. eexists. split; [reflexivity|]. lia. }
  destruct (autoColor_loop_some pal lim true Hne Hdark _ s [] Hwf Hnd Hall)
    as [[s1 outs1] Hrun].
  rewrite Hrun. cbn [mbind option_bind].
  destruct (autoColor_loop pal lim true _ _ _ _ _ Hwf Hnd Hall Hrun)
    as (Hl & Hwf1 & Hn & _ & _ & news & Houts & Hnews & Hndn & Hout).
  cbn [app] in Houts. subst outs1.
  assert (Hfresh : forall o, o ∈ news -> detached o s1).
  { intros o Ho l ids Hids Hin. rewrite Hl in Hids.
    destruct Hwf as [Hlay _]. specialize (Hlay l ids o Hids Hin).
    specialize (Hnews o Ho). lia. }
  destruct (addChildren_fresh layer news s1 Hfresh Hndn) as [Hc Hh].
  exists (addChildren layer news s1), news.
  split; [now destruct news|].
  split; [rewrite Hc; now rewrite (childrenOf_layers layer _ _ Hl)|].
  eapply Forall2_impl; [exact Hout|].
  intros i o (it & it1 & it2 & ci & ot & Hit & Hs & Hf & Hot & Hnone & Hsome).
  destruct (fillSnapped_inv _ _ _ _ _ Hf) as (fc & Hfc & Hci & Hg2).
  destruct (strokeSnapped_fill _ _ _ _ Hs) as [Hfc1 Hg1].
  destruct (outlineItemOf_inv _ _ _ _ Hot) as (darker & Hd & ->).
  eexists it, fc, darker, _. cbv zeta. fold lim. rewrite <- Hci.
  split; [exact Hit|]. split; [now rewrite <- Hfc1|]. split; [exact Hnone|].
  split; [exact Hd|]. split; [rewrite Hh; exact Hsome|].
  cbn. repeat split. now rewrite Hg2, Hg1.
Qed.

End AutoColor.

Lemma wf_oneItem (P : PaperLib) (it : @Item P) : wf (Fixture.oneItem P it).
Proof.
  split; cbn.
  - intros l ids i Hl Hi. apply lookup_singleton_Some in Hl.
    destruct Hl as [_ <-]. apply list_elem_of_singleton in Hi. now subst.
  - intros i [x Hx]. apply lookup_singleton_Some in Hx.
    destruct Hx as [<- _]. reflexivity.
Qed.

Section Broken.

#[local] Existing Instance Fixture.brokenPaper.
#[local] Existing Instance Fixture.toyClipper.
#[local] Existing Instance Fixture.toyRuntime.

Import Fixture.

(** C1, as worded, fails: when flattening throws, the call returns the
    input path, which is still a child of its layer. *)
Lemma offsetPath_throw_returns_input :
  exists s',
    offsetPath 1%positive (num (-5)) (num 2) false brokenScene
    = Some (VItem 1%positive, s')
    /\ childrenOf 1%positive s' = [1%positive].
Proof.
  eexists. split; [reflexivity|]. reflexivity.
Qed.

Lemma offsetPath_flatten_failure_witness :
  wf brokenScene
  /\ heap brokenScene !! 1%positive = Some brokenSquare
  /\ flattenToPaths (geometry brokenSquare) (num 2) = None
  /\ exists s',
       offsetPath 1%positive (num (-5)) (num 2) false brokenScene
       = Some (VItem 1%positive, s')
       /\ layers s' = layers brokenScene
       /\ heap s' !! 1%positive = Some brokenSquare
       /\ console s' = console brokenScene ++ [name (data brokenSquare)].
Proof.
  split; [apply wf_oneItem|]. split; [reflexivity|]. split; [reflexivity|].
  apply (proj1 offsetPath_flatten_failure 1%positive brokenSquare (num (-5))
           (num 2) false brokenScene).
  - apply wf_oneItem.
  - reflexivity.
  - reflexivity.
Defined.

End Broken.

Section Plain.

#[local] Existing Instance Fixture.plainPaper.
#[local] Existing Instance Fixture.toyClipper.
#[local] Existing Instance Fixture.toyRuntime.

Import Fixture.

Lemma destroyThinItem_adds_survivors_only_witness :
  wf plainScene
  /\ heap plainScene !! 1%positive = Some plainSquare
  /\ exists mask s0 m1 s1,
       Some (1%positive, plainScene) = Some (mask, s0)
       /\ offsetPath mask (jneg (num 5)) (num 2) false s0 = Some (m1, s1)
       /\ match m1 with
          | VFalse =>
              destroyThinItem 1%positive (num 5) false plainScene 1%positive
              = Some s1
              /\ layers s1 = layers (removeItem mask s0)
              /\ (forall L x, x ∈ childrenOf L s1 -> x ∈ childrenOf L plainScene)
          | VItem e =>
              exists m2 s2,
                offsetPath e (num 5) (num 2) false s1 = Some (m2, s2)
                /\ match m2 with
                   | VFalse =>
                       destroyThinItem 1%positive (num 5) false plainScene 1%positive
                       = Some s2
                       /\ layers s2 = layers (removeItem e s1)
                   | VItem r =>
                       destroyThinItem 1%positive (num 5) false plainScene 1%positive
                       = Some (addChild 1%positive (VItem r) s2)
                       /\ childrenOf 1%positive (addChild 1%positive (VItem r) s2)
                          = filter (fun x => x <> r) (childrenOf 1%positive s2)
                            ++ [r]
                   end
          end.
Proof.
  split; [apply wf_oneItem|]. split; [reflexivity|].
  apply (destroyThinItem_adds_survivors_only 1%positive (num 5) false plainScene
           1%positive plainSquare).
  - apply wf_oneItem.
  - reflexivity.
Defined.

(** On the square the inward offset of the fixture erases the shape: the
    layer ends up empty. *)
Example destroyThinFeatures_erases_square :
  childrenOf 1%positive
    <$> destroyThinFeatures 1%positive (num 5) false plainScene = Some [].
Proof. reflexivity. Qed.

(** With a zero amount both offsets keep the shape, which comes back as a
    new child. *)
Example destroyThinFeatures_keeps_square :
  childrenOf 1%positive
    <$> destroyThinFeatures 1%positive (num 0) false plainScene
  = Some [5%positive].
Proof. reflexivity. Qed.

Lemma canvas_children_alive :
  forall i, i ∈ childrenOf 1%positive canvas -> is_Some (heap canvas !! i).
Proof.
  intros i Hi. apply list_elem_of_singleton in Hi. subst i. eexists. reflexivity.
Qed.

Lemma canvas_children_nodup : NoDup (childrenOf 1%positive canvas).
Proof. apply NoDup_singleton. Qed.


(** On the fixture the stroke matches shade 1 and the fill shade 0; the
    item ends with 0. *)
Example autoColor_fill_index_wins :
  snapColor shades (SString "rgb(226,188,21)") None = 1%nat
  /\ snapColor shades (SString "rgb(255,234,126)") None = 0%nat
  /\ (s' ← autoColor shades 1%positive None false canvas;
      it ← heap s' !! 1%positive;
      Some (color (data it), fill (data it)))
     = Some (Some 0%nat, Some true).
Proof. repeat split; reflexivity. Qed.

Lemma autoColor_outlines_witness :
  wf canvas
  /\ NoDup (childrenOf 1%positive canvas)
  /\ (2 <= length shades)%nat
  /\ (forall limit', autoColor shades 1%positive (Some 1%Z) true canvas
                     = autoColor shades 1%positive limit' true canvas)
  /\ effectiveLimit shades (Some 1%Z) true = Some 3%Z
  /\ exists s' outlines,
       autoColor shades 1%positive (Some 1%Z) true canvas = Some s'
       /\ childrenOf 1%positive s' = childrenOf 1%positive canvas ++ outlines
       /\ Forall2 (strokeOnlyCopy shades canvas s')
                  (filter (filled canvas) (childrenOf 1%positive canvas))
                  outlines.
Proof.
  assert (Hlen : (2 <= length shades)%nat) by (cbn; lia).
  split; [apply wf_oneItem|]. split; [apply canvas_children_nodup|].
  split; [exact Hlen|].
  apply (autoColor_outlines shades 1%positive (Some 1%Z) canvas).
  - apply wf_oneItem.
  - apply canvas_children_nodup.
  - apply canvas_children_alive.
  - exact Hlen.
Defined.

(** C5, as worded, fails on a palette of one shade.  The limit is forced
    to 0, which [snapColor] takes as no limit; the fill of the square
    matches entry 0, the palette has no entry 1, and the read of its colour
    throws: the call does not return and no outline is made for the filled
    square. *)
Lemma autoColor_outline_one_shade :
  let pal := snapColorSetup ["#ffea7e"] in
  effectiveLimit pal None true = Some 0%Z
  /\ filled canvas 1%positive
  /\ snapColor pal (SString "rgb(255,234,126)") (Some 0%Z) = 0%nat
  /\ pal !! (0 + 1)%nat = None
  /\ autoColor pal 1%positive None true canvas = None
  /\ ~ (exists s' outlines,
          autoColor pal 1%positive None true canvas = Some s'
          /\ Forall2 (strokeOnlyCopy pal canvas s')
                     (filter (filled canvas) (childrenOf 1%positive canvas))
                     outlines).
Proof.
  intros pal.
  assert (Hrun : autoColor pal 1%positive None true canvas = None)
    by (vm_compute; reflexivity).
  split; [reflexivity|]. split.
  { exists painted. split; [reflexivity|]. eexists. reflexivity. }
  split; [vm_compute; reflexivity|]. split; [reflexivity|].
  split; [exact Hrun|].
  intros (s' & outlines & Heq & _). rewrite Hrun in Heq. discriminate Heq.
Qed.

(** On the fixture the outline is the new child 2, stroked with shade 1. *)
Example autoColor_outline_of_square :
  (s' ← autoColor shades 1%positive (Some 1%Z) true canvas;
   ot ← heap s' !! 2%positive;
   Some (childrenOf 1%positive s', strokeColor ot, fillColor ot,
         color (data ot)))
  = Some ([1%positive; 2%positive], Some "#e2bc15"%string, None, Some 1%nat).
Proof. reflexivity. Qed.

End Plain.

End PaperFacts.

(** ** [rgbToHSL] *)
Module HSLFacts.

Import Str ColorSpace ColorConv Palette QcArith.
Local Open Scope Qc_scope.

Lemma max_fin (x y : Qc) :
  exists M, max (Fin x) (Fin y) = Fin M /\ x <= M /\ y <= M /\ (M = x \/ M = y).
Proof.
  unfold max, jlt. case_bool_decide as Hxy.
  - exists y. split; [reflexivity|]. split; [now apply Qclt_le_weak|].
    split; [apply Qcle_refl|now right].
  - exists x. split; [reflexivity|]. split; [apply Qcle_refl|].
    split; [now apply Qcnot_lt_le|now left].
Qed.

Lemma min_fin (x y : Qc) :
  exists m, JS.min (Fin x) (Fin y) = Fin m /\ m <= x /\ m <= y /\ (m = x \/ m = y).
Proof.
  unfold JS.min, jlt. case_bool_decide as Hxy.
  - exists y. split; [reflexivity|]. split; [now apply Qclt_le_weak|].
    split; [apply Qcle_refl|now right].
  - exists x. split; [reflexivity|]. split; [apply Qcle_refl|].
    split; [now apply Qcnot_lt_le|now left].
Qed.

Lemma channel_fin (q : Qc) : jdiv (Fin q) (num 255) = Fin (q / Qc_of_Z 255).
Proof. reflexivity. Qed.

Lemma channel_unit (q : Qc) :
  0 <= q <= Qc_of_Z 255 -> 0 <= q / Qc_of_Z 255 <= 1.
Proof.
  intros [Hlo Hhi]. apply div_between; [reflexivity| |]; qc_lra.
Qed.

Lemma strictEq_fin (x y : Qc) : strictEq (Fin x) (Fin y) = bool_decide (x = y).
Proof.
  unfold strictEq. simpl. apply bool_decide_ext. split; congruence.
Qed.

Lemma fin_div (x y : Qc) : y <> 0 -> jdiv (Fin x) (Fin y) = Fin (x / y).
Proof. intros Hy. simpl. now rewrite bool_decide_eq_false_2. Qed.

(** X1.  For a colour whose three channels lie in [0, 255], rgbToHSL
    returns three finite numbers, hue, saturation and lightness, each in
    [0, 1]. *)
Theorem rgbToHSL_unit_range (rgb : RGBValue) :
  inGamut rgb ->
  exists h s l : Qc,
    rgbToHSL rgb = Some (Fin h, Fin s, Fin l)
    /\ 0 <= h <= 1 /\ 0 <= s <= 1 /\ 0 <= l <= 1.
Proof.
  intros (r0 & g0 & b0 & rest & -> & Hr & Hg & Hb).
  unfold rgbToHSL. cbn [at_ nth]. rewrite !channel_fin.
  apply channel_unit in Hr, Hg, Hb.
  set (r := r0 / Qc_of_Z 255) in *. set (g := g0 / Qc_of_Z 255) in *.
  set (b := b0 / Qc_of_Z 255) in *. clearbody r g b. clear r0 g0 b0 rest.
  destruct (max_fin r g) as (M1 & -> & HM1r & HM1g & HM1).
  destruct (max_fin M1 b) as (M & -> & HM1' & HMb & HM).
  destruct (min_fin r g) as (m1 & -> & Hm1r & Hm1g & Hm1).
  destruct (min_fin m1 b) as (m & -> & Hm1' & Hmb & Hm).
  assert (HmM : m <= M) by (destruct Hm1 as [-> | ->]; qc_lra).
  assert (Hm0 : 0 <= m).
  { destruct Hm as [-> | ->]; [destruct Hm1 as [-> | ->]|]; tauto. }
  assert (HM1u : M <= 1).
  { destruct HM as [-> | ->]; [destruct HM1 as [-> | ->]|]; tauto. }
  change ((Fin M + Fin m) / num 2)%js with (Fin ((M + m) / Qc_of_Z 2)).
  assert (Hl : 0 <= (M + m) / Qc_of_Z 2 <= 1).
  { apply div_between; [reflexivity| |]; qc_lra. }
  rewrite strictEq_fin. case_bool_decide as HMm.
  - exists (Qc_of_Z 0), (Qc_of_Z 0), ((M + m) / Qc_of_Z 2). split; [reflexivity|].
    split; [split; discriminate|]. split; [split; discriminate|exact Hl].
  - assert (Hd : 0 < M - m).
    { destruct (Qcle_lt_or_eq _ _ HmM) as [Hlt|Heq]; [qc_lra|].
      now rewrite Heq in HMm. }
    change (Fin M - Fin m)%js with (Fin (M - m)).
    assert (Hs : exists s, (if (dec 5 10 <? Fin ((M + m) / Qc_of_Z 2))%js
                  then (Fin (M - m) / (num 2 - Fin M - Fin m))%js
                  else (Fin (M - m) / (Fin M + Fin m))%js) = Fin s
                 /\ 0 <= s <= 1).
    { change (num 2 - Fin M - Fin m)%js with (Fin (Qc_of_Z 2 - M - m)).
      change (Fin M + Fin m)%js with (Fin (M + m)).
      assert (H1 : 0 < Qc_of_Z 2 - M - m) by qc_lra.
      assert (H2 : 0 < M + m) by qc_lra.
      destruct (jlt _ _).
      - rewrite fin_div by (intros E; rewrite E in H1; discriminate H1).
        eexists; split; [reflexivity|]. apply div_between; [exact H1| |]; qc_lra.
      - rewrite fin_div by (intros E; rewrite E in H2; discriminate H2).
        eexists; split; [reflexivity|]. apply div_between; [exact H2| |]; qc_lra. }
    destruct Hs as (s & -> & Hs).
    assert (Hd0 : M - m <> 0) by (intros E; rewrite E in Hd; discriminate Hd).
    assert (Hh : exists h6, (if strictEq (Fin M) (Fin r)
           then
            (Fin g - Fin b) / Fin (M - m) +
            (if Fin g <? Fin b then num 6 else num 0)
           else
            if strictEq (Fin M) (Fin g)
            then (Fin b - Fin r) / Fin (M - m) + num 2
            else
             if strictEq (Fin M) (Fin b)
             then (Fin r - Fin g) / Fin (M - m) + num 4
             else NaN)%js = Fin h6 /\ 0 <= h6 <= Qc_of_Z 6).
    { rewrite !strictEq_fin.
      change (Fin g - Fin b)%js with (Fin (g - b)).
      change (Fin b - Fin r)%js with (Fin (b - r)).
      change (Fin r - Fin g)%js with (Fin (r - g)).
      rewrite !fin_div by exact Hd0.
      assert (Hgb : - (1) <= (g - b) / (M - m) <= 1)
        by (apply div_between; [exact Hd| |]; qc_lra).
      assert (Hbr : - (1) <= (b - r) / (M - m) <= 1)
        by (apply div_between; [exact Hd| |]; qc_lra).
      assert (Hrg : - (1) <= (r - g) / (M - m) <= 1)
        by (apply div_between; [exact Hd| |]; qc_lra).
      case_bool_decide as E1; [|case_bool_decide as E2; [|case_bool_decide as E3]].
      - unfold jlt. case_bool_decide as Hlt.
        + eexists; split; [reflexivity|].
          assert (Hneg : (g - b) / (M - m) <= 0)
            by (apply div_between with (lo := - (1)); [exact Hd| |]; qc_lra).
          set (q := (g - b) / (M - m)) in *. clearbody q. qc_lra.
        + eexists; split; [reflexivity|].
          assert (Hpos : 0 <= (g - b) / (M - m))
            by (apply div_between with (hi := 1); [exact Hd| |]; qc_lra).
          set (q := (g - b) / (M - m)) in *. clearbody q. qc_lra.
      - eexists; split; [reflexivity|].
        set (q := (b - r) / (M - m)) in *. clearbody q. qc_lra.
      - eexists; split; [reflexivity|].
        set (q := (r - g) / (M - m)) in *. clearbody q. qc_lra.
      - exfalso. destruct HM as [-> | ->]; [destruct HM1 as [-> | ->]|]; tauto. }
    destruct Hh as (h6 & -> & Hh6).
    exists (h6 / Qc_of_Z 6), s, ((M + m) / Qc_of_Z 2).
    split; [reflexivity|]. split; [|split; assumption].
    apply div_between; [reflexivity| |]; qc_lra.
Qed.

Lemma rgbToHSL_unit_range_witness :
  inGamut (Some [num 255; num 128; num 0])
  /\ exists h s l : Qc,
       rgbToHSL (Some [num 255; num 128; num 0]) = Some (Fin h, Fin s, Fin l)
       /\ 0 <= h <= 1 /\ 0 <= s <= 1 /\ 0 <= l <= 1.
Proof.
  assert (Hg : inGamut (Some [num 255; num 128; num 0])).
  { apply PaletteFacts.inGamut_bytes; lia. }
  split; [exact Hg|].
  exact (rgbToHSL_unit_range (Some [num 255; num 128; num 0]) Hg).
Defined.

Lemma pos_div_ne0 (d x : Qc) : 0 < d -> jdiv (Fin d) (Fin x) <> num 0.
Proof.
  intros Hd. unfold jdiv. case_bool_decide as Hx.
  - destruct (qsign d); discriminate.
  - intros E. unfold num in E.
    assert (E' : d / x = Qc_of_Z 0) by congruence.
    assert (Hdx : d = d / x * x) by (field; exact Hx).
    rewrite E' in Hdx. rewrite Hdx in Hd. qc_lra.
Qed.

Lemma channel_inj (x y : Qc) : x / Qc_of_Z 255 = y / Qc_of_Z 255 -> x = y.
Proof. intros E. qc_lra. Qed.

(** Grey and coloured inputs, on the quotients of the channels by 255 taken
    as rationals. *)
Lemma rgbToHSL_gray_rational (r g b : Qc) (rest : list jsnum) :
  let hsl := rgbToHSL (Some (Fin r :: Fin g :: Fin b :: rest)) in
  (r = g /\ g = b -> hsl = Some (num 0, num 0, Fin (r / Qc_of_Z 255)))
  /\ (~ (r = g /\ g = b) -> exists h s l, hsl = Some (h, s, l) /\ s <> num 0).
Proof.
  cbv zeta. unfold rgbToHSL. cbn [at_ nth]. rewrite !channel_fin.
  split.
  - intros [<- <-]. set (x := r / Qc_of_Z 255).
    assert (Hmax : max (max (Fin x) (Fin x)) (Fin x) = Fin x).
    { unfold max, jlt. rewrite bool_decide_eq_false_2 by apply Qclt_irrefl.
      now rewrite bool_decide_eq_false_2 by apply Qclt_irrefl. }
    assert (Hmin : JS.min (JS.min (Fin x) (Fin x)) (Fin x) = Fin x).
    { unfold JS.min, jlt. rewrite bool_decide_eq_false_2 by apply Qclt_irrefl.
      now rewrite bool_decide_eq_false_2 by apply Qclt_irrefl. }
    rewrite Hmax, Hmin, strictEq_fin, bool_decide_eq_true_2 by reflexivity.
    do 3 f_equal. change ((Fin x + Fin x) / num 2)%js with (Fin ((x + x) / Qc_of_Z 2)).
    f_equal. qc_lra.
  - intros Hne.
    set (r' := r / Qc_of_Z 255) in *. set (g' := g / Qc_of_Z 255) in *.
    set (b' := b / Qc_of_Z 255) in *.
    destruct (max_fin r' g') as (M1 & -> & HM1r & HM1g & HM1).
    destruct (max_fin M1 b') as (M & -> & HM1' & HMb & HM).
    destruct (min_fin r' g') as (m1 & -> & Hm1r & Hm1g & Hm1).
    destruct (min_fin m1 b') as (m & -> & Hm1' & Hmb & Hm).
    rewrite strictEq_fin. case_bool_decide as HMm.
    + exfalso. apply Hne. subst m.
      assert (Hrg : r' = g') by (clear Hne HM HM1 Hm Hm1; qc_lra).
      assert (Hgb : g' = b') by (clear Hne HM HM1 Hm Hm1; qc_lra).
      split; apply channel_inj; assumption.
    + assert (Hd : 0 < M - m).
      { assert (HmM : m <= M) by (clear Hne HM HM1 Hm Hm1 HMm; qc_lra).
        destruct (Qcle_lt_or_eq _ _ HmM) as [Hlt|Heq];
          [clear Hne HM HM1 Hm Hm1 HMm; qc_lra|]. now rewrite Heq in HMm. }
      eexists _, _, _. split; [reflexivity|].
      change (Fin M - Fin m)%js with (Fin (M - m)).
      change (num 2 - Fin M - Fin m)%js with (Fin (Qc_of_Z 2 - M - m)).
      change (Fin M + Fin m)%js with (Fin (M + m)).
      destruct (jlt _ _); now apply pos_div_ne0.
Qed.

Lemma Qc_of_Z_inj (a b : Z) : Qc_of_Z a = Qc_of_Z b -> a = b.
Proof.
  intros E. apply this_eq in E. cbn [this Qc_of_Z] in E.
  unfold Qeq, inject_Z in E. cbn [Qnum Qden] in E. lia.
Qed.

(** X2.  For whole channels between 0 and 255, rgbToHSL returns hue 0 and
    saturation 0 when the three channels are equal, and a result whose
    saturation is not 0 when they are not: the saturation is 0 exactly for
    the greys. *)
Theorem rgbToHSL_gray_iff (r g b : Z) (rest : list jsnum) :
  (0 <= r <= 255)%Z -> (0 <= g <= 255)%Z -> (0 <= b <= 255)%Z ->
  let hsl := rgbToHSL (Some (num r :: num g :: num b :: rest)) in
  (r = g /\ g = b -> exists l, hsl = Some (num 0, num 0, l))
  /\ (~ (r = g /\ g = b) -> exists h s l, hsl = Some (h, s, l) /\ s <> num 0)
  /\ ((exists h l, hsl = Some (h, num 0, l)) <-> (r = g /\ g = b)).
Proof.
  intros _ _ _. cbv zeta.
  change (num r) with (Fin (Qc_of_Z r)). change (num g) with (Fin (Qc_of_Z g)).
  change (num b) with (Fin (Qc_of_Z b)).
  destruct (rgbToHSL_gray_rational (Qc_of_Z r) (Qc_of_Z g) (Qc_of_Z b) rest)
    as [Hgrey Hcol]. cbv zeta in Hgrey, Hcol.
  assert (Hiff : (Qc_of_Z r = Qc_of_Z g /\ Qc_of_Z g = Qc_of_Z b)
                 <-> (r = g /\ g = b)).
  { split.
    - intros [E1 E2]. split; now apply Qc_of_Z_inj.
    - intros [-> ->]. split; reflexivity. }
  split; [|split].
  - intros Heq. rewrite Hgrey by now apply Hiff. eauto.
  - intros Hne. apply Hcol. intros Heq. apply Hne. now apply Hiff.
  - split.
    + intros (h & l & Heq).
      destruct (decide (r = g /\ g = b)) as [Hyes|Hno]; [exact Hyes|].
      destruct Hcol as (h' & s' & l' & Heq' & Hs').
      { intros E. apply Hno. now apply Hiff. }
      rewrite Heq in Heq'. injection Heq' as _ <- _. now destruct Hs'.
    + intros Heq. rewrite Hgrey by now apply Hiff. eauto.
Qed.

Lemma rgbToHSL_gray_iff_witness :
  (exists l, rgbToHSL (Some [num 128; num 128; num 128])
             = Some (num 0, num 0, l))
  /\ (exists h s l, rgbToHSL (Some [num 255; num 128; num 0]) = Some (h, s, l)
                    /\ s <> num 0).
Proof.
  split.
  - apply (proj1 (rgbToHSL_gray_iff 128 128 128 []
                    ltac:(lia) ltac:(lia) ltac:(lia))).
    split; reflexivity.
  - apply (proj1 (proj2 (rgbToHSL_gray_iff 255 128 0 []
                           ltac:(lia) ltac:(lia) ltac:(lia)))).
    intros [E _]. discriminate E.
Defined.
End HSLFacts.

(** ** [rgbToHex] *)
Module HexFacts.

Import Str ColorSpace ColorConv ColorFacts.
Local Open Scope Z_scope.

Lemma log2_div16 (n : Z) : 16 <= n -> Z.log2 (n / 16) < Z.log2 n.
Proof.
  intros Hn. apply Z.log2_lt_pow2.
  - apply Z.div_str_pos. lia.
  - destruct (Z.log2_spec n) as [_ Hhi]; [lia|].
    apply Z.div_lt_upper_bound; [lia|].
    rewrite Z.pow_succ_r in Hhi by apply Z.log2_nonneg. lia.
Qed.

Lemma hexDigits_fuel (f1 : nat) :
  forall (f2 : nat) (n : Z),
    0 <= n -> Z.log2 n <= Z.of_nat f1 -> Z.log2 n <= Z.of_nat f2 ->
    hexDigits f1 n = hexDigits f2 n.
Proof.
  induction f1 as [|f1 IH]; intros f2 n Hn H1 H2.
  - assert (Hsmall : n < 16).
    { destruct (Z.lt_ge_cases n 16) as [Hlt|Hge]; [exact Hlt|].
      assert (4 <= Z.log2 n) by (apply (Z.log2_le_pow2 n 4); lia). lia. }
    destruct f2 as [|f2]; simpl; [reflexivity|].
    now rewrite (proj2 (Z.ltb_lt _ _) Hsmall).
  - simpl. destruct (Z.ltb_spec n 16) as [Hlt|Hge].
    + destruct f2 as [|f2]; simpl; [reflexivity|].
      now rewrite (proj2 (Z.ltb_lt _ _) Hlt).
    + pose proof (log2_div16 n Hge) as Hlog.
      pose proof (Z.log2_nonneg (n / 16)) as Hnn.
      destruct f2 as [|f2]; [lia|]. simpl.
      rewrite (proj2 (Z.ltb_ge _ _) Hge).
      rewrite (IH f2 (n / 16)); [reflexivity| |lia|lia].
      apply Z.div_pos; lia.
Qed.

Lemma toString16_small (n : Z) : 0 <= n < 16 -> toString16 n = [hexDigit n].
Proof.
  intros Hn. unfold toString16. destruct (Z.to_nat (Z.log2 n)); simpl;
    [reflexivity|]. now rewrite (proj2 (Z.ltb_lt _ _) (proj2 Hn)).
Qed.

Lemma toString16_step (n : Z) :
  16 <= n -> toString16 n = toString16 (n / 16) ++ [hexDigit (n mod 16)].
Proof.
  intros Hn. unfold toString16.
  pose proof (log2_div16 n Hn) as Hlog.
  pose proof (Z.log2_nonneg (n / 16)) as Hnn.
  destruct (Z.to_nat (Z.log2 n)) as [|f] eqn:Hf; [lia|]. simpl.
  rewrite (proj2 (Z.ltb_ge _ _) Hn). f_equal.
  apply hexDigits_fuel; [apply Z.div_pos; lia|lia|lia].
Qed.

Lemma toString16_last (n : Z) :
  0 <= n -> exists pre, toString16 n = pre ++ [hexDigit (n mod 16)].
Proof.
  intros Hn. destruct (Z.lt_ge_cases n 16) as [Hlt|Hge].
  - exists []. rewrite toString16_small by lia. now rewrite Z.mod_small by lia.
  - eexists. apply toString16_step. exact Hge.
Qed.

Lemma sliceList_last2 {A} (pre : list A) (a b : A) :
  sliceList (pre ++ [a; b]) (-2) (Z.of_nat (length (pre ++ [a; b]))) = [a; b].
Proof.
  unfold sliceList, clampIndex. rewrite length_app. simpl length.
  change (-2 <? 0) with true. cbv iota.
  destruct (Z.ltb_spec (Z.of_nat (length pre + 2)) 0) as [Hlt|Hge]; [lia|].
  replace (Z.max (Z.of_nat (length pre + 2) + -2) 0) with (Z.of_nat (length pre)) by lia.
  rewrite Z.min_id, Nat2Z.id.
  rewrite drop_app_length.
  replace (Z.to_nat (Z.of_nat (length pre + 2) - Z.of_nat (length pre))) with 2%nat by lia.
  reflexivity.
Qed.

(** The two characters [hex] returns are the last two hexadecimal digits of
    the value read. *)
Lemma hex_value (x : list Z) :
  0 <= digitsValue 10 x ->
  hex x = [hexDigit (digitsValue 10 x / 16 mod 16); hexDigit (digitsValue 10 x mod 16)].
Proof.
  unfold hex. set (v := digitsValue 10 x). intros Hv. cbv zeta.
  destruct (Z.lt_ge_cases v 16) as [Hlt|Hge].
  - rewrite toString16_small by lia.
    rewrite Z.div_small, Z.mod_0_l, (Z.mod_small v) by lia. reflexivity.
  - rewrite toString16_step by exact Hge.
    destruct (toString16_last (v / 16)) as [pre ->]; [apply Z.div_pos; lia|].
    rewrite <- app_assoc. simpl app.
    exact (sliceList_last2 ("0"%char :: pre) _ _).
Qed.

Lemma hexVal_hexDigit (d : Z) : 0 <= d < 16 -> hexVal (hexDigit d) = Some d.
Proof.
  intros Hd.
  assert (H : d = 0 \/ d = 1 \/ d = 2 \/ d = 3 \/ d = 4 \/ d = 5 \/ d = 6
              \/ d = 7 \/ d = 8 \/ d = 9 \/ d = 10 \/ d = 11 \/ d = 12
              \/ d = 13 \/ d = 14 \/ d = 15) by lia.
  repeat (destruct H as [-> | H]; [reflexivity|]). now subst d.
Qed.

Lemma hexByte_value (v : Z) :
  0 <= v ->
  hexByte (hexDigit (v / 16 mod 16)) (hexDigit (v mod 16)) = Some (v mod 256).
Proof.
  intros Hv. unfold hexByte.
  rewrite !hexVal_hexDigit by (apply Z.mod_pos_bound; lia).
  f_equal. change 256 with (16 * 16). rewrite Z.rem_mul_r by lia. lia.
Qed.

Lemma spanDigits_app (ds : list Z) (c : ascii) (rest : list ascii) :
  Forall (fun d => 0 <= d <= 9) ds -> digitVal c = None ->
  spanDigits (map digitChar ds ++ c :: rest) = (ds, c :: rest).
Proof.
  intros Hds Hc. induction Hds as [|d ds Hd _ IH]; simpl.
  - now rewrite Hc.
  - rewrite (digitVal_digitChar d Hd). now rewrite IH.
Qed.

Lemma trimStart_digits (ds : list Z) (rest : list ascii) :
  isDigits ds ->
  trimStart (map digitChar ds ++ rest) = map digitChar ds ++ rest.
Proof.
  intros [Hne Hds]. destruct Hds as [|d ds Hd _]; [contradiction|].
  simpl map. simpl app. apply trimStart_keeps.
  exact (digit_not_white _ _ (digitVal_digitChar d Hd)).
Qed.

Lemma matchRgb_text (r g b : list Z) :
  isDigits r -> isDigits g -> isDigits b ->
  matchRgb (chars (rgbText r g b)) = Some (r, g, b).
Proof.
  intros Hr Hg Hb. rewrite rgbText_chars.
  change (chars "rgb(" ++ ?x) with ("r"%char :: "g"%char :: "b"%char :: "("%char :: x).
  unfold matchRgb.
  repeat (rewrite <- app_assoc || rewrite <- app_comm_cons).
  rewrite (spanDigits_app r) by (apply Hr || reflexivity).
  destruct r as [|d1 r]; [now destruct Hr|].
  rewrite (trimStart_digits g) by exact Hg.
  rewrite (spanDigits_app g) by (apply Hg || reflexivity).
  destruct g as [|d2 g]; [now destruct Hg|].
  rewrite (trimStart_digits b) by exact Hb.
  rewrite (spanDigits_app b) by (apply Hb || reflexivity).
  destruct b as [|d3 b]; [now destruct Hb|].
  reflexivity.
Qed.

Lemma rgbToHex_text (r g b : list Z) :
  isDigits r -> isDigits g -> isDigits b ->
  rgbToHex (rgbText r g b)
  = ofChars ["#"%char;
             hexDigit (digitsValue 10 r / 16 mod 16); hexDigit (digitsValue 10 r mod 16);
             hexDigit (digitsValue 10 g / 16 mod 16); hexDigit (digitsValue 10 g mod 16);
             hexDigit (digitsValue 10 b / 16 mod 16); hexDigit (digitsValue 10 b mod 16)].
Proof.
  intros Hr Hg Hb. unfold rgbToHex. rewrite (matchRgb_text r g b Hr Hg Hb).
  rewrite !hex_value by (apply digitsValue_nonneg; apply Hr || apply Hg || apply Hb).
  reflexivity.
Qed.

(** X3.  rgbToHex is idempotent: a text it converts becomes a [#] form,
    which it returns unchanged, as it does every text that is not of the
    form rgb(digits, digits, digits). *)
Theorem rgbToHex_idempotent (s : string) : rgbToHex (rgbToHex s) = rgbToHex s.
Proof.
  unfold rgbToHex at 2 3.
  destruct (matchRgb (chars s)) as [[[r g] b]|] eqn:Hm.
  - unfold rgbToHex. now rewrite chars_ofChars.
  - unfold rgbToHex. now rewrite Hm.
Qed.

(** X4.  For decimal numerals r, g and b, each below 2^53, the text
    rgbToHex makes of rgb(r,g,b) is read back by colorStringToArray as the
    three values modulo 256: only the last two hexadecimal digits of a
    channel are kept.  For channels up to 255 the conversion and the rgb
    text are read as the same array. *)
Theorem rgbToHex_round_trip (r g b : list Z) :
  isDigits r -> isDigits g -> isDigits b ->
  digitsValue 10 r < 2 ^ 53 -> digitsValue 10 g < 2 ^ 53 ->
  digitsValue 10 b < 2 ^ 53 ->
  colorStringToArray (VString (rgbToHex (rgbText r g b)))
  = Some [num (digitsValue 10 r mod 256); num (digitsValue 10 g mod 256);
          num (digitsValue 10 b mod 256)]
  /\ (digitsValue 10 r <= 255 -> digitsValue 10 g <= 255 ->
      digitsValue 10 b <= 255 ->
      colorStringToArray (VString (rgbToHex (rgbText r g b)))
      = colorStringToArray (VString (rgbText r g b))).
Proof.
  intros Hr Hg Hb _ _ _.
  pose proof (digitsValue_nonneg r (proj2 Hr)) as Hvr.
  pose proof (digitsValue_nonneg g (proj2 Hg)) as Hvg.
  pose proof (digitsValue_nonneg b (proj2 Hb)) as Hvb.
  assert (Hhex : colorStringToArray (VString (rgbToHex (rgbText r g b)))
    = Some [num (digitsValue 10 r mod 256); num (digitsValue 10 g mod 256);
            num (digitsValue 10 b mod 256)]).
  { rewrite (rgbToHex_text r g b Hr Hg Hb).
    apply hex6_accepted; apply hexByte_value; assumption. }
  split; [exact Hhex|]. intros Lr Lg Lb.
  rewrite Hhex, (rgbText_exact r g b Hr Hg Hb) by lia.
  now rewrite !Z.mod_small by lia.
Qed.

Lemma rgbToHex_round_trip_witness :
  colorStringToArray (VString (rgbToHex (rgbText [3; 0; 0] [2; 5; 5] [0])))
  = Some [num 44; num 255; num 0].
Proof.
  assert (Hd : forall ds, ds <> [] -> Forall (fun d => 0 <= d <= 9) ds ->
                 isDigits ds) by (intros ds H1 H2; split; assumption).
  refine (proj1 (rgbToHex_round_trip [3; 0; 0] [2; 5; 5] [0] _ _ _ _ _ _)).
  - apply Hd; [discriminate|]. repeat constructor; lia.
  - apply Hd; [discriminate|]. repeat constructor; lia.
  - apply Hd; [discriminate|]. repeat constructor; lia.
  - vm_compute. reflexivity.
  - vm_compute. reflexivity.
  - vm_compute. reflexivity.
Defined.

End HexFacts.

(** ** [fitScale] and the layout of the copies *)
Module FitFacts.

Import Layout Fit QcArith JSFacts LayoutFacts HSLFacts.
Local Open Scope Qc_scope.

Lemma pos_ne0 (x : Qc) : 0 < x -> x <> 0.
Proof. intros H E. rewrite E in H. discriminate H. Qed.

Lemma least_fits (a b tw th : Qc) :
  0 < tw -> 0 < th ->
  least a b tw th * tw <= a /\ least a b tw th * th <= b
  /\ (least a b tw th * tw = a \/ least a b tw th * th = b).
Proof.
  intros Htw Hth. unfold least.
  assert (Ha : a / tw * tw = a) by (field; now apply pos_ne0).
  assert (Hb : b / th * th = b) by (field; now apply pos_ne0).
  case_bool_decide as Hlt.
  - rewrite Ha. split; [apply Qcle_refl|]. split; [|now left].
    apply Qcle_trans with (b / th * th); [|rewrite Hb; apply Qcle_refl].
    apply Qcmult_le_compat_r; now apply Qclt_le_weak.
  - rewrite Hb. split; [|split; [apply Qcle_refl|now right]].
    apply Qcle_trans with (a / tw * tw); [|rewrite Ha; apply Qcle_refl].
    apply Qcmult_le_compat_r; [now apply Qcnot_lt_le|now apply Qclt_le_weak].
Qed.

Lemma least_pos (a b tw th : Qc) :
  0 < a -> 0 < b -> 0 < tw -> 0 < th -> 0 < least a b tw th.
Proof.
  intros Ha Hb Htw Hth. unfold least.
  assert (H : forall x y, 0 < x -> 0 < y -> 0 < x / y).
  { intros x y Hx Hy. unfold Qclt in *. rewrite this_div.
    apply Qlt_shift_div_l; [exact Hy|]. now rewrite Qmult_0_l. }
  case_bool_decide; apply H; assumption.
Qed.

Lemma ternary_fin (a b tw th : Qc) :
  tw <> 0 -> th <> 0 ->
  (if (Fin a / Fin tw <? Fin b / Fin th)%js then (Fin a / Fin tw)%js
   else (Fin b / Fin th)%js) = Fin (least a b tw th).
Proof.
  intros Htw Hth. rewrite !fin_div by assumption. unfold jlt, least.
  now case_bool_decide.
Qed.

Lemma mul_pos (x y : Qc) : 0 < x -> 0 < y -> 0 < x * y.
Proof.
  intros Hx Hy. unfold Qclt in *. rewrite this_mult.
  now apply Qmult_lt_0_compat.
Qed.

(** X9.  On positive sizes and fills fitScale returns a positive factor
    under which the object is at most fillWidth of the view wide and at most
    fillHeight of the view high, and exactly that on one of the two axes. *)
Theorem fitScale_fits (ow oh vw vh fw fh : Qc)
    (fillWidth fillHeight : option jsnum) :
  0 < ow -> 0 < oh -> 0 < vw -> 0 < vh -> 0 < fw -> 0 < fh ->
  default (dec 8 10) fillWidth = Fin fw ->
  default (dec 8 10) fillHeight = Fin fh ->
  exists s : Qc,
    fitScale (mkBounds (Fin ow) (Fin oh)) (mkBounds (Fin vw) (Fin vh))
             fillWidth fillHeight = Fin s
    /\ 0 < s
    /\ s * ow <= vw * fw /\ s * oh <= vh * fh
    /\ (s * ow = vw * fw \/ s * oh = vh * fh).
Proof.
  intros How Hoh Hvw Hvh Hfw Hfh Efw Efh.
  exists (least (vw * fw) (vh * fh) ow oh).
  split.
  - unfold fitScale. rewrite Efw, Efh. cbn [width height].
    change (Fin vw * Fin fw)%js with (Fin (vw * fw)).
    change (Fin vh * Fin fh)%js with (Fin (vh * fh)).
    apply ternary_fin; now apply pos_ne0.
  - split; [apply least_pos; auto using mul_pos|].
    destruct (least_fits (vw * fw) (vh * fh) ow oh How Hoh) as (H1 & H2 & H3).
    auto.
Qed.

Lemma fitScale_fits_witness :
  exists s : Qc,
    fitScale (rect 100 50) (rect 1000 500) None (Some (dec 5 10)) = Fin s
    /\ 0 < s
    /\ s * Qc_of_Z 100 <= Qc_of_Z 1000 * Q2Qc (8 # 10)
    /\ s * Qc_of_Z 50 <= Qc_of_Z 500 * Q2Qc (5 # 10)
    /\ (s * Qc_of_Z 100 = Qc_of_Z 1000 * Q2Qc (8 # 10)
        \/ s * Qc_of_Z 50 = Qc_of_Z 500 * Q2Qc (5 # 10)).
Proof.
  apply (fitScale_fits (Qc_of_Z 100) (Qc_of_Z 50) (Qc_of_Z 1000) (Qc_of_Z 500)
           (Q2Qc (8 # 10)) (Q2Qc (5 # 10)) None (Some (dec 5 10)));
    reflexivity.
Defined.

(** X10.  For one copy and a trace width that passes the guard, the scale
    of getDuplicationLayout is the value fitScale returns for the trace in
    the griddle with its default fills, which is also the factor the editor
    scales an imported image by. *)
Theorem layout_one_copy_is_fitScale (tb gb : Bounds) :
  truthy (width tb) = true ->
  scale (getDuplicationLayout 1 tb gb) = fitScale tb gb None None
  /\ scale (getDuplicationLayout 1 tb gb) = importScale gb tb.
Proof.
  intros Hw. rewrite (scale_unfold 1 tb gb Hw). cbv zeta.
  cbn [toNumber]. rewrite fill_80. split; reflexivity.
Qed.

Lemma layout_one_copy_is_fitScale_witness :
  scale (getDuplicationLayout 1 (rect 100 100) (rect 1000 500))
  = fitScale (rect 100 100) (rect 1000 500) None None
  /\ scale (getDuplicationLayout 1 (rect 100 100) (rect 1000 500))
     = importScale (rect 1000 500) (rect 100 100).
Proof.
  apply (layout_one_copy_is_fitScale (rect 100 100) (rect 1000 500)).
  reflexivity.
Defined.

Lemma jmul_nan (a : jsnum) : (a * NaN)%js = NaN.
Proof. now destruct a. Qed.

Lemma positions_unfold (count : Z) (tb gb : Bounds) :
  truthy (width tb) = true ->
  positions (getDuplicationLayout count tb gb) =
    let qw := (width gb / num 4)%js in
    let qh := (height gb / num 4)%js in
    let ew := (qw / num 2)%js in
    let eh := (qh / num 2)%js in
    match count with
    | 1%Z => [ (qw * num 2, qh * num 2) ]%js
    | 2%Z =>
        if landscape tb gb
        then [ (qw * num 2, qh); (qw * num 2, qh * num 3) ]%js
        else [ (qw, qh * num 2); (qw * num 3, qh * num 2) ]%js
    | 4%Z =>
        [ (qw, qh); (qw * num 3, qh); (qw, qh * num 3);
          (qw * num 3, qh * num 3) ]%js
    | 8%Z =>
        if landscape tb gb
        then [ (qw, eh); (qw * num 3, eh); (qw, eh * num 3);
               (qw * num 3, eh * num 3); (qw, eh * num 5);
               (qw * num 3, eh * num 5); (qw, eh * num 7);
               (qw * num 3, eh * num 7) ]%js
        else [ (ew, qh); (ew * num 3, qh); (ew * num 5, qh);
               (ew * num 7, qh); (ew, qh * num 3); (ew * num 3, qh * num 3);
               (ew * num 5, qh * num 3); (ew * num 7, qh * num 3) ]%js
    | _ => []
    end.
Proof.
  intros Hw. unfold getDuplicationLayout, getDuplicationLayoutRun, landscape.
  rewrite Hw. simpl negb. cbv iota.
  destruct count as [|p|p]; try reflexivity.
  destruct p as [p|p|]; try reflexivity;
    destruct p as [p|p|]; try reflexivity;
    destruct p as [p|p|]; try reflexivity;
    destruct p as [p|p|]; try reflexivity.
Qed.

(** X11.  For a count other than 1, 2, 4 and 8 and a trace width that
    passes the guard, getDuplicationLayout returns no position and NaN as
    the scale. *)
Theorem layout_unsupported_count (count : Z) (tb gb : Bounds) :
  count <> 1%Z -> count <> 2%Z -> count <> 4%Z -> count <> 8%Z ->
  truthy (width tb) = true ->
  getDuplicationLayout count tb gb = mkLayout NaN [].
Proof.
  intros H1 H2 H4 H8 Hw.
  assert (Hs : scale (getDuplicationLayout count tb gb) = NaN).
  { rewrite (scale_unfold count tb gb Hw). cbv zeta.
    assert (Hfp : (toNumber (match count with
                | 1%Z => Some (num 80) | 2%Z => Some (num 50)
                | 4%Z => Some (num 35) | 8%Z => Some (num 25)
                | _ => None
                end) / num 100)%js = NaN).
    { destruct count as [|p|p]; try reflexivity.
      destruct p as [p|p|]; try reflexivity; try contradiction;
        destruct p as [p|p|]; try reflexivity; try contradiction;
        destruct p as [p|p|]; try reflexivity; try contradiction;
        destruct p as [p|p|]; try reflexivity; try contradiction. }
    rewrite Hfp, !jmul_nan. reflexivity. }
  assert (Hp : positions (getDuplicationLayout count tb gb) = []).
  { rewrite (positions_unfold count tb gb Hw). cbv zeta.
    destruct count as [|p|p]; try reflexivity.
    destruct p as [p|p|]; try reflexivity; try contradiction;
      destruct p as [p|p|]; try reflexivity; try contradiction;
      destruct p as [p|p|]; try reflexivity; try contradiction;
      destruct p as [p|p|]; try reflexivity; try contradiction. }
  destruct (getDuplicationLayout count tb gb) as [sc ps]. simpl in Hs, Hp.
  now subst.
Qed.

Lemma layout_unsupported_count_witness :
  getDuplicationLayout 3 (rect 100 100) (rect 1000 500) = mkLayout NaN [].
Proof.
  apply (layout_unsupported_count 3 (rect 100 100) (rect 1000 500));
    try discriminate. reflexivity.
Defined.

Lemma fill_fin (count : Z) :
  count = 1%Z \/ count = 2%Z \/ count = 4%Z \/ count = 8%Z ->
  (toNumber (match count with
             | 1%Z => Some (num 80) | 2%Z => Some (num 50)
             | 4%Z => Some (num 35) | 8%Z => Some (num 25)
             | _ => None
             end) / num 100)%js = Fin (fillOf count).
Proof. intros [-> | [-> | [-> | ->]]]; reflexivity. Qed.

Lemma layout_scale_fin (count : Z) (tw th gw gh : Qc) :
  count = 1%Z \/ count = 2%Z \/ count = 4%Z \/ count = 8%Z ->
  0 < tw -> 0 < th ->
  scale (getDuplicationLayout count (mkBounds (Fin tw) (Fin th))
                              (mkBounds (Fin gw) (Fin gh)))
  = Fin (least (gw * fillOf count) (gh * fillOf count) tw th).
Proof.
  intros Hc Htw Hth.
  rewrite scale_unfold
    by (simpl; rewrite bool_decide_eq_false_2; [reflexivity|now apply pos_ne0]).
  cbv zeta. rewrite (fill_fin count Hc). cbn [width height].
  change (Fin gw * Fin (fillOf count))%js with (Fin (gw * fillOf count)).
  change (Fin gh * Fin (fillOf count))%js with (Fin (gh * fillOf count)).
  apply ternary_fin; now apply pos_ne0.
Qed.

Ltac boxes :=
  cbn [map pairwiseApart length];
  repeat match goal with
    | |- _ /\ _ => split
    | |- Forall _ (_ :: _) => apply Forall_cons_2
    | |- Forall _ [] => apply Forall_nil_2
    | |- True => exact I
    end;
  unfold inside, apart, copyBox; cbn [xmin xmax ymin ymax fst snd].

(** X12.  For the counts 1, 2, 4 and 8 and positive sizes,
    getDuplicationLayout returns a positive scale and as many centre
    positions as the count, such that every copy of the trace, scaled and
    centred on its position, lies inside the griddle area and no two copies
    overlap.  Rounding is not modelled: the bounds hold in exact
    arithmetic. *)
Theorem layout_copies_fit (count : Z) (tw th gw gh : Qc) :
  count = 1%Z \/ count = 2%Z \/ count = 4%Z \/ count = 8%Z ->
  0 < tw -> 0 < th -> 0 < gw -> 0 < gh ->
  exists (s : Qc) (ps : list (Qc * Qc)),
    getDuplicationLayout count (mkBounds (Fin tw) (Fin th))
                         (mkBounds (Fin gw) (Fin gh))
    = mkLayout (Fin s) (map point ps)
    /\ 0 < s
    /\ Z.of_nat (length ps) = count
    /\ Forall (fun p => inside gw gh (copyBox tw th s p)) ps
    /\ pairwiseApart (map (copyBox tw th s) ps).
Proof.
  intros Hc Htw Hth Hgw Hgh.
  set (tb := mkBounds (Fin tw) (Fin th)). set (gb := mkBounds (Fin gw) (Fin gh)).
  assert (Hw : truthy (width tb) = true).
  { simpl. rewrite bool_decide_eq_false_2; [reflexivity|now apply pos_ne0]. }
  pose proof (layout_scale_fin count tw th gw gh Hc Htw Hth) as Hs.
  pose proof (positions_unfold count tb gb Hw) as Hp. cbv zeta in Hp.
  fold tb gb in Hs.
  set (s := least (gw * fillOf count) (gh * fillOf count) tw th) in *.
  assert (Hfill : 0 < fillOf count)
    by (destruct Hc as [-> | [-> | [-> | ->]]]; reflexivity).
  assert (Hpos : 0 < s) by (apply least_pos; auto using mul_pos).
  destruct (least_fits (gw * fillOf count) (gh * fillOf count) tw th Htw Hth)
    as (HW & HH & _).
  fold s in HW, HH.
  destruct (getDuplicationLayout count tb gb) as [sc pp]. simpl in Hs, Hp.
  subst sc pp. exists s.
  set (W := s * tw) in *. set (H := s * th) in *.
  set (qw := gw / Qc_of_Z 4). set (qh := gh / Qc_of_Z 4).
  set (ew := qw / Qc_of_Z 2). set (eh := qh / Qc_of_Z 2).
  set (two := Qc_of_Z 2). set (three := Qc_of_Z 3). set (five := Qc_of_Z 5).
  set (seven := Qc_of_Z 7).
  destruct Hc as [-> | [-> | [-> | ->]]]; cbn [fillOf] in HW, HH;
    [ exists [(qw * two, qh * two)]
    | destruct (landscape tb gb);
      [ exists [(qw * two, qh); (qw * two, qh * three)]
      | exists [(qw, qh * two); (qw * three, qh * two)] ]
    | exists [(qw, qh); (qw * three, qh); (qw, qh * three);
              (qw * three, qh * three)]
    | destruct (landscape tb gb);
      [ exists [(qw, eh); (qw * three, eh); (qw, eh * three);
                (qw * three, eh * three); (qw, eh * five);
                (qw * three, eh * five); (qw, eh * seven);
                (qw * three, eh * seven)]
      | exists [(ew, qh); (ew * three, qh); (ew * five, qh);
                (ew * seven, qh); (ew, qh * three); (ew * three, qh * three);
                (ew * five, qh * three); (ew * seven, qh * three)] ] ];
    (split; [reflexivity|]); (split; [exact Hpos|]); (split; [reflexivity|]);
    unfold ew, eh, qw, qh, two, three, five, seven;
    split; boxes; fold W H; clearbody W H; qc_lra.
Qed.

Lemma layout_copies_fit_witness :
  exists (s : Qc) (ps : list (Qc * Qc)),
    getDuplicationLayout 2 (rect 200 100) (rect 1000 1000)
    = mkLayout (Fin s) (map point ps)
    /\ 0 < s
    /\ Z.of_nat (length ps) = 2%Z
    /\ Forall (fun p => inside (Qc_of_Z 1000) (Qc_of_Z 1000)
                          (copyBox (Qc_of_Z 200) (Qc_of_Z 100) s p)) ps
    /\ pairwiseApart (map (copyBox (Qc_of_Z 200) (Qc_of_Z 100) s) ps).
Proof.
  apply (layout_copies_fit 2 (Qc_of_Z 200) (Qc_of_Z 100) (Qc_of_Z 1000)
           (Qc_of_Z 1000)); [right; left|..]; reflexivity.
Defined.

(** X23.  The guard of getDuplicationLayout covers the width only: for a
    trace of positive width and zero height in positive bounds the run
    divides by the zero height, and the scale returned is the width
    quotient areaWidth * fillPercent / traceWidth. *)
Theorem layout_zero_height (count : Z) (tw gw gh : Qc) :
  count = 1%Z \/ count = 2%Z \/ count = 4%Z \/ count = 8%Z ->
  0 < tw -> 0 < gw -> 0 < gh ->
  let tb := mkBounds (Fin tw) (num 0) in
  let gb := mkBounds (Fin gw) (Fin gh) in
  scale (getDuplicationLayout count tb gb) = Fin (gw * fillOf count / tw)
  /\ (Fin (gh * fillOf count), num 0) ∈ divisions count tb gb.
Proof.
  intros Hc Htw Hgw Hgh tb gb.
  assert (Hw : truthy (width tb) = true).
  { simpl. rewrite bool_decide_eq_false_2; [reflexivity|now apply pos_ne0]. }
  assert (Hfill : 0 < fillOf count)
    by (destruct Hc as [-> | [-> | [-> | ->]]]; reflexivity).
  split.
  - rewrite (scale_unfold count tb gb Hw). cbv zeta.
    rewrite (fill_fin count Hc). cbn [width height tb gb].
    change (Fin gw * Fin (fillOf count))%js with (Fin (gw * fillOf count)).
    change (Fin gh * Fin (fillOf count))%js with (Fin (gh * fillOf count)).
    rewrite fin_div by now apply pos_ne0.
    assert (Hinf : (Fin (gh * fillOf count) / num 0)%js = PInf).
    { unfold jdiv, num. rewrite bool_decide_eq_true_2 by (apply Qc_is_canon; reflexivity).
      unfold qsign.
      now rewrite (proj1 (Qcgt_alt _ _) (mul_pos _ _ Hgh Hfill)). }
    rewrite Hinf. reflexivity.
  - unfold divisions, getDuplicationLayoutRun. rewrite Hw. simpl negb. cbv iota.
    destruct Hc as [-> | [-> | [-> | ->]]];
      cbn [bind divide ret fst snd app width height tb gb toNumber];
      set_solver.
Qed.

Lemma layout_zero_height_witness :
  scale (getDuplicationLayout 4 (rect 100 0) (rect 1000 500))
  = Fin (Qc_of_Z 1000 * fillOf 4 / Qc_of_Z 100)
  /\ (Fin (Qc_of_Z 500 * fillOf 4), num 0)
     ∈ divisions 4 (rect 100 0) (rect 1000 500).
Proof.
  apply (layout_zero_height 4 (Qc_of_Z 100) (Qc_of_Z 1000) (Qc_of_Z 500));
    [right; right; left|..]; reflexivity.
Defined.

(** X24.  fitScale has no guard of its own: in a positive view, with
    positive fills, an object without width and without height gets the
    factor Infinity, and an object without width but of positive height
    gets the height quotient viewHeight * fillHeight / objectHeight. *)
Theorem fitScale_zero_size (oh vw vh fw fh : Qc) :
  0 < oh -> 0 < vw -> 0 < vh -> 0 < fw -> 0 < fh ->
  fitScale (mkBounds (num 0) (num 0)) (mkBounds (Fin vw) (Fin vh))
           (Some (Fin fw)) (Some (Fin fh)) = PInf
  /\ fitScale (mkBounds (num 0) (Fin oh)) (mkBounds (Fin vw) (Fin vh))
              (Some (Fin fw)) (Some (Fin fh)) = Fin (vh * fh / oh).
Proof.
  intros Hoh Hvw Hvh Hfw Hfh.
  assert (Hinf : forall x, 0 < x -> (Fin x / num 0)%js = PInf).
  { intros x Hx. unfold jdiv, num.
    rewrite bool_decide_eq_true_2 by (apply Qc_is_canon; reflexivity).
    unfold qsign. now rewrite (proj1 (Qcgt_alt _ _) Hx). }
  unfold fitScale. cbn [default from_option width height]. unfold id.
  change (Fin vw * Fin fw)%js with (Fin (vw * fw)).
  change (Fin vh * Fin fh)%js with (Fin (vh * fh)).
  rewrite !Hinf by (apply mul_pos; assumption).
  split; [reflexivity|].
  rewrite fin_div by now apply pos_ne0. reflexivity.
Qed.

Lemma fitScale_zero_size_witness :
  fitScale (rect 0 0) (rect 1000 500) (Some (dec 8 10)) (Some (dec 8 10))
  = PInf
  /\ fitScale (rect 0 50) (rect 1000 500) (Some (dec 8 10)) (Some (dec 8 10))
     = Fin (Qc_of_Z 500 * Q2Qc (8 # 10) / Qc_of_Z 50).
Proof.
  apply (fitScale_zero_size (Qc_of_Z 50) (Qc_of_Z 1000) (Qc_of_Z 500)
           (Q2Qc (8 # 10)) (Q2Qc (8 # 10))); reflexivity.
Defined.

End FitFacts.

(** ** [recursiveLengthCull] *)
Module CullFacts.

Import Cull.
Local Open Scope js_scope.

(** Induction on items, with the hypothesis on every child. *)
Lemma Node_induction (P : Node -> Prop) :
  (forall length, P (Leaf length)) ->
  (forall children, Forall P children -> P (Parent children)) ->
  forall item, P item.
Proof.
  intros HL HP. fix IH 1. intros [length|children].
  - apply HL.
  - apply HP. induction children as [|c cs IHcs]; constructor.
    + apply IH.
    + exact IHcs.
Qed.

Lemma cullNode_parent (minLength : jsnum) (children : list Node) :
  cullNode minLength (Parent children) =
    match children with
    | [] => None
    | _ :: _ => Some (Parent (omap (cullNode minLength) children))
    end.
Proof. now destruct children. Qed.

Lemma leaves_omap (minLength : jsnum) (children : list Node) :
  Forall (fun item =>
            remaining (cullNode minLength item)
            = filter (fun l => jlt l minLength = false) (leaves item)) children ->
  concat (map leaves (omap (cullNode minLength) children))
  = filter (fun l => jlt l minLength = false) (concat (map leaves children)).
Proof.
  induction 1 as [|c cs Hc _ IH]; [reflexivity|].
  cbn [map concat]. rewrite filter_app, <- IH, <- Hc.
  cbn [omap list_omap]. destruct (cullNode minLength c); reflexivity.
Qed.

(** X18.  After recursiveLengthCull the paths left below the item, none
    when the item itself was removed, are exactly the paths that were below
    it whose length is not less than minLength, in their order. *)
Theorem cull_keeps_long_paths (minLength : jsnum) (item : Node) :
  remaining (recursiveLengthCull (Some item) minLength)
  = filter (fun l => jlt l minLength = false) (leaves item).
Proof.
  unfold recursiveLengthCull. cbn [mbind option_bind].
  induction item as [length|children IH] using Node_induction.
  - cbn [cullNode leaves]. destruct (jlt length minLength) eqn:Hlt.
    + now rewrite filter_cons_False by congruence.
    + now rewrite filter_cons_True by assumption.
  - rewrite cullNode_parent. destruct children as [|c cs]; [reflexivity|].
    cbn [remaining from_option leaves]. now apply leaves_omap.
Qed.

Lemma cullTimes_succ (k : nat) (minLength : jsnum) (o : option Node) :
  cullTimes (S k) minLength o
  = recursiveLengthCull (cullTimes k minLength o) minLength.
Proof. reflexivity. Qed.

Lemma cullTimes_none (k : nat) (minLength : jsnum) :
  cullTimes k minLength None = None.
Proof.
  induction k as [|k IH]; [reflexivity|]. now rewrite cullTimes_succ, IH.
Qed.

Lemma omap_nil_iff {A B} (f : A -> option B) (l : list A) :
  omap f l = [] <-> Forall (fun x => f x = None) l.
Proof.
  induction l as [|x l IH]; cbn [omap list_omap].
  - split; [constructor|reflexivity].
  - destruct (f x) eqn:Hx.
    + split; [discriminate|]. intros H. apply Forall_cons_1 in H.
      destruct H as [H _]. congruence.
    + fold (omap f l). rewrite IH. split.
      * intros H. now constructor.
      * intros H. now apply Forall_cons_1 in H.
Qed.

Lemma omap_compose {A B C} (f : A -> option B) (g : B -> option C)
    (l : list A) :
  omap g (omap f l) = omap (fun x => f x ≫= g) l.
Proof.
  induction l as [|x l IH]; [reflexivity|].
  cbn [omap list_omap]. fold (omap f l). fold (omap (fun x => f x ≫= g) l).
  destruct (f x) as [y|]; cbn [mbind option_bind omap list_omap].
  - fold (omap g (omap f l)). rewrite IH. reflexivity.
  - exact IH.
Qed.

Lemma omap_some {A} (f : A -> option A) (l : list A) :
  (forall x, f x = Some x) -> omap f l = l.
Proof.
  intros Hf. induction l as [|x l IH]; [reflexivity|].
  cbn [omap list_omap]. fold (omap f l). now rewrite Hf, IH.
Qed.

(** A parent after [j] calls: gone, or holding what the calls left of each
    child. *)
Lemma cullTimes_parent (minLength : jsnum) (children : list Node) (j : nat) :
  cullTimes j minLength (Some (Parent children)) = None
  \/ cullTimes j minLength (Some (Parent children))
     = Some (Parent (omap (fun c => cullTimes j minLength (Some c)) children)).
Proof.
  induction j as [|j IH].
  - right. now rewrite omap_some by reflexivity.
  - rewrite cullTimes_succ. destruct IH as [-> | ->]; [now left|].
    unfold recursiveLengthCull. cbn [mbind option_bind].
    rewrite cullNode_parent.
    destruct (omap _ children) as [|c cs] eqn:Hl; [now left|].
    right. rewrite <- Hl, omap_compose. reflexivity.
Qed.

Lemma cullTimes_parent_none (minLength : jsnum) (children : list Node)
    (j : nat) :
  cullTimes (S j) minLength (Some (Parent children)) = None
  <-> Forall (fun c => cullTimes j minLength (Some c) = None) children.
Proof.
  rewrite <- omap_nil_iff. induction j as [|j IH].
  - rewrite omap_some by reflexivity.
    change (cullTimes 1 minLength (Some (Parent children)))
      with (cullNode minLength (Parent children)).
    rewrite cullNode_parent.
    destruct children; cbv beta iota; split; intros E;
      first [reflexivity|discriminate E].
  - rewrite cullTimes_succ.
    destruct (cullTimes_parent minLength children (S j)) as [Hn | Hs].
    + rewrite Hn. split; [intros _|reflexivity].
      apply IH in Hn. apply omap_nil_iff. apply omap_nil_iff in Hn.
      eapply Forall_impl; [exact Hn|]. intros c Hc. cbv beta in Hc |- *.
      now rewrite cullTimes_succ, Hc.
    + rewrite Hs. unfold recursiveLengthCull. cbn [mbind option_bind].
      rewrite cullNode_parent.
      destruct (omap (fun c => cullTimes (S j) minLength (Some c)) children);
        cbv beta iota; split; intros E; first [reflexivity|discriminate E].
Qed.

Lemma max_le_iff (l : list nat) (j : nat) :
  (foldr Nat.max 0 l <= j)%nat <-> Forall (fun x => (x <= j)%nat) l.
Proof.
  induction l as [|x l IH]; cbn [foldr].
  - split; [constructor|lia].
  - rewrite Forall_cons, <- IH. lia.
Qed.

(** X19.  When every path below an item is shorter than minLength, calls
    repeated on the item remove it exactly at the call whose number is the
    nesting of the item (a lone path, or a parent without children, counts
    one level): a parent emptied by a call stays in place during that call
    and is removed by the next one only. *)
Theorem cull_needs_as_many_calls_as_levels (minLength : jsnum) (item : Node) :
  Forall (fun l => jlt l minLength = true) (leaves item) ->
  forall k, cullTimes k minLength (Some item) = None <-> (levels item <= k)%nat.
Proof.
  induction item as [length|children IH] using Node_induction;
    intros Hshort k.
  - cbn [leaves levels] in *. apply Forall_cons_1 in Hshort.
    destruct Hshort as [Hlt _]. destruct k as [|k].
    + split; [discriminate|lia].
    + split; [lia|intros _]. induction k as [|k IHk].
      * change (cullTimes 1 minLength (Some (Leaf length)))
          with (cullNode minLength (Leaf length)).
        cbn [cullNode]. now rewrite Hlt.
      * now rewrite cullTimes_succ, IHk.
  - cbn [levels]. destruct k as [|k]; [split; [discriminate|lia]|].
    rewrite cullTimes_parent_none.
    assert (Hiff : (S (foldr Nat.max 0 (map levels children)) <= S k)%nat
                   <-> Forall (fun x => (x <= k)%nat) (map levels children)).
    { rewrite <- max_le_iff. lia. }
    rewrite Hiff, Forall_map.
    cbn [leaves] in Hshort. rewrite Forall_concat, Forall_map in Hshort.
    clear Hiff. induction children as [|c cs IHcs]; [split; constructor|].
    apply Forall_cons_1 in IH, Hshort. destruct IH as [IHc IHrest].
    destruct Hshort as [Hc Hrest].
    rewrite !Forall_cons, (IHc Hc k), (IHcs IHrest Hrest). reflexivity.
Qed.

Lemma cull_needs_as_many_calls_as_levels_witness :
  cullTimes 3 (num 3) (Some (Parent [Parent [Leaf (num 1)]; Leaf (num 2)]))
  = None <-> (3 <= 3)%nat.
Proof.
  apply (cull_needs_as_many_calls_as_levels (num 3)
           (Parent [Parent [Leaf (num 1)]; Leaf (num 2)])).
  cbn [leaves map concat app]. apply Forall_cons_2; [reflexivity|].
  apply Forall_cons_2; [reflexivity|]. apply Forall_nil_2.
Defined.

(** The same nest, call after call. *)
Example cull_nest_three_calls :
  cullTimes 1 (num 3) (Some (Parent [Parent [Leaf (num 1)]; Leaf (num 2)]))
  = Some (Parent [Parent []])
  /\ cullTimes 2 (num 3) (Some (Parent [Parent [Leaf (num 1)]; Leaf (num 2)]))
     = Some (Parent [])
  /\ cullTimes 3 (num 3) (Some (Parent [Parent [Leaf (num 1)]; Leaf (num 2)]))
     = None.
Proof. repeat split. Qed.

End CullFacts.

(** ** [rgbToYUV] and [snapColor], further properties *)
Module PaletteExtra.

Import Str ColorSpace Palette ColorFacts PaletteFacts.
Local Open Scope Z_scope.

(** X5.  For a colour whose three channels lie in [0, 255], rgbToYUV
    returns three whole numbers, each in [0, 255]. *)
Theorem rgbToYUV_in_range (rgb : RGBValue) :
  inGamut rgb ->
  exists y u v : Z,
    rgbToYUV rgb = Some (num y, num u, num v)
    /\ 0 <= y <= 255 /\ 0 <= u <= 255 /\ 0 <= v <= 255.
Proof. exact (rgbToYUV_gamut rgb). Qed.

Lemma rgbToYUV_in_range_witness :
  exists y u v : Z,
    rgbToYUV (Some [num 255; num 234; num 126]) = Some (num y, num u, num v)
    /\ 0 <= y <= 255 /\ 0 <= u <= 255 /\ 0 <= v <= 255.
Proof.
  apply (rgbToYUV_in_range (Some [num 255; num 234; num 126])).
  apply inGamut_bytes; lia.
Defined.

(** X6.  On a palette that is not empty snapColor returns the index of an
    existing entry, whatever the source and whatever the limit (zero,
    negative and beyond the palette included). *)
Theorem snapColor_index_in_palette (pal : list ColorData) (source : Source)
    (limit : option Z) :
  pal <> [] -> is_Some (pal !! snapColor pal source limit).
Proof.
  intros Hne. apply lookup_lt_is_Some.
  exact (PaperFacts.snapColor_in_range pal source limit Hne).
Qed.

Lemma snapColor_index_in_palette_witness :
  is_Some (snapColorSetup pancakeShades
             !! snapColor (snapColorSetup pancakeShades) SNull (Some (-9))).
Proof.
  apply (snapColor_index_in_palette (snapColorSetup pancakeShades) SNull
           (Some (-9))).
  discriminate.
Defined.

Lemma trimStart_snoc (l : list ascii) (c : ascii) :
  isWhite c = false -> trimStart (l ++ [c]) = trimStart l ++ [c].
Proof.
  intros Hc. induction l as [|x l IH]; simpl.
  - now rewrite Hc.
  - destruct (isWhite x); [exact IH|reflexivity].
Qed.

(** Trimming keeps a first character that is not white space. *)
Lemma trim_head (c : ascii) (l : list ascii) :
  isWhite c = false -> exists l', trim (c :: l) = c :: l'.
Proof.
  intros Hc. unfold trim. rewrite (trimStart_keeps c l Hc).
  rewrite reverse_cons, (trimStart_snoc _ c Hc), reverse_app.
  eexists. reflexivity.
Qed.

Lemma Number_paren (l : list ascii) : Number (ofChars ("("%char :: l)) = NaN.
Proof.
  destruct (trim_head "("%char l eq_refl) as [l' Ht].
  rewrite Number_nonempty; rewrite chars_ofChars, Ht; [|discriminate].
  reflexivity.
Qed.

Lemma splitList_head (sep c : ascii) (s : list ascii) :
  c <> sep -> exists h t, splitList sep (c :: s) = (c :: h) :: t.
Proof.
  intros Hc. simpl. rewrite bool_decide_eq_false_2 by exact Hc.
  destruct (splitList sep s); eexists _, _; reflexivity.
Qed.

Lemma alpha_first_nan (t : list ascii) (c : ascii) :
  exists rest,
    colorStringToArray (VString (ofChars (chars "rgba(" ++ t ++ [c])))
    = Some (NaN :: rest).
Proof.
  unfold colorStringToArray, includes. rewrite chars_ofChars.
  change (includesList (chars "rgb") (chars "rgba(" ++ t ++ [c])) with true.
  cbv iota. unfold split, slice. rewrite !chars_ofChars.
  change (chars "rgba(" ++ t ++ [c])
    with (chars "rgba" ++ ("("%char :: t) ++ [c]).
  pose proof (sliceList_inner (chars "rgba") ("("%char :: t) c) as Hs.
  change (Z.of_nat (length (chars "rgba"))) with 4 in Hs. rewrite Hs.
  destruct (splitList_head ","%char "("%char t) as (h & tl & ->); [discriminate|].
  cbn [map]. rewrite Number_paren. eexists. reflexivity.
Qed.

(** X7.  A source text that starts with rgba( and has at least one more
    character is matched exactly as white is: its first component is read
    as NaN, and snapColor then takes #FFFFFF as the source. *)
Theorem snapColor_alpha_is_white (pal : list ColorData) (t : list ascii)
    (c : ascii) (limit : option Z) :
  snapColorRun pal (SString (ofChars (chars "rgba(" ++ t ++ [c]))) limit
  = snapColorRun pal (SString "#FFFFFF") limit.
Proof.
  unfold snapColorRun. f_equal. f_equal.
  unfold sourceRGB at 1. destruct (alpha_first_nan t c) as [rest ->].
  reflexivity.
Qed.

Lemma take_clamped {A} (l : list A) (n : Z) :
  take (Z.to_nat (Z.min n (Z.of_nat (length l)))) l = take (Z.to_nat n) l.
Proof.
  destruct (Z.le_gt_cases n (Z.of_nat (length l))) as [Hle|Hgt].
  - now rewrite Z.min_l by exact Hle.
  - rewrite Z.min_r by lia. rewrite Nat2Z.id.
    rewrite firstn_all. symmetry. apply take_ge. lia.
Qed.

(** X8.  A limit other than 0 acts as [slice(0, limit)]: the match is the
    one a call without limit finds among the first limit entries or, for a
    negative limit, in the palette without its last -limit entries. *)
Theorem snapColor_limit_is_slice (pal : list ColorData) (source : Source)
    (l : Z) :
  l <> 0 ->
  let n := Z.to_nat (if l <? 0 then Z.of_nat (length pal) + l else l) in
  snapColorRun pal source (Some l) = snapColorRun (take n pal) source None.
Proof.
  intros Hl n. unfold snapColorRun, limited.
  rewrite (proj2 (Z.eqb_neq l 0) Hl). f_equal.
  unfold sliceList, clampIndex. change (0 <? 0) with false. cbv iota.
  rewrite (Z.min_l 0) by lia. change (Z.to_nat 0) with 0%nat. rewrite drop_0.
  rewrite Z.sub_0_r. subst n. destruct (Z.ltb_spec l 0) as [Hneg|Hpos].
  - destruct (Z.le_gt_cases 0 (Z.of_nat (length pal) + l)) as [H0|H0].
    + now rewrite Z.max_l by exact H0.
    + rewrite Z.max_r by lia.
      now replace (Z.to_nat (Z.of_nat (length pal) + l)) with 0%nat by lia.
  - apply take_clamped.
Qed.

Lemma snapColor_limit_is_slice_witness :
  snapColorRun (snapColorSetup pancakeShades) (SString "#714a00") (Some (-1))
  = snapColorRun (take 3 (snapColorSetup pancakeShades)) (SString "#714a00")
                 None.
Proof.
  apply (snapColor_limit_is_slice (snapColorSetup pancakeShades)
           (SString "#714a00") (-1)).
  discriminate.
Defined.

(** X21.  snapColorSetup makes one entry per colour, in order: entry k is
    renderColorData of the k-th text under the key made of color and k,
    and no two entries share a key. *)
Theorem snapColorSetup_entries (hexes : list string) :
  length (snapColorSetup hexes) = length hexes
  /\ (forall k hex, hexes !! k = Some hex ->
        snapColorSetup hexes !! k
        = Some (renderColorData hex ("color" +:+ pretty k)))
  /\ NoDup (map key (snapColorSetup hexes)).
Proof.
  unfold snapColorSetup. split; [apply length_imap|]. split.
  - intros k hex Hk. rewrite list_lookup_imap, Hk. reflexivity.
  - apply NoDup_alt. intros i j x Hi Hj.
    rewrite list_lookup_fmap, list_lookup_imap in Hi, Hj.
    destruct (hexes !! i) as [hi|]; [|discriminate Hi].
    destruct (hexes !! j) as [hj|]; [|discriminate Hj].
    cbn in Hi, Hj. injection Hi as Hi. injection Hj as Hj.
    rewrite <- Hj in Hi. apply (inj (String.app "color")) in Hi.
    now apply (inj pretty) in Hi.
Qed.

Lemma distance_unparsed (source : YUVValue) (lowest : Root) :
  root_lt (distance None source) lowest = false.
Proof. reflexivity. Qed.

Lemma snapLoop_pick (cs : list ColorData) (source : YUVValue) :
  forall (i li : nat) (lv : Root),
    fst (snapLoop cs source i li lv) = li
    \/ exists j e, cs !! j = Some e
                   /\ fst (snapLoop cs source i li lv) = (i + j)%nat
                   /\ YUV e <> None.
Proof.
  induction cs as [|entry rest IH]; intros i li lv; cbn [snapLoop].
  - now left.
  - destruct (root_lt (distance (YUV entry) source) lv) eqn:Hlt.
    + right. destruct (IH (S i) i (distance (YUV entry) source))
        as [-> | (j & e & Hj & -> & He)].
      * exists 0%nat, entry. split; [reflexivity|]. split; [lia|].
        intros Hn. rewrite Hn, distance_unparsed in Hlt. discriminate Hlt.
      * exists (S j), e. split; [exact Hj|]. split; [lia|exact He].
    + destruct (IH (S i) li lv) as [-> | (j & e & Hj & -> & He)]; [now left|].
      right. exists (S j), e. split; [exact Hj|]. split; [lia|exact He].
Qed.

(** X22.  snapColor never returns the index of an entry whose colour text
    could not be parsed, that is whose YUV is false, except as index 0, the
    value it starts from. *)
Theorem snapColor_skips_unparsed (pal : list ColorData) (source : Source)
    (limit : option Z) :
  snapColor pal source limit = 0%nat
  \/ exists e, pal !! snapColor pal source limit = Some e /\ YUV e <> None.
Proof.
  unfold snapColor, snapColorRun.
  destruct (snapLoop_pick (limited pal limit) (rgbToYUV (sourceRGB source))
              0 0 thousand) as [Hk | (j & e & Hj & Hk & He)].
  - now left.
  - right. exists e. rewrite Hk. split; [|exact He].
    now apply (limited_lookup pal limit).
Qed.

End PaletteExtra.

(** ** The scene graph, further properties *)
Module SceneExtra.

Import Str ColorSpace Palette Paper PaletteFacts PaperFacts.

Lemma length_append (a b : string) :
  String.length (a +:+ b) = (String.length a + String.length b)%nat.
Proof. induction a as [|c a IH]; simpl; [reflexivity|now rewrite IH]. Qed.

Section Scene.

Context `{PaperLib} `{ClipperLib} `{Runtime}.

Lemma pointsToString_length (path : Polygon) (scale : jsnum) :
  forall (first : bool) (svgpath : string),
    (String.length svgpath
     <= String.length (pointsToString first path scale svgpath))%nat.
Proof.
  induction path as [|[X Y] rest IH]; intros first svgpath; cbn [pointsToString].
  - lia.
  - etransitivity; [|apply IH]. rewrite !length_append. lia.
Qed.

Lemma pathsToString_length (paths : list Polygon) (scale : jsnum) :
  forall svgpath : string,
    (String.length svgpath + length paths
     <= String.length (pathsToString paths scale svgpath))%nat.
Proof.
  induction paths as [|path rest IH]; intros svgpath; cbn [pathsToString length].
  - lia.
  - etransitivity; [|apply IH]. rewrite length_append.
    pose proof (pointsToString_length path scale true svgpath). simpl. lia.
Qed.

(** X13.  paths2string returns the empty text exactly when the list of
    polygons is empty: every polygon, one without points included,
    contributes at least its closing Z. *)
Theorem paths2string_empty_iff (paths : list Polygon) (scale : jsnum) :
  paths2string paths scale = ""%string <-> paths = [].
Proof.
  unfold paths2string. split.
  - intros He. destruct paths as [|path rest]; [reflexivity|].
    pose proof (pathsToString_length (path :: rest)
                  (if truthy scale then scale else num 1) "") as Hlen.
    rewrite He in Hlen. simpl in Hlen. lia.
  - now intros ->.
Qed.

(** Objects alive before a call of [offsetPath] are unchanged by it. *)
Lemma offsetPath_heap (i : ItemId) (it : Item) (a r : jsnum) (d : bool)
    (s s' : Scene) (v : Value) :
  wf s -> heap s !! i = Some it ->
  offsetPath i a r d s = Some (v, s') ->
  (forall j x, heap s !! j = Some x -> heap s' !! j = Some x)
  /\ (forall e, v = VItem e -> e <> i ->
        heap s !! e = None
        /\ exists g,
             heap s' !! e
             = Some (mkItem (data it) (strokeColor it) (strokeWidth it)
                            (fillColor it) g)).
Proof.
  intros Hwf Hi Heq. rewrite (offsetPath_eq _ _ _ _ _ _ Hi) in Heq.
  assert (Hold : forall j x, heap s !! j = Some x -> (j < nextId s)%positive).
  { intros j x Hj. destruct Hwf as [_ Hh]. apply Hh. eauto. }
  assert (Hcopy : forall j x, heap s !! j = Some x ->
                    heap (withCopy i it s) !! j = Some x).
  { intros j x Hj. rewrite heap_withCopy, lookup_insert_ne; [exact Hj|].
    specialize (Hold j x Hj). lia. }
  destruct (flattenToPaths (geometry it) r) as [paths|].
  - destruct (bool_decide (offsetString paths a <> ""%string)).
    + cbv zeta in Heq. injection Heq as <- <-.
      set (s0 := removeItem (nextId s) (withCopy i it s)).
      assert (Hn0 : nextId s0 = Pos.succ (nextId s)).
      { unfold s0, withCopy. cbn [nextId removeItem setLayers].
        now rewrite nextId_insertAbove. }
      assert (Hheap : forall s2,
                heap s2 = heap (setItem (nextId s0)
                                  (insetItem it (offsetString paths a))
                                  (snd (newCompoundPath (offsetString paths a) s0))) ->
                (forall j x, heap s !! j = Some x -> heap s2 !! j = Some x)
                /\ heap s !! nextId s0 = None
                /\ heap s2 !! nextId s0
                   = Some (insetItem it (offsetString paths a))).
      { intros s2 ->. cbn [heap setItem setHeap newCompoundPath alloc snd
                           appendChild setLayers].
        split; [|split].
        - intros j x Hj. specialize (Hold j x Hj).
          rewrite !lookup_insert_ne by lia.
          unfold s0. cbn [heap removeItem setLayers]. now apply Hcopy.
        - destruct (heap s !! nextId s0) as [x|] eqn:Hx; [|reflexivity].
          specialize (Hold _ _ Hx). lia.
        - now rewrite lookup_insert_eq. }
      set (s2 := if d then _ else _).
      destruct (Hheap s2) as (Hk & Hfresh & Hnew).
      { unfold s2. destruct d; [apply heap_replaceWith|reflexivity]. }
      split; [exact Hk|]. intros e Hv _. injection Hv as <-.
      split; [exact Hfresh|]. eexists. exact Hnew.
    + injection Heq as <- <-. split; [|intros e Hv; discriminate Hv].
      intros j x Hj. cbn [heap removeItem setLayers]. now apply Hcopy.
  - injection Heq as <- <-. split.
    + intros j x Hj. cbn [heap removeItem setLayers logError]. now apply Hcopy.
    + intros e Hv Hne. injection Hv as <-. contradiction.
Qed.

(** X14.  On a well-formed scene offsetPath on a live item returns; every
    object alive before the call is unchanged after it, the input included;
    and a result other than the input is a new object that carries the
    data, stroke colour, stroke width and fill colour of the input. *)
Theorem offsetPath_keeps_objects (i : ItemId) (it : Item) (a r : jsnum)
    (d : bool) (s : Scene) :
  wf s -> heap s !! i = Some it ->
  exists v s',
    offsetPath i a r d s = Some (v, s')
    /\ (forall j x, heap s !! j = Some x -> heap s' !! j = Some x)
    /\ (forall e, v = VItem e -> e <> i ->
          heap s !! e = None
          /\ exists g,
               heap s' !! e
               = Some (mkItem (data it) (strokeColor it) (strokeWidth it)
                              (fillColor it) g)).
Proof.
  intros Hwf Hi.
  destruct (offsetPath_result i it a r d s Hwf Hi) as (v & s' & Heq & _).
  exists v, s'. split; [exact Heq|].
  exact (offsetPath_heap i it a r d s s' v Hwf Hi Heq).
Qed.

Lemma childrenOf_fmap (f : list ItemId -> list ItemId) (L : LayerId)
    (s : Scene) :
  f [] = [] ->
  childrenOf L (setLayers (f <$> layers s) s) = f (childrenOf L s).
Proof.
  intros Hf. unfold childrenOf. cbn [layers setLayers]. rewrite lookup_fmap.
  destruct (layers s !! L); [reflexivity|]. cbn. now rewrite Hf.
Qed.

Lemma childrenOf_appendChild_any (L A : LayerId) (e : ItemId) (s : Scene) :
  childrenOf L (appendChild A e s)
  = childrenOf L s ++ (if decide (L = A) then [e] else []).
Proof.
  destruct (decide (L = A)) as [->|Hne].
  - apply childrenOf_appendChild.
  - unfold childrenOf, appendChild. cbn [layers setLayers].
    rewrite lookup_insert_ne by congruence. now rewrite app_nil_r.
Qed.

Lemma hasParent_true (L : LayerId) (i : ItemId) (s : Scene) :
  i ∈ childrenOf L s -> hasParent i s = true.
Proof.
  intros Hi. unfold hasParent. apply bool_decide_eq_true_2.
  unfold childrenOf in Hi. destruct (layers s !! L) as [ids|] eqn:Hl.
  - exact (map_Exists_lookup_2 _ _ L ids Hl Hi).
  - cbn in Hi. inversion Hi.
Qed.

Lemma insertBefore_mid (i e : ItemId) (before after : list ItemId) :
  i ∉ before ->
  insertBefore i e (before ++ i :: after) = before ++ e :: i :: after.
Proof.
  induction before as [|x before IH]; intros Hi; cbn [insertBefore app].
  - now rewrite decide_True by reflexivity.
  - rewrite not_elem_of_cons in Hi. destruct Hi as [Hx Hb].
    rewrite decide_False by congruence. now rewrite IH.
Qed.

Lemma childrenOf_insertBelow (L : LayerId) (i e : ItemId) (s : Scene) :
  hasParent i s = true ->
  childrenOf L (insertBelow i e s)
  = insertBefore i e (filter (fun x => x <> e) (childrenOf L s)).
Proof.
  intros Hp. unfold insertBelow. rewrite Hp. cbv zeta.
  rewrite (childrenOf_fmap (insertBefore i e)) by reflexivity.
  now rewrite childrenOf_removeItem.
Qed.

Lemma filter_drop_mid (i : ItemId) (before after : list ItemId) :
  i ∉ before -> i ∉ after ->
  filter (fun x => x <> i) (before ++ i :: after) = before ++ after.
Proof.
  intros Hb Ha. rewrite filter_app, filter_cons_False by (intros Hc; now apply Hc).
  now rewrite !filter_ne_id.
Qed.

Lemma activeLayer_withCopy (i : ItemId) (it : Item) (s : Scene) :
  activeLayer (withCopy i it s) = activeLayer s.
Proof. unfold withCopy, insertAbove. now destruct (hasParent _ _). Qed.

Lemma insertBefore_absent (i e : ItemId) (l : list ItemId) :
  i ∉ l -> insertBefore i e l = l.
Proof.
  induction l as [|x l IH]; intros Hi; cbn [insertBefore]; [reflexivity|].
  rewrite not_elem_of_cons in Hi. destruct Hi as [Hx Hl].
  rewrite decide_False by congruence. now rewrite IH.
Qed.

(** X15.  When flattening succeeds and the offset is not empty, offsetPath
    returns a new item.  With doReplace it stands in the layer of the input
    exactly where the input stood, and the children of every layer that
    does not hold the input are as before; without, the input leaves its
    layer, the other children of every layer stay in order, and the result
    is the last child of the active layer, whichever layer held the
    input. *)
Theorem offsetPath_placement (i : ItemId) (it : Item) (a r : jsnum)
    (d : bool) (s : Scene) (paths : list Polygon) (L : LayerId)
    (before after : list ItemId) :
  wf s -> heap s !! i = Some it ->
  flattenToPaths (geometry it) r = Some paths ->
  offsetString paths a <> ""%string ->
  layers s !! L = Some (before ++ i :: after) ->
  i ∉ before -> i ∉ after ->
  exists s',
    offsetPath i a r d s = Some (VItem (Pos.succ (nextId s)), s')
    /\ heap s !! Pos.succ (nextId s) = None
    /\ childrenOf L s' =
         (if d then before ++ Pos.succ (nextId s) :: after
          else before ++ after
               ++ (if decide (L = activeLayer s) then [Pos.succ (nextId s)]
                   else []))
    /\ (forall L' : LayerId,
          childrenOf L' s' =
            if d then
              filter (fun x : ItemId => x <> i)
                     (insertBefore i (Pos.succ (nextId s)) (childrenOf L' s))
            else
              filter (fun x : ItemId => x <> i) (childrenOf L' s)
              ++ (if decide (L' = activeLayer s) then [Pos.succ (nextId s)]
                  else []))
    /\ (forall L' : LayerId, i ∉ childrenOf L' s ->
          childrenOf L' s' =
            childrenOf L' s
            ++ (if d then []
                else if decide (L' = activeLayer s) then [Pos.succ (nextId s)]
                     else []))
    /\ (d = false ->
        last (childrenOf (activeLayer s) s') = Some (Pos.succ (nextId s))).
Proof.
  intros Hwf Hi Hf Hne HL Hb Ha.
  rewrite (offsetPath_eq _ _ _ _ _ _ Hi), Hf.
  rewrite (bool_decide_eq_true_2 _ Hne). cbv zeta.
  set (s0 := removeItem (nextId s) (withCopy i it s)).
  assert (Hn0 : nextId s0 = Pos.succ (nextId s)).
  { unfold s0, withCopy. cbn [nextId removeItem setLayers].
    now rewrite nextId_insertAbove. }
  assert (Hl0 : layers s0 = layers s) by exact (layers_scratch i it s Hwf).
  assert (Ha0 : activeLayer s0 = activeLayer s).
  { unfold s0. cbn [activeLayer removeItem setLayers].
    apply activeLayer_withCopy. }
  rewrite Hn0. set (e := Pos.succ (nextId s)).
  set (s1 := setItem e _ _).
  assert (HcL : childrenOf L s = before ++ i :: after)
    by (unfold childrenOf; now rewrite HL).
  assert (Hfresh : forall (L' : LayerId) x, x ∈ childrenOf L' s -> x <> e).
  { intros L' x Hx. unfold childrenOf in Hx.
    destruct (layers s !! L') as [ids|] eqn:Hids; [|cbn in Hx; inversion Hx].
    destruct Hwf as [Hlay _]. specialize (Hlay L' _ x Hids Hx).
    unfold e. lia. }
  assert (Hc1 : forall L' : LayerId,
            childrenOf L' s1
            = childrenOf L' s
              ++ (if decide (L' = activeLayer s) then [e] else [])).
  { intros L'. unfold s1, newCompoundPath. cbn [alloc snd activeLayer].
    change (childrenOf L' (setItem e ?x ?y)) with (childrenOf L' y).
    rewrite childrenOf_appendChild_any, Ha0, Hn0. fold e. f_equal.
    unfold childrenOf. cbn [layers]. now rewrite Hl0. }
  assert (Hclean : forall L' : LayerId,
            filter (fun x : ItemId => x <> e) (childrenOf L' s1)
            = childrenOf L' s).
  { intros L'. rewrite Hc1, filter_app. rewrite filter_ne_id.
    - destruct (decide (L' = activeLayer s)); [|apply app_nil_r].
      rewrite filter_cons_False by (intros Hc; now apply Hc). apply app_nil_r.
    - intros Hin. exact (Hfresh L' e Hin eq_refl). }
  assert (Hie : i <> e) by (apply (Hfresh L); rewrite HcL; set_solver).
  assert (Hp : hasParent i s1 = true).
  { apply (hasParent_true L). rewrite Hc1, HcL. set_solver. }
  assert (Hall : forall L' : LayerId,
            childrenOf L'
              (if d then replaceWith i e s1 else removeItem i s1) =
            if d then
              filter (fun x : ItemId => x <> i)
                     (insertBefore i e (childrenOf L' s))
            else
              filter (fun x : ItemId => x <> i) (childrenOf L' s)
              ++ (if decide (L' = activeLayer s) then [e] else [])).
  { intros L'. destruct d.
    - unfold replaceWith. rewrite Hp, childrenOf_removeItem.
      now rewrite (childrenOf_insertBelow L' i e s1 Hp), Hclean.
    - rewrite childrenOf_removeItem, Hc1, filter_app. f_equal.
      destruct (decide (L' = activeLayer s)); [|reflexivity].
      now rewrite filter_cons_True by congruence. }
  eexists. split; [reflexivity|]. split.
  { destruct (heap s !! e) as [x|] eqn:Hx; [|reflexivity].
    destruct Hwf as [_ Hh]. specialize (Hh e (mk_is_Some _ _ Hx)).
    unfold e in Hh. lia. }
  split; [|split; [exact Hall|split]].
  - rewrite Hall, HcL. destruct d.
    + rewrite (insertBefore_mid i e before after Hb).
      rewrite filter_app, (filter_ne_id i before Hb).
      rewrite filter_cons_True by congruence.
      rewrite filter_cons_False by (intros Hc; now apply Hc).
      now rewrite (filter_ne_id i after Ha).
    + now rewrite (filter_drop_mid i before after Hb Ha), <- app_assoc.
  - intros L' Hnot. rewrite Hall. destruct d.
    + rewrite (insertBefore_absent i e _ Hnot), (filter_ne_id i _ Hnot).
      now rewrite app_nil_r.
    + now rewrite (filter_ne_id i _ Hnot).
  - intros ->. rewrite Hall. rewrite decide_True by reflexivity.
    apply last_snoc.
Qed.

Lemma addChild_wf (layer : LayerId) (v : Value) (s : Scene) :
  wf s -> (forall e, v = VItem e -> is_Some (heap s !! e)) ->
  wf (addChild layer v s) /\ heap (addChild layer v s) = heap s.
Proof.
  intros Hwf Hv. destruct v as [|e]; cbn [addChild]; [now split|].
  split; [|reflexivity]. apply wf_appendChild; [now apply wf_removeItem|].
  destruct Hwf as [_ Hh]. exact (Hh e (Hv e eq_refl)).
Qed.

(** One child of [destroyThinFeatures]: the body of the loop returns, keeps
    the scene well formed and leaves the objects it found as they were. *)
Lemma destroyThinItem_ok (layer : LayerId) (amount : jsnum) (clone_ : bool)
    (s : Scene) (item : ItemId) :
  wf s -> is_Some (heap s !! item) ->
  exists s',
    destroyThinItem layer amount clone_ s item = Some s'
    /\ wf s'
    /\ (forall j x, heap s !! j = Some x -> heap s' !! j = Some x).
Proof.
  intros Hwf [it Hi]. unfold destroyThinItem.
  assert (Hm : exists mask s0 mit,
             (if clone_ then clone item s else Some (item, s)) = Some (mask, s0)
             /\ wf s0 /\ heap s0 !! mask = Some mit
             /\ (forall j x, heap s !! j = Some x -> heap s0 !! j = Some x)).
  { destruct clone_.
    - exists (nextId s), (withCopy item it s), it.
      split; [exact (clone_eq item it s Hi)|].
      split; [now apply wf_withCopy|].
      rewrite heap_withCopy. split; [apply lookup_insert_eq|].
      intros j x Hj. rewrite lookup_insert_ne; [exact Hj|].
      destruct Hwf as [_ Hh]. specialize (Hh j (mk_is_Some _ _ Hj)). lia.
    - exists item, s, it. auto. }
  destruct Hm as (mask & s0 & mit & -> & Hwf0 & Hmask & Hk0).
  cbn [mbind option_bind].
  destruct (offsetPath_result mask mit (jneg amount) (num 2) false s0 Hwf0 Hmask)
    as (v1 & s1 & Ho1 & Hwf1 & _ & Halive1).
  destruct (offsetPath_heap mask mit _ _ _ s0 s1 v1 Hwf0 Hmask Ho1) as [Hk1 _].
  rewrite Ho1. cbn [mbind option_bind].
  destruct v1 as [|m].
  - exists s1. split; [reflexivity|]. split; [exact Hwf1|]. auto.
  - destruct (Halive1 m eq_refl) as [mit1 Hm1].
    destruct (offsetPath_result m mit1 amount (num 2) false s1 Hwf1 Hm1)
      as (v2 & s2 & Ho2 & Hwf2 & _ & Halive2).
    destruct (offsetPath_heap m mit1 _ _ _ s1 s2 v2 Hwf1 Hm1 Ho2) as [Hk2 _].
    rewrite Ho2. cbn [mbind option_bind].
    destruct (addChild_wf layer v2 s2 Hwf2 Halive2) as [Hwf3 Hh3].
    eexists. split; [reflexivity|]. split; [exact Hwf3|].
    intros j x Hj. rewrite Hh3. auto.
Qed.

(** X16.  On a well-formed scene whose layer children are alive,
    destroyThinFeatures runs to completion for every amount and both clone
    modes, leaves the scene well formed and changes no object that was
    alive before. *)
Theorem destroyThinFeatures_completes (layer : LayerId) (amount : jsnum)
    (clone_ : bool) (s : Scene) :
  wf s ->
  (forall i, i ∈ childrenOf layer s -> is_Some (heap s !! i)) ->
  exists s',
    destroyThinFeatures layer amount clone_ s = Some s'
    /\ wf s'
    /\ (forall j x, heap s !! j = Some x -> heap s' !! j = Some x).
Proof.
  intros Hwf Halive. unfold destroyThinFeatures.
  generalize dependent s. intros s0.
  generalize (childrenOf layer s0) as items. intros items. revert s0.
  induction items as [|item items IH]; intros s Hwf Halive.
  - exists s. auto.
  - cbn [eachM].
    destruct (destroyThinItem_ok layer amount clone_ s item Hwf)
      as (s1 & -> & Hwf1 & Hk1); [apply Halive; set_solver|].
    cbn [mbind option_bind].
    destruct (IH s1 Hwf1) as (s' & -> & Hwf' & Hk').
    { intros i Hin. destruct (Halive i) as [x Hx]; [set_solver|].
      exists x. now apply Hk1. }
    exists s'. auto.
Qed.

Lemma strokeSnapped_shape (pal : list ColorData) (limit : option Z)
    (it it1 : Item) :
  strokeSnapped pal limit it = Some it1 ->
  geometry it1 = geometry it /\ strokeWidth it1 = strokeWidth it
  /\ fillColor it1 = fillColor it /\ name (data it1) = name (data it)
  /\ match strokeColor it with
     | Some c =>
         exists e, pal !! snapColor pal (SString (toCSS c)) limit = Some e
                   /\ strokeColor it1 = Some (colorOfString (HEX e))
     | None => strokeColor it1 = None
     end.
Proof.
  unfold strokeSnapped, snapEntry. destruct (strokeColor it) as [c|] eqn:Hc.
  - destruct (pal !! snapColor pal (SString (toCSS c)) limit) as [e|];
      cbn [mbind option_bind]; [|discriminate].
    intros Heq. injection Heq as <-. cbn. eauto 10.
  - intros Heq. injection Heq as <-. now rewrite Hc.
Qed.

Lemma fillSnapped_shape (pal : list ColorData) (limit : option Z)
    (it it2 : Item) (fi : option nat) :
  fillSnapped pal limit it = Some (it2, fi) ->
  geometry it2 = geometry it /\ strokeWidth it2 = strokeWidth it
  /\ strokeColor it2 = strokeColor it /\ name (data it2) = name (data it)
  /\ match fillColor it with
     | Some c =>
         exists e, pal !! snapColor pal (SString (toCSS c)) limit = Some e
                   /\ fillColor it2 = Some (colorOfString (HEX e))
     | None => fillColor it2 = None
     end.
Proof.
  unfold fillSnapped, snapEntry. destruct (fillColor it) as [c|] eqn:Hc.
  - destruct (pal !! snapColor pal (SString (toCSS c)) limit) as [e|];
      cbn [mbind option_bind]; [|discriminate].
    intros Heq. injection Heq as <- <-. cbn. eauto 10.
  - intros Heq. injection Heq as <- <-. now rewrite Hc.
Qed.

(** X17.  Without outlines and with a palette that is not empty, autoColor
    returns, leaves every layer as it is and every live object outside the
    layer unchanged; each child keeps its geometry, stroke width and name,
    a missing stroke or fill stays missing, and a present one becomes the
    colour of the palette entry snapColor picks for it. *)
Theorem autoColor_quantises (pal : list ColorData) (layer : LayerId)
    (limit : option Z) (s : Scene) :
  wf s -> NoDup (childrenOf layer s) ->
  (forall i, i ∈ childrenOf layer s -> is_Some (heap s !! i)) ->
  pal <> [] ->
  exists s',
    autoColor pal layer limit false s = Some s'
    /\ layers s' = layers s
    /\ (forall j x, j ∉ childrenOf layer s -> heap s !! j = Some x ->
                    heap s' !! j = Some x)
    /\ forall i it,
         i ∈ childrenOf layer s -> heap s !! i = Some it ->
         exists it',
           heap s' !! i = Some it'
           /\ geometry it' = geometry it /\ strokeWidth it' = strokeWidth it
           /\ name (data it') = name (data it)
           /\ match strokeColor it with
              | Some c =>
                  exists e,
                    pal !! snapColor pal (SString (toCSS c)) limit = Some e
                    /\ strokeColor it' = Some (colorOfString (HEX e))
              | None => strokeColor it' = None
              end
           /\ match fillColor it with
              | Some c =>
                  exists e,
                    pal !! snapColor pal (SString (toCSS c)) limit = Some e
                    /\ fillColor it' = Some (colorOfString (HEX e))
              | None => fillColor it' = None
              end.
Proof.
  intros Hwf Hnd Halive Hpal. unfold autoColor.
  destruct (autoColor_loop_some pal limit false Hpal
              ltac:(discriminate) (childrenOf layer s) s [] Hwf Hnd Halive)
    as [[s' outs'] Hrun].
  rewrite Hrun. cbn [mbind option_bind].
  destruct (autoColor_loop pal limit false (childrenOf layer s) s s' [] outs'
              Hwf Hnd Halive Hrun)
    as (Hl & _ & _ & Hother & Hitems & news & -> & _ & _ & ->).
  cbn [app]. exists s'. split; [reflexivity|]. split; [exact Hl|]. split.
  - intros j x Hj Hx. rewrite Hother; [exact Hx|exact Hj|].
    destruct Hwf as [_ Hh]. exact (Hh j (mk_is_Some _ _ Hx)).
  - intros i it Hi Hit.
    destruct (Hitems i it Hi Hit) as (it1 & it2 & fi & Hs1 & Hs2 & Hnew).
    destruct (strokeSnapped_shape pal limit it it1 Hs1)
      as (Hg1 & Hw1 & Hf1 & Hn1 & Hc1).
    destruct (fillSnapped_shape pal limit it1 it2 fi Hs2)
      as (Hg2 & Hw2 & Hf2 & Hn2 & Hc2).
    exists it2. split; [exact Hnew|].
    split; [congruence|]. split; [congruence|]. split; [congruence|].
    rewrite Hf1 in Hc2. split; [|exact Hc2].
    destruct (strokeColor it) as [c|]; [|congruence].
    destruct Hc1 as (e & He & Hc1). exists e. split; [exact He|congruence].
Qed.

(** The children of a layer that were allocated before [n0]. *)
Lemma old_filter_ne (n0 i : ItemId) (l : list ItemId) :
  (n0 <= i)%positive ->
  filter (fun x : ItemId => (x < n0)%positive) (filter (fun x => x <> i) l)
  = filter (fun x : ItemId => (x < n0)%positive) l.
Proof.
  intros Hi. induction l as [|x l IH]; [reflexivity|].
  destruct (decide (x = i)) as [->|Hne].
  - rewrite filter_cons_False by (intros Hc; now apply Hc).
    rewrite (filter_cons_False _ i) by lia. exact IH.
  - rewrite filter_cons_True by exact Hne.
    destruct (decide (x < n0)%positive) as [Hx|Hx].
    + rewrite !filter_cons_True by exact Hx. now rewrite IH.
    + rewrite !filter_cons_False by exact Hx. exact IH.
Qed.

Lemma old_filter_extra (n0 e : ItemId) (l : list ItemId) (b : bool) :
  (n0 <= e)%positive ->
  filter (fun x : ItemId => (x < n0)%positive) (l ++ (if b then [e] else []))
  = filter (fun x : ItemId => (x < n0)%positive) l.
Proof.
  intros He. rewrite filter_app. destruct b; [|apply app_nil_r].
  rewrite filter_cons_False by lia. apply app_nil_r.
Qed.

Lemma old_filter_insertAfter (n0 i p : ItemId) (l : list ItemId) :
  (n0 <= p)%positive ->
  filter (fun x : ItemId => (x < n0)%positive) (insertAfter i p l)
  = filter (fun x : ItemId => (x < n0)%positive) l.
Proof.
  intros Hp. induction l as [|x l IH]; [reflexivity|]. cbn [insertAfter].
  destruct (decide (x = i)) as [->|Hne].
  - destruct (decide (i < n0)%positive) as [Hx|Hx].
    + rewrite (filter_cons_True _ i) by exact Hx.
      rewrite (filter_cons_False _ p) by lia.
      now rewrite (filter_cons_True _ i) by exact Hx.
    + rewrite (filter_cons_False _ i) by exact Hx.
      rewrite (filter_cons_False _ p) by lia.
      now rewrite (filter_cons_False _ i) by exact Hx.
  - destruct (decide (x < n0)%positive) as [Hx|Hx].
    + rewrite !filter_cons_True by exact Hx. now rewrite IH.
    + rewrite !filter_cons_False by exact Hx. exact IH.
Qed.

Lemma old_withCopy (n0 i : ItemId) (it : Item) (s : Scene) (L : LayerId) :
  (n0 <= nextId s)%positive ->
  filter (fun x : ItemId => (x < n0)%positive) (childrenOf L (withCopy i it s))
  = filter (fun x : ItemId => (x < n0)%positive) (childrenOf L s).
Proof.
  intros Hn. unfold withCopy, insertAbove. cbn [alloc snd].
  destruct (hasParent _ _); [|reflexivity].
  rewrite (childrenOf_fmap (insertAfter i (nextId s))) by reflexivity.
  rewrite childrenOf_removeItem, old_filter_insertAfter by exact Hn.
  now rewrite old_filter_ne by exact Hn.
Qed.

(** The children of a layer once [offsetPath] has made the inset. *)
Lemma childrenOf_inset (i : ItemId) (it : Item) (d : string) (s : Scene)
    (L : LayerId) :
  wf s ->
  let s0 := removeItem (nextId s) (withCopy i it s) in
  nextId s0 = Pos.succ (nextId s)
  /\ childrenOf L (setItem (nextId s0) (insetItem it d)
                      (snd (newCompoundPath d s0)))
     = childrenOf L s
       ++ (if bool_decide (L = activeLayer s) then [Pos.succ (nextId s)]
           else []).
Proof.
  intros Hwf s0.
  assert (Hn0 : nextId s0 = Pos.succ (nextId s)).
  { unfold s0, withCopy. cbn [nextId removeItem setLayers].
    now rewrite nextId_insertAbove. }
  split; [exact Hn0|].
  unfold newCompoundPath. cbn [alloc snd activeLayer].
  change (childrenOf L (setItem (nextId s0) ?x ?y)) with (childrenOf L y).
  rewrite childrenOf_appendChild_any, Hn0.
  assert (Ha0 : activeLayer s0 = activeLayer s).
  { unfold s0. cbn [activeLayer removeItem setLayers].
    apply activeLayer_withCopy. }
  rewrite Ha0. f_equal.
  - unfold childrenOf. cbn [layers]. unfold s0.
    now rewrite (layers_scratch i it s Hwf).
  - now destruct (decide (L = activeLayer s)); [rewrite bool_decide_eq_true_2
                                                |rewrite bool_decide_eq_false_2].
Qed.

(** [offsetPath] on an object allocated from [n0] on moves no older child. *)
Lemma offsetPath_old (n0 i : ItemId) (it : Item) (a r : jsnum)
    (s s' : Scene) (v : Value) :
  wf s -> heap s !! i = Some it -> (n0 <= i)%positive ->
  offsetPath i a r false s = Some (v, s') ->
  (forall e, v = VItem e -> (n0 <= e)%positive)
  /\ forall L,
       filter (fun x : ItemId => (x < n0)%positive) (childrenOf L s')
       = filter (fun x : ItemId => (x < n0)%positive) (childrenOf L s).
Proof.
  intros Hwf Hi Hn Heq. rewrite (offsetPath_eq _ _ _ _ _ _ Hi) in Heq.
  assert (Hlt : (i < nextId s)%positive).
  { destruct Hwf as [_ Hh]. exact (Hh i (mk_is_Some _ _ Hi)). }
  destruct (flattenToPaths (geometry it) r) as [paths|].
  - destruct (bool_decide (offsetString paths a <> ""%string)).
    + cbv zeta in Heq.
      set (s0 := removeItem (nextId s) (withCopy i it s)) in Heq.
      set (s1 := setItem (nextId s0) _ _) in Heq.
      assert (Hn0 : nextId s0 = Pos.succ (nextId s))
        by exact (proj1 (childrenOf_inset i it (offsetString paths a) s
                           1%positive Hwf)).
      injection Heq as <- <-. split.
      * intros e He. change (VItem (nextId s0) = VItem e) in He.
        injection He as <-. change (n0 <= nextId s0)%positive.
        rewrite Hn0. lia.
      * intros L.
        pose proof (proj2 (childrenOf_inset i it (offsetString paths a) s L
                             Hwf)) as Hc.
        fold s0 in Hc. fold s1 in Hc.
        rewrite childrenOf_removeItem, old_filter_ne by exact Hn.
        rewrite Hc. apply old_filter_extra. lia.
    + injection Heq as <- <-. split; [intros e He; discriminate He|].
      intros L. rewrite childrenOf_removeItem, old_filter_ne by exact Hn.
      f_equal. apply childrenOf_layers. exact (layers_scratch i it s Hwf).
  - injection Heq as <- <-. split; [intros e He; now injection He as <-|].
    intros L. f_equal. apply childrenOf_layers.
    exact (layers_scratch i it s Hwf).
Qed.

Lemma nextId_withCopy (i : ItemId) (it : Item) (s : Scene) :
  nextId (withCopy i it s) = Pos.succ (nextId s).
Proof. unfold withCopy. now rewrite nextId_insertAbove. Qed.

Lemma offsetPath_nextId (i : ItemId) (it : Item) (a r : jsnum)
    (s s' : Scene) (v : Value) :
  heap s !! i = Some it ->
  offsetPath i a r false s = Some (v, s') ->
  (nextId s <= nextId s')%positive.
Proof.
  intros Hi Heq. rewrite (offsetPath_eq _ _ _ _ _ _ Hi) in Heq.
  pose proof (nextId_withCopy i it s) as Hn.
  destruct (flattenToPaths (geometry it) r) as [paths|].
  - destruct (bool_decide (offsetString paths a <> ""%string)).
    + cbv zeta in Heq. injection Heq as <- <-.
      cbn [nextId removeItem setLayers setItem setHeap newCompoundPath alloc
           snd appendChild]. rewrite Hn. lia.
    + injection Heq as <- <-. cbn [nextId removeItem setLayers]. rewrite Hn. lia.
  - injection Heq as <- <-. cbn [nextId removeItem setLayers logError].
    rewrite Hn. lia.
Qed.

Lemma old_addChild (n0 r : ItemId) (layer L : LayerId) (s : Scene) :
  (n0 <= r)%positive ->
  filter (fun x : ItemId => (x < n0)%positive)
         (childrenOf L (addChild layer (VItem r) s))
  = filter (fun x : ItemId => (x < n0)%positive) (childrenOf L s).
Proof.
  intros Hr. cbn [addChild].
  rewrite childrenOf_appendChild_any, filter_app, childrenOf_removeItem.
  rewrite old_filter_ne by exact Hr.
  destruct (decide (L = layer)); [|apply app_nil_r].
  rewrite filter_cons_False by lia. apply app_nil_r.
Qed.

(** With [clone] set, one child of [destroyThinFeatures] leaves every child
    allocated before [n0] where it is. *)
Lemma destroyThinItem_clone_old (n0 : ItemId) (layer : LayerId)
    (amount : jsnum) (s : Scene) (item : ItemId) :
  wf s -> is_Some (heap s !! item) -> (n0 <= nextId s)%positive ->
  exists s',
    destroyThinItem layer amount true s item = Some s'
    /\ wf s'
    /\ (forall j x, heap s !! j = Some x -> heap s' !! j = Some x)
    /\ (n0 <= nextId s')%positive
    /\ forall L,
         filter (fun x : ItemId => (x < n0)%positive) (childrenOf L s')
         = filter (fun x : ItemId => (x < n0)%positive) (childrenOf L s).
Proof.
  intros Hwf [it Hi] Hn. unfold destroyThinItem.
  rewrite (clone_eq item it s Hi). cbn [mbind option_bind].
  set (s0 := withCopy item it s).
  assert (Hwf0 : wf s0) by now apply wf_withCopy.
  assert (Hmask : heap s0 !! nextId s = Some it).
  { unfold s0. rewrite heap_withCopy. apply lookup_insert_eq. }
  assert (Hk0 : forall j x, heap s !! j = Some x -> heap s0 !! j = Some x).
  { intros j x Hj. unfold s0. rewrite heap_withCopy, lookup_insert_ne;
      [exact Hj|].
    destruct Hwf as [_ Hh]. specialize (Hh j (mk_is_Some _ _ Hj)). lia. }
  assert (Hn0 : (n0 <= nextId s0)%positive).
  { unfold s0. rewrite nextId_withCopy. lia. }
  destruct (offsetPath_result (nextId s) it (jneg amount) (num 2) false s0
              Hwf0 Hmask) as (v1 & s1 & Ho1 & Hwf1 & _ & Halive1).
  destruct (offsetPath_heap _ _ _ _ _ _ _ _ Hwf0 Hmask Ho1) as [Hk1 _].
  destruct (offsetPath_old n0 _ _ _ _ _ _ _ Hwf0 Hmask Hn Ho1) as [Hv1 Hold1].
  pose proof (offsetPath_nextId _ _ _ _ _ _ _ Hmask Ho1) as Hn1.
  rewrite Ho1. cbn [mbind option_bind].
  destruct v1 as [|m].
  - exists s1. split; [reflexivity|]. split; [exact Hwf1|].
    split; [auto|]. split; [lia|].
    intros L. rewrite Hold1. apply old_withCopy. exact Hn.
  - destruct (Halive1 m eq_refl) as [mit1 Hm1].
    destruct (offsetPath_result m mit1 amount (num 2) false s1 Hwf1 Hm1)
      as (v2 & s2 & Ho2 & Hwf2 & _ & Halive2).
    destruct (offsetPath_heap _ _ _ _ _ _ _ _ Hwf1 Hm1 Ho2) as [Hk2 _].
    destruct (offsetPath_old n0 _ _ _ _ _ _ _ Hwf1 Hm1 (Hv1 m eq_refl) Ho2)
      as [Hv2 Hold2].
    pose proof (offsetPath_nextId _ _ _ _ _ _ _ Hm1 Ho2) as Hn2.
    rewrite Ho2. cbn [mbind option_bind].
    destruct (addChild_wf layer v2 s2 Hwf2 Halive2) as [Hwf3 Hh3].
    eexists. split; [reflexivity|]. split; [exact Hwf3|]. split.
    { intros j x Hj. rewrite Hh3. auto. }
    split.
    { destruct v2; cbn [addChild nextId appendChild removeItem setLayers]; lia. }
    intros L. transitivity
      (filter (fun x : ItemId => (x < n0)%positive) (childrenOf L s2)).
    + destruct v2 as [|r]; [reflexivity|]. apply old_addChild.
      exact (Hv2 r eq_refl).
    + rewrite Hold2, Hold1. apply old_withCopy. exact Hn.
Qed.

Lemma filter_all {A} (P : A -> Prop) `{forall x, Decision (P x)} (l : list A) :
  Forall P l -> filter P l = l.
Proof.
  induction 1 as [|x l Hx _ IH]; [reflexivity|].
  now rewrite filter_cons_True, IH by exact Hx.
Qed.

(** X20.  With clone set, destroyThinFeatures keeps the children of every
    layer in place and in order: the children of a layer that existed
    before the call are, after it, exactly the former list, and whatever
    else the layer holds was created by the call. *)
Theorem destroyThinFeatures_clone_keeps_children (layer : LayerId)
    (amount : jsnum) (s : Scene) :
  wf s ->
  (forall i, i ∈ childrenOf layer s -> is_Some (heap s !! i)) ->
  exists s',
    destroyThinFeatures layer amount true s = Some s'
    /\ forall L,
         filter (fun x : ItemId => (x < nextId s)%positive) (childrenOf L s')
         = childrenOf L s.
Proof.
  intros Hwf Halive. unfold destroyThinFeatures.
  assert (Hloop : forall items s1,
            wf s1 -> (forall i, i ∈ items -> is_Some (heap s1 !! i)) ->
            (nextId s <= nextId s1)%positive ->
            exists s',
              eachM (destroyThinItem layer amount true) s1 items = Some s'
              /\ forall L,
                   filter (fun x : ItemId => (x < nextId s)%positive)
                          (childrenOf L s')
                   = filter (fun x : ItemId => (x < nextId s)%positive)
                            (childrenOf L s1)).
  { induction items as [|item items IH]; intros s1 Hwf1 Hal1 Hn1.
    - exists s1. split; reflexivity.
    - cbn [eachM].
      destruct (destroyThinItem_clone_old (nextId s) layer amount s1 item Hwf1)
        as (s2 & -> & Hwf2 & Hk2 & Hn2 & Hold2); [apply Hal1; set_solver|exact Hn1|].
      cbn [mbind option_bind].
      destruct (IH s2 Hwf2) as (s' & -> & Hold'); [|exact Hn2|].
      { intros i Hin. destruct (Hal1 i) as [x Hx]; [set_solver|].
        exists x. now apply Hk2. }
      exists s'. split; [reflexivity|]. intros L. now rewrite Hold', Hold2. }
  destruct (Hloop (childrenOf layer s) s Hwf Halive) as (s' & -> & Hold); [lia|].
  exists s'. split; [reflexivity|]. intros L. rewrite Hold.
  apply filter_all. apply Forall_forall. intros x Hx.
  destruct Hwf as [Hlay _]. unfold childrenOf in Hx.
  destruct (layers s !! L) as [ids|] eqn:HL; [|inversion Hx].
  exact (Hlay L ids x HL Hx).
Qed.

(** X25.  With an empty palette autoColor throws as soon as the layer has a
    child with a stroke or a fill colour: the entry it reads for the match
    does not exist. *)
Theorem autoColor_empty_palette_throws (layer : LayerId) (limit : option Z)
    (outline : bool) (s : Scene) (i : ItemId) (it : Item) :
  wf s -> NoDup (childrenOf layer s) ->
  (forall j, j ∈ childrenOf layer s -> is_Some (heap s !! j)) ->
  i ∈ childrenOf layer s -> heap s !! i = Some it ->
  is_Some (strokeColor it) \/ is_Some (fillColor it) ->
  autoColor [] layer limit outline s = None.
Proof.
  intros Hwf Hnd Halive Hi Hit Hcol. unfold autoColor.
  set (lim := if outline then _ else _).
  destruct (eachM (autoColorItem [] lim outline) (s, []) (childrenOf layer s))
    as [[s' outs']|] eqn:Hrun; [|reflexivity].
  exfalso.
  destruct (autoColor_loop [] lim outline (childrenOf layer s) s s' [] outs'
              Hwf Hnd Halive Hrun) as (_ & _ & _ & _ & Hitems & _).
  destruct (Hitems i it Hi Hit) as (it1 & it2 & fi & Hs1 & Hs2 & _).
  unfold strokeSnapped, snapEntry in Hs1.
  destruct (strokeColor it) as [c|] eqn:Hc; [discriminate Hs1|].
  injection Hs1 as <-. unfold fillSnapped, snapEntry in Hs2.
  destruct Hcol as [[x Hx]|[x Hx]]; [discriminate Hx|].
  rewrite Hx in Hs2. discriminate Hs2.
Qed.

End Scene.

Section Runs.

#[local] Existing Instance Fixture.plainPaper.
#[local] Existing Instance Fixture.toyClipper.
#[local] Existing Instance Fixture.toyRuntime.

Import Fixture.

Lemma plainScene_alive :
  forall i, i ∈ childrenOf 1%positive plainScene ->
            is_Some (heap plainScene !! i).
Proof.
  intros i Hi. apply list_elem_of_singleton in Hi. subst i. eexists. reflexivity.
Qed.

Lemma offsetPath_keeps_objects_witness :
  exists v s',
    offsetPath 1%positive (num 0) (num 2) false plainScene = Some (v, s')
    /\ (forall j x, heap plainScene !! j = Some x -> heap s' !! j = Some x)
    /\ (forall e, v = VItem e -> e <> 1%positive ->
          heap plainScene !! e = None
          /\ exists g,
               heap s' !! e
               = Some (mkItem (data plainSquare) (strokeColor plainSquare)
                              (strokeWidth plainSquare) (fillColor plainSquare)
                              g)).
Proof.
  apply (offsetPath_keeps_objects 1%positive plainSquare (num 0) (num 2) false
           plainScene).
  - apply wf_oneItem.
  - reflexivity.
Defined.

Lemma offsetPath_placement_witness :
  exists s',
    offsetPath 1%positive (num 0) (num 2) false plainScene
    = Some (VItem 3%positive, s')
    /\ heap plainScene !! 3%positive = None
    /\ childrenOf 1%positive s' = [3%positive]
    /\ last (childrenOf (activeLayer plainScene) s') = Some 3%positive.
Proof.
  destruct (offsetPath_placement 1%positive plainSquare (num 0) (num 2) false
              plainScene [square] 1%positive [] [])
    as (s' & Heq & Hfresh & Hc & _ & _ & Hlast).
  - apply wf_oneItem.
  - reflexivity.
  - reflexivity.
  - intros E. vm_compute in E. discriminate E.
  - reflexivity.
  - apply not_elem_of_nil.
  - apply not_elem_of_nil.
  - exists s'. split; [exact Heq|]. split; [exact Hfresh|].
    split; [exact Hc|]. exact (Hlast eq_refl).
Defined.

Lemma destroyThinFeatures_completes_witness :
  exists s',
    destroyThinFeatures 1%positive (num 5) false plainScene = Some s'
    /\ wf s'
    /\ (forall j x, heap plainScene !! j = Some x -> heap s' !! j = Some x).
Proof.
  apply (destroyThinFeatures_completes 1%positive (num 5) false plainScene).
  - apply wf_oneItem.
  - exact plainScene_alive.
Defined.

Lemma autoColor_quantises_witness :
  exists s',
    autoColor shades 1%positive None false canvas = Some s'
    /\ layers s' = layers canvas
    /\ (forall j x, j ∉ childrenOf 1%positive canvas ->
                    heap canvas !! j = Some x -> heap s' !! j = Some x)
    /\ forall i it,
         i ∈ childrenOf 1%positive canvas -> heap canvas !! i = Some it ->
         exists it',
           heap s' !! i = Some it'
           /\ geometry it' = geometry it /\ strokeWidth it' = strokeWidth it
           /\ name (data it') = name (data it)
           /\ match strokeColor it with
              | Some c =>
                  exists e,
                    shades !! snapColor shades (SString (toCSS c)) None = Some e
                    /\ strokeColor it' = Some (colorOfString (HEX e))
              | None => strokeColor it' = None
              end
           /\ match fillColor it with
              | Some c =>
                  exists e,
                    shades !! snapColor shades (SString (toCSS c)) None = Some e
                    /\ fillColor it' = Some (colorOfString (HEX e))
              | None => fillColor it' = None
              end.
Proof.
  apply (autoColor_quantises shades 1%positive None canvas).
  - apply wf_oneItem.
  - exact canvas_children_nodup.
  - exact canvas_children_alive.
  - discriminate.
Defined.

Lemma destroyThinFeatures_clone_keeps_children_witness :
  exists s',
    destroyThinFeatures 1%positive (num 0) true plainScene = Some s'
    /\ forall L,
         filter (fun x : ItemId => (x < 2)%positive) (childrenOf L s')
         = childrenOf L plainScene.
Proof.
  apply (destroyThinFeatures_clone_keeps_children 1%positive (num 0) plainScene).
  - apply wf_oneItem.
  - exact plainScene_alive.
Defined.

(** The same run, evaluated: the original stays first, the copy made for it
    is gone and the shape that survived both offsets is the last child. *)
Example destroyThinFeatures_clone_square :
  childrenOf 1%positive
    <$> destroyThinFeatures 1%positive (num 0) true plainScene
  = Some [1%positive; 6%positive].
Proof. reflexivity. Qed.

Lemma autoColor_empty_palette_throws_witness :
  autoColor [] 1%positive None true canvas = None.
Proof.
  apply (autoColor_empty_palette_throws 1%positive None true canvas 1%positive
           painted).
  - apply wf_oneItem.
  - exact canvas_children_nodup.
  - exact canvas_children_alive.
  - apply list_elem_of_singleton. reflexivity.
  - reflexivity.
  - left. eexists. reflexivity.
Defined.

End Runs.

End SceneExtra.
